(** * go-qvrpro: the QVR Pro / QVR Elite client, embedded and verified

    The repository holds two revisions of one Go package [qvrpro]:
    - [src/qvrpro.go], the first client (module [QvrPro] below), and
    - the later revision that adds the [QvrApplication] selector
      (module [QvrApp] below).

    Both are embedded shallowly.  Go's [int] is taken to be 64 bits wide and
    C's [long] 64 bits, [int] 32 bits (an LP64 platform, which cgo needs
    anyway).  The standard library calls the client makes are either
    transcribed ([strings.Split], [strconv.Atoi], [strconv.Itoa],
    [url.Values], [url.QueryEscape], [strtol]) or, where they reach outside
    the process (URL parsing of the configured base URL, the HTTP round
    trip, the clock, the XML and JSON decoders), supplied by an environment
    record [Env]. *)

From Stdlib Require Import ZArith List String Ascii Bool Lia.
From Stdlib Require Import Numbers.DecimalString.
From stdpp Require Import gmap strings sorting.

Local Open Scope string_scope.
Local Open Scope list_scope.
Local Open Scope Z_scope.

(** ** Go and C library functions used by the client *)

Module GoLib.

Definition byte_of (c : ascii) : Z := Z.of_N (N_of_ascii c).

Definition newline : ascii := ascii_of_N 10.

(** [strings.Split(s, sep)] for a separator of one byte: always at least
    one element. *)
Fixpoint strings_Split (s : string) (sep : ascii) : list string :=
  match s with
  | EmptyString => [EmptyString]
  | String c s' =>
      let r := strings_Split s' sep in
      if Ascii.eqb c sep then EmptyString :: r
      else match r with
           | [] => [String c EmptyString]
           | x :: xs => String c x :: xs
           end
  end.

(** The [Err] field of a [*strconv.NumError]. *)
Inductive NumError := ErrSyntax | ErrRange.

Definition digit_of (c : ascii) : option Z :=
  let n := byte_of c in
  if (48 <=? n) && (n <=? 57) then Some (n - 48) else None.

Definition maxUint64 : Z := 2 ^ 64 - 1.

Inductive UintResult := UOk (n : Z) | USyntax | URange.

(** The digit loop of [strconv.ParseUint(s, 10, 64)]: a bad byte is a
    syntax error, an overflow is reported as soon as it happens. *)
Fixpoint ParseUint_loop (s : string) (n : Z) : UintResult :=
  match s with
  | EmptyString => UOk n
  | String c s' =>
      match digit_of c with
      | None => USyntax
      | Some d =>
          if n >=? maxUint64 / 10 + 1 then URange
          else
            let n1 := n * 10 + d in
            if n1 >? maxUint64 then URange else ParseUint_loop s' n1
      end
  end.

Definition ParseUint (s : string) : UintResult :=
  match s with
  | EmptyString => USyntax
  | _ => ParseUint_loop s 0
  end.

(** [strconv.Atoi] on a 64-bit [int] (the fast path agrees with
    [ParseInt(s, 10, 0)], which is what is written here): the value is 0
    on a syntax error and the nearest bound on a range error. *)
Definition Atoi (s : string) : Z * option NumError :=
  match s with
  | EmptyString => (0, Some ErrSyntax)
  | String c rest =>
      let neg := Ascii.eqb c "-" in
      let body := if Ascii.eqb c "+" || neg then rest else s in
      match ParseUint body with
      | USyntax => (0, Some ErrSyntax)
      | URange =>
          if neg then (- 2 ^ 63, Some ErrRange) else (2 ^ 63 - 1, Some ErrRange)
      | UOk un =>
          if negb neg && (un >=? 2 ^ 63) then (2 ^ 63 - 1, Some ErrRange)
          else if neg && (un >? 2 ^ 63) then (- 2 ^ 63, Some ErrRange)
          else (if neg then - un else un, None)
      end
  end.

(** [strconv.Itoa]. *)
Definition Itoa (n : Z) : string := NilZero.string_of_int (Z.to_int n).

(** Conversions between Go's integer types (two's complement wrap). *)
Definition to_int64 (n : Z) : Z := (n + 2 ^ 63) mod 2 ^ 64 - 2 ^ 63.
Definition to_int32 (n : Z) : Z := (n + 2 ^ 31) mod 2 ^ 32 - 2 ^ 31.

(** C's [isspace] in the "C" locale. *)
Definition isspace (c : ascii) : bool :=
  let n := byte_of c in (n =? 32) || ((9 <=? n) && (n <=? 13)).

(** The value of a byte as a digit in some base up to 36. *)
Definition digit_val (c : ascii) : option Z :=
  let n := byte_of c in
  if (48 <=? n) && (n <=? 57) then Some (n - 48)
  else if (97 <=? n) && (n <=? 122) then Some (n - 97 + 10)
  else if (65 <=? n) && (n <=? 90) then Some (n - 65 + 10)
  else None.

Fixpoint skip_space (s : string) : string :=
  match s with
  | String c s' => if isspace c then skip_space s' else s
  | EmptyString => s
  end.

(** Digits of [base] are accumulated until the first byte that is not one. *)
Fixpoint strtol_digits (base : Z) (s : string) (acc : Z) : Z :=
  match s with
  | EmptyString => acc
  | String c s' =>
      match digit_val c with
      | Some d => if d <? base then strtol_digits base s' (acc * base + d) else acc
      | None => acc
      end
  end.

Definition LONG_MAX : Z := 2 ^ 63 - 1.
Definition LONG_MIN : Z := - 2 ^ 63.

Definition is_x (c : ascii) : bool := Ascii.eqb c "x" || Ascii.eqb c "X".

(** [strtol(s, NULL, 0)]: white space, a sign, then the base from the
    prefix ([0x] hexadecimal, [0] octal, decimal otherwise); the result
    saturates at the bounds of [long]. *)
Definition strtol0 (s : string) : Z :=
  let s := skip_space s in
  let '(neg, s) :=
    match s with
    | String c s' =>
        if Ascii.eqb c "-" then (true, s')
        else if Ascii.eqb c "+" then (false, s') else (false, s)
    | EmptyString => (false, s)
    end in
  let magnitude :=
    match s with
    | String z (String x s') =>
        if Ascii.eqb z "0" && is_x x then strtol_digits 16 s' 0
        else if Ascii.eqb z "0" then strtol_digits 8 s 0
        else strtol_digits 10 s 0
    | _ => strtol_digits 10 s 0
    end in
  let v := if neg then - magnitude else magnitude in
  Z.max LONG_MIN (Z.min LONG_MAX v).

(** The cgo helper of the package:
    [int hexToInt(char *hexString) { return strtol(hexString, NULL, 0); }]
    The [long] result is narrowed to C's 32-bit [int]. *)
Definition hexToInt (hexString : string) : Z := to_int32 (strtol0 hexString).

(** [strings.ToLower].  A string of ASCII bytes has its capital letters
    replaced by small ones; a string with any other byte is mapped rune by
    rune through [unicode.ToLower], which is left to [Map_ToLower]. *)
Fixpoint isASCII (s : string) : bool :=
  match s with
  | EmptyString => true
  | String c s' => (byte_of c <? 128) && isASCII s'
  end.

Definition lower_byte (c : ascii) : ascii :=
  let n := byte_of c in
  if (65 <=? n) && (n <=? 90) then ascii_of_N (Z.to_N (n + 32)) else c.

Fixpoint map_bytes (f : ascii -> ascii) (s : string) : string :=
  match s with
  | EmptyString => EmptyString
  | String c s' => String (f c) (map_bytes f s')
  end.

Definition strings_ToLower (Map_ToLower : string -> string) (s : string) : string :=
  if isASCII s then map_bytes lower_byte s else Map_ToLower s.

End GoLib.

Import GoLib.

(** [convertHexToInt]: the C [int] widened to Go's [int]. *)
Definition convertHexToInt (hexString : string) : Z := hexToInt hexString.


(** ** [net/url]: query values and their encoding *)

Module net_url.

(** [url.Values], a [map[string][]string]. *)
Abbreviation Values := (gmap string (list string)).

(** [Values.Add]: [v[key] = append(v[key], value)]. *)
Definition Add (key value : string) (v : Values) : Values :=
  <[key := (v !!! key) ++ [value]]> v.

Definition upperhex (n : Z) : ascii :=
  ascii_of_N (Z.to_N (if n <? 10 then 48 + n else 65 + (n - 10))).

Definition is_alnum (c : ascii) : bool :=
  let n := byte_of c in
  ((48 <=? n) && (n <=? 57)) || ((65 <=? n) && (n <=? 90))
  || ((97 <=? n) && (n <=? 122)).

(** [shouldEscape(c, encodeQueryComponent)]: only the unreserved bytes
    stay as they are. *)
Definition shouldEscape (c : ascii) : bool :=
  negb (is_alnum c || Ascii.eqb c "-" || Ascii.eqb c "_"
        || Ascii.eqb c "." || Ascii.eqb c "~").

(** [url.QueryEscape]. *)
Fixpoint QueryEscape (s : string) : string :=
  match s with
  | EmptyString => EmptyString
  | String c s' =>
      if Ascii.eqb c " " then String "+" (QueryEscape s')
      else if shouldEscape c then
        String "%" (String (upperhex (byte_of c / 16))
                      (String (upperhex (byte_of c mod 16)) (QueryEscape s')))
      else String c (QueryEscape s')
  end.

Definition unhex (c : ascii) : option Z :=
  match digit_val c with
  | Some d => if d <? 16 then Some d else None
  | None => None
  end.

(** [url.QueryUnescape]; [None] stands for its [EscapeError]. *)
Fixpoint QueryUnescape (s : string) : option string :=
  match s with
  | EmptyString => Some EmptyString
  | String c s' =>
      if Ascii.eqb c "%" then
        match s' with
        | String h (String l s'') =>
            match unhex h, unhex l, QueryUnescape s'' with
            | Some a, Some b, Some r =>
                Some (String (ascii_of_N (Z.to_N (a * 16 + b))) r)
            | _, _, _ => None
            end
        | _ => None
        end
      else
        match QueryUnescape s' with
        | Some r => Some (String (if Ascii.eqb c "+" then " "%char else c) r)
        | None => None
        end
  end.

Fixpoint join (sep : string) (l : list string) : string :=
  match l with
  | [] => EmptyString
  | [x] => x
  | x :: l' => x +:+ sep +:+ join sep l'
  end.

(** The keys of a map in the byte order [slices.Sort] puts them. *)
Definition sorted_keys (v : Values) : list string :=
  merge_sort String.le (map fst (map_to_list v)).

Definition pairs_of (v : Values) : list (string * string) :=
  flat_map (fun k => map (fun x => (k, x)) (v !!! k)) (sorted_keys v).

Definition encode_pair (p : string * string) : string :=
  QueryEscape (fst p) +:+ "=" +:+ QueryEscape (snd p).

(** [Values.Encode]: "URL encoded" form sorted by key. *)
Definition Encode (v : Values) : string :=
  join "&" (map encode_pair (pairs_of v)).

(** [strings.Cut(s, sep)] for a separator of one byte, without the flag. *)
Fixpoint Cut (s : string) (sep : ascii) : string * string :=
  match s with
  | EmptyString => (EmptyString, EmptyString)
  | String c s' =>
      if Ascii.eqb c sep then (EmptyString, s')
      else let '(a, b) := Cut s' sep in (String c a, b)
  end.

Fixpoint Contains (s : string) (c : ascii) : bool :=
  match s with
  | EmptyString => false
  | String d s' => Ascii.eqb d c || Contains s' c
  end.

Inductive QueryError := SemicolonError | EscapeError.

(** One turn of the loop of [parseQuery], on the segment cut off at the
    next ampersand. *)
Definition parseQuery_step (acc : Values * option QueryError) (key : string)
  : Values * option QueryError :=
  let '(m, err) := acc in
  if Contains key ";" then (m, Some SemicolonError)
  else if String.eqb key EmptyString then (m, err)
  else
    let '(k, value) := Cut key "=" in
    match QueryUnescape k with
    | None => (m, if err is None then Some EscapeError else err)
    | Some k =>
        match QueryUnescape value with
        | None => (m, if err is None then Some EscapeError else err)
        | Some value => (Add k value m, err)
        end
    end.

(** [url.ParseQuery]: the loop cuts the query at every ampersand, so the
    segments it visits are those of [strings.Split(query, "&")]. *)
Definition ParseQuery (query : string) : Values * option QueryError :=
  fold_left parseQuery_step (strings_Split query "&") (∅, None).

(** *** [url.URL], [url.Parse] and [URL.String]

    Transcribed from [net/url] as of Go 1.19 to 1.22 (the versions with
    the [OmitHost] field and without the later checks of IP literals). *)

(** [*url.Userinfo] *)
Record Userinfo := mkUserinfo {
  username : string;
  password : string;
  passwordSet : bool
}.

Record URL := mkURL {
  Scheme : string;
  Opaque : string;
  User : option Userinfo;
  Host : string;
  Path : string;
  RawPath : string;
  OmitHost : bool;
  ForceQuery : bool;
  RawQuery : string;
  Fragment : string;
  RawFragment : string
}.

(** [baseUrl.Path = p] *)
Definition set_Path (p : string) (u : URL) : URL :=
  {| Scheme := Scheme u; Opaque := Opaque u; User := User u; Host := Host u;
     Path := p; RawPath := RawPath u; OmitHost := OmitHost u;
     ForceQuery := ForceQuery u; RawQuery := RawQuery u;
     Fragment := Fragment u; RawFragment := RawFragment u |}.

(** [baseUrl.RawQuery = q] *)
Definition set_RawQuery (q : string) (u : URL) : URL :=
  {| Scheme := Scheme u; Opaque := Opaque u; User := User u; Host := Host u;
     Path := Path u; RawPath := RawPath u; OmitHost := OmitHost u;
     ForceQuery := ForceQuery u; RawQuery := q;
     Fragment := Fragment u; RawFragment := RawFragment u |}.

Inductive encoding :=
| encodePath
| encodePathSegment
| encodeHost
| encodeZone
| encodeUserPassword
| encodeQueryComponent
| encodeFragment.

Definition is_host_mode (mode : encoding) : bool :=
  match mode with
  | encodeHost | encodeZone => true
  | _ => false
  end.

Definition is_mode (a b : encoding) : bool :=
  match a, b with
  | encodePath, encodePath
  | encodePathSegment, encodePathSegment
  | encodeHost, encodeHost
  | encodeZone, encodeZone
  | encodeUserPassword, encodeUserPassword
  | encodeQueryComponent, encodeQueryComponent
  | encodeFragment, encodeFragment => true
  | _, _ => false
  end.

(** The double quote, which [shouldEscape] lets through in a host. *)
Definition quote : ascii := ascii_of_N 34.

(** [shouldEscape(c, mode)], in the order of its tests. *)
Definition shouldEscapeIn (mode : encoding) (c : ascii) : bool :=
  if is_alnum c then false
  else if is_host_mode mode
          && (Contains "!$&'()*+,;=:[]<>" c || Ascii.eqb c quote) then false
  else if Contains "-_.~" c then false
  else if Contains "$&+,/:;=?@" c
          && match mode with
             | encodePath | encodePathSegment | encodeUserPassword
             | encodeQueryComponent | encodeFragment => true
             | encodeHost | encodeZone => false
             end
  then
    match mode with
    | encodePath => Ascii.eqb c "?"
    | encodePathSegment => Contains "/;,?" c
    | encodeUserPassword => Contains "@/?:" c
    | encodeQueryComponent => true
    | _ => false
    end
  else if is_mode mode encodeFragment && Contains "!()*" c then false
  else true.

(** [escape(s, mode)] *)
Fixpoint escape (mode : encoding) (s : string) : string :=
  match s with
  | EmptyString => EmptyString
  | String c s' =>
      if Ascii.eqb c " " && is_mode mode encodeQueryComponent
      then String "+" (escape mode s')
      else if shouldEscapeIn mode c then
        String "%" (String (upperhex (byte_of c / 16))
                      (String (upperhex (byte_of c mod 16)) (escape mode s')))
      else String c (escape mode s')
  end.

(** What [url.Parse] can object to. *)
Inductive ParseError :=
| InvalidEscape (s : string)        (* EscapeError *)
| InvalidHost (s : string)          (* InvalidHostError *)
| InvalidControlCharacter           (* invalid control character in URL *)
| MissingProtocolScheme             (* missing protocol scheme *)
| ColonInFirstSegment               (* first path segment in URL cannot contain colon *)
| MissingBracket                    (* missing ']' in host *)
| InvalidPort (s : string)          (* invalid port after host *)
| InvalidUserinfo.                  (* net/url: invalid userinfo *)

(** The first three bytes of a string, or fewer. *)
Definition first3 (s : string) : string := substring 0 3 s.

(** [unescape(s, mode)].  The source checks the whole string before it
    builds the result; the first objection in the order of the bytes is
    the one returned, here as there. *)
Fixpoint unescape (mode : encoding) (s : string) : string + ParseError :=
  match s with
  | EmptyString => inl EmptyString
  | String c s' =>
      if Ascii.eqb c "%" then
        match s' with
        | String h (String l s'') =>
            match unhex h, unhex l with
            | Some a, Some b =>
                let v := ascii_of_N (Z.to_N (a * 16 + b)) in
                let is25 := Ascii.eqb h "2" && Ascii.eqb l "5" in
                if is_mode mode encodeHost && (a <? 8) && negb is25
                then inr (InvalidEscape (first3 s))
                else if is_mode mode encodeZone && negb is25
                        && negb (Ascii.eqb v " ") && shouldEscapeIn encodeHost v
                then inr (InvalidEscape (first3 s))
                else
                  match unescape mode s'' with
                  | inl r => inl (String v r)
                  | inr e => inr e
                  end
            | _, _ => inr (InvalidEscape (first3 s))
            end
        | _ => inr (InvalidEscape (first3 s))
        end
      else if Ascii.eqb c "+" then
        match unescape mode s' with
        | inl r =>
            inl (String (if is_mode mode encodeQueryComponent then " "%char else c) r)
        | inr e => inr e
        end
      else if is_host_mode mode && (byte_of c <? 128) && shouldEscapeIn encodeHost c
      then inr (InvalidHost (String c EmptyString))
      else
        match unescape mode s' with
        | inl r => inl (String c r)
        | inr e => inr e
        end
  end.

(** [validEncoded(s, mode)] *)
Fixpoint validEncoded (mode : encoding) (s : string) : bool :=
  match s with
  | EmptyString => true
  | String c s' =>
      (Contains "!$&'()*+,;=:@[]%" c || negb (shouldEscapeIn mode c))
      && validEncoded mode s'
  end.

(** [stringContainsCTLByte] *)
Fixpoint stringContainsCTLByte (s : string) : bool :=
  match s with
  | EmptyString => false
  | String c s' =>
      (byte_of c <? 32) || (byte_of c =? 127) || stringContainsCTLByte s'
  end.

Definition is_letter (c : ascii) : bool :=
  let n := byte_of c in
  ((97 <=? n) && (n <=? 122)) || ((65 <=? n) && (n <=? 90)).

Definition is_digit (c : ascii) : bool :=
  let n := byte_of c in (48 <=? n) && (n <=? 57).

(** The loop of [getScheme] from some byte on ([first] at the byte 0):
    no scheme, the scheme and what follows its colon, or the error of a
    colon at the start. *)
Inductive Scanned :=
| NoScheme
| Found (scheme rest : string)
| ColonFirst.

Fixpoint scan_scheme (s : string) (first : bool) : Scanned :=
  match s with
  | EmptyString => NoScheme
  | String c s' =>
      if is_letter c then
        match scan_scheme s' false with
        | Found scheme rest => Found (String c scheme) rest
        | other => other
        end
      else if is_digit c || Contains "+-." c then
        if first then NoScheme
        else
          match scan_scheme s' false with
          | Found scheme rest => Found (String c scheme) rest
          | other => other
          end
      else if Ascii.eqb c ":" then
        if first then ColonFirst else Found EmptyString s'
      else NoScheme
  end.

(** [getScheme(rawURL)] *)
Definition getScheme (rawURL : string) : (string * string) + ParseError :=
  match scan_scheme rawURL true with
  | NoScheme => inl (EmptyString, rawURL)
  | Found scheme rest => inl (scheme, rest)
  | ColonFirst => inr MissingProtocolScheme
  end.

(** The slashes a string begins with, up to [n] of them. *)
Fixpoint leading (n : nat) (s : string) : nat :=
  match n, s with
  | S n', String c s' => if Ascii.eqb c "/" then S (leading n' s') else O
  | _, _ => O
  end.

(** [strings.HasPrefix(s, "/")], ["//"] and ["///"]: at least one, two,
    three. *)
Definition slashes (s : string) : nat := leading 3 s.

(** [strings.HasSuffix(s, "?")] *)
Fixpoint ends_with (s : string) (c : ascii) : bool :=
  match s with
  | EmptyString => false
  | String d EmptyString => Ascii.eqb d c
  | String _ s' => ends_with s' c
  end.

(** [strings.Count(s, sep)] for a separator of one byte. *)
Fixpoint Count (s : string) (c : ascii) : nat :=
  match s with
  | EmptyString => 0
  | String d s' => (if Ascii.eqb d c then 1 else 0) + Count s' c
  end.

(** [s[:len(s)-1]] *)
Fixpoint drop_last (s : string) : string :=
  match s with
  | EmptyString => EmptyString
  | String _ EmptyString => EmptyString
  | String c s' => String c (drop_last s')
  end.

(** [strings.LastIndex(s, sep)] for a separator of one byte. *)
Fixpoint LastIndex (s : string) (c : ascii) : option nat :=
  match s with
  | EmptyString => None
  | String d s' =>
      match LastIndex s' c with
      | Some i => Some (S i)
      | None => if Ascii.eqb d c then Some O else None
      end
  end.

(** [s[i:]] *)
Fixpoint from (i : nat) (s : string) : string :=
  match i, s with
  | O, _ => s
  | S i', String _ s' => from i' s'
  | S _, EmptyString => EmptyString
  end.

(** [s[:i]] *)
Definition upto (i : nat) (s : string) : string := substring 0 i s.

(** [validOptionalPort] *)
Fixpoint all_digits (s : string) : bool :=
  match s with
  | EmptyString => true
  | String c s' => is_digit c && all_digits s'
  end.

Definition validOptionalPort (port : string) : bool :=
  match port with
  | EmptyString => true
  | String c digits => Ascii.eqb c ":" && all_digits digits
  end.

(** [validUserinfo]: a byte outside ASCII makes a rune that is refused. *)
Fixpoint validUserinfo (s : string) : bool :=
  match s with
  | EmptyString => true
  | String c s' =>
      (is_alnum c || Contains "-._:~!$&'()*+,;=%@" c) && validUserinfo s'
  end.

(** [parseHost] *)
Definition parseHost (host : string) : string + ParseError :=
  let plain := unescape encodeHost host in
  match host with
  | String "[" _ =>
      match LastIndex host "]" with
      | None => inr MissingBracket
      | Some i =>
          let colonPort := from (S i) host in
          if negb (validOptionalPort colonPort) then inr (InvalidPort colonPort)
          else
            match String.index 0 "%25" (upto i host) with
            | Some zone =>
                match unescape encodeHost (upto zone host) with
                | inr e => inr e
                | inl host1 =>
                    match unescape encodeZone (upto (i - zone) (from zone host)) with
                    | inr e => inr e
                    | inl host2 =>
                        match unescape encodeHost (from i host) with
                        | inr e => inr e
                        | inl host3 => inl (host1 +:+ host2 +:+ host3)
                        end
                    end
                end
            | None => plain
            end
      end
  | _ =>
      match LastIndex host ":" with
      | Some i =>
          let colonPort := from i host in
          if negb (validOptionalPort colonPort) then inr (InvalidPort colonPort)
          else plain
      | None => plain
      end
  end.

(** [parseAuthority] *)
Definition parseAuthority (authority : string)
  : (option Userinfo * string) + ParseError :=
  match LastIndex authority "@" with
  | None =>
      match parseHost authority with
      | inr e => inr e
      | inl host => inl (None, host)
      end
  | Some i =>
      match parseHost (from (S i) authority) with
      | inr e => inr e
      | inl host =>
          let userinfo := upto i authority in
          if negb (validUserinfo userinfo) then inr InvalidUserinfo
          else if negb (Contains userinfo ":") then
            match unescape encodeUserPassword userinfo with
            | inr e => inr e
            | inl name => inl (Some (mkUserinfo name EmptyString false), host)
            end
          else
            let '(name, pass) := Cut userinfo ":" in
            match unescape encodeUserPassword name with
            | inr e => inr e
            | inl name =>
                match unescape encodeUserPassword pass with
                | inr e => inr e
                | inl pass => inl (Some (mkUserinfo name pass true), host)
                end
            end
      end
  end.

(** [URL.setPath] *)
Definition setPath (p : string) (u : URL) : URL + ParseError :=
  match unescape encodePath p with
  | inr e => inr e
  | inl path =>
      inl {| Scheme := Scheme u; Opaque := Opaque u; User := User u; Host := Host u;
             Path := path;
             RawPath := if String.eqb p (escape encodePath path)
                        then EmptyString else p;
             OmitHost := OmitHost u; ForceQuery := ForceQuery u;
             RawQuery := RawQuery u;
             Fragment := Fragment u; RawFragment := RawFragment u |}
  end.

(** [URL.setFragment] *)
Definition setFragment (f : string) (u : URL) : URL + ParseError :=
  match unescape encodeFragment f with
  | inr e => inr e
  | inl frag =>
      inl {| Scheme := Scheme u; Opaque := Opaque u; User := User u; Host := Host u;
             Path := Path u; RawPath := RawPath u;
             OmitHost := OmitHost u; ForceQuery := ForceQuery u;
             RawQuery := RawQuery u;
             Fragment := frag;
             RawFragment := if String.eqb f (escape encodeFragment frag)
                            then EmptyString else f |}
  end.

(** [new(URL)] with the scheme and the query that [parse] has found. *)
Definition new_URL (scheme : string) (forceQuery : bool) (rawQuery : string) : URL :=
  {| Scheme := scheme; Opaque := EmptyString; User := None; Host := EmptyString;
     Path := EmptyString; RawPath := EmptyString; OmitHost := false;
     ForceQuery := forceQuery; RawQuery := rawQuery;
     Fragment := EmptyString; RawFragment := EmptyString |}.

Definition set_Opaque (o : string) (u : URL) : URL :=
  {| Scheme := Scheme u; Opaque := o; User := User u; Host := Host u;
     Path := Path u; RawPath := RawPath u; OmitHost := OmitHost u;
     ForceQuery := ForceQuery u; RawQuery := RawQuery u;
     Fragment := Fragment u; RawFragment := RawFragment u |}.

Definition set_authority (user : option Userinfo) (host : string) (u : URL) : URL :=
  {| Scheme := Scheme u; Opaque := Opaque u; User := user; Host := host;
     Path := Path u; RawPath := RawPath u; OmitHost := OmitHost u;
     ForceQuery := ForceQuery u; RawQuery := RawQuery u;
     Fragment := Fragment u; RawFragment := RawFragment u |}.

Definition set_OmitHost (b : bool) (u : URL) : URL :=
  {| Scheme := Scheme u; Opaque := Opaque u; User := User u; Host := Host u;
     Path := Path u; RawPath := RawPath u; OmitHost := b;
     ForceQuery := ForceQuery u; RawQuery := RawQuery u;
     Fragment := Fragment u; RawFragment := RawFragment u |}.

(** The query cut off what follows the scheme: [ForceQuery] for a lone
    question mark at the end, otherwise what follows the first one. *)
Definition cut_query (rest : string) : string * bool * string :=
  if ends_with rest "?" && Nat.eqb (Count rest "?") 1
  then (drop_last rest, true, EmptyString)
  else let '(a, b) := Cut rest "?" in (a, false, b).

(** [authority, rest = rest[2:], ""] and the cut at the first slash. *)
Definition cut_authority (after : string) : string * string :=
  if Contains after "/"
  then let '(a, b) := Cut after "/" in (a, String "/" b)
  else (after, EmptyString).

(** [parse(rawURL, false)] *)
Definition parse (rawURL : string) : URL + ParseError :=
  if stringContainsCTLByte rawURL then inr InvalidControlCharacter
  else if String.eqb rawURL "*" then
    inl (set_Path "*" (new_URL EmptyString false EmptyString))
  else
    match getScheme rawURL with
    | inr e => inr e
    | inl (scheme, rest) =>
        let scheme := map_bytes lower_byte scheme in
        let '(rest, forceQuery, rawQuery) := cut_query rest in
        let url := new_URL scheme forceQuery rawQuery in
        let rootless := Nat.eqb (slashes rest) 0 in
        if rootless && negb (String.eqb scheme EmptyString)
        then inl (set_Opaque rest url)
        else if rootless && Contains (fst (Cut rest "/")) ":"
        then inr ColonInFirstSegment
        else if (negb (String.eqb scheme EmptyString)
                 || negb (Nat.eqb (slashes rest) 3))
                && Nat.leb 2 (slashes rest)
        then
          let '(authority, rest) := cut_authority (from 2 rest) in
          match parseAuthority authority with
          | inr e => inr e
          | inl (user, host) => setPath rest (set_authority user host url)
          end
        else if negb (String.eqb scheme EmptyString) && Nat.leb 1 (slashes rest)
        then setPath rest (set_OmitHost true url)
        else setPath rest url
    end.

(** [url.Parse] *)
Definition Parse (rawURL : string) : URL + ParseError :=
  let '(u, frag) := Cut rawURL "#" in
  match parse u with
  | inr e => inr e
  | inl url =>
      if String.eqb frag EmptyString then inl url else setFragment frag url
  end.

(** [Userinfo.String] *)
Definition Userinfo_String (ui : Userinfo) : string :=
  escape encodeUserPassword (username ui)
  +:+ (if passwordSet ui
       then ":" +:+ escape encodeUserPassword (password ui)
       else EmptyString).

(** [URL.EscapedPath] *)
Definition EscapedPath (u : URL) : string :=
  let escaped :=
    if String.eqb (Path u) "*" then "*" else escape encodePath (Path u) in
  if negb (String.eqb (RawPath u) EmptyString)
     && validEncoded encodePath (RawPath u)
  then
    match unescape encodePath (RawPath u) with
    | inl p => if String.eqb p (Path u) then RawPath u else escaped
    | inr _ => escaped
    end
  else escaped.

(** [URL.EscapedFragment] *)
Definition EscapedFragment (u : URL) : string :=
  let escaped := escape encodeFragment (Fragment u) in
  if negb (String.eqb (RawFragment u) EmptyString)
     && validEncoded encodeFragment (RawFragment u)
  then
    match unescape encodeFragment (RawFragment u) with
    | inl f => if String.eqb f (Fragment u) then RawFragment u else escaped
    | inr _ => escaped
    end
  else escaped.

Definition nonempty (s : string) : bool := negb (String.eqb s EmptyString).

Definition has_user (u : URL) : bool :=
  match User u with Some _ => true | None => false end.

(** What [URL.String] writes between the scheme and the path: the two
    slashes, the user and the host. *)
Definition authority_written (u : URL) : string :=
  if nonempty (Scheme u) || nonempty (Host u) || has_user u then
    if OmitHost u && negb (nonempty (Host u)) && negb (has_user u)
    then EmptyString
    else
      (if nonempty (Host u) || nonempty (Path u) || has_user u
       then "//" else EmptyString)
      +:+ match User u with
          | Some ui => Userinfo_String ui +:+ "@"
          | None => EmptyString
          end
      +:+ (if nonempty (Host u) then escape encodeHost (Host u) else EmptyString)
  else EmptyString.

Definition scheme_written (u : URL) : string :=
  if nonempty (Scheme u) then Scheme u +:+ ":" else EmptyString.

(** The path as [URL.String] writes it, after [so_far]: with a slash
    before a path that does not begin with one when there is a host, and
    with a dot segment before a first segment with a colon when nothing
    has been written yet. *)
Definition path_written (u : URL) (so_far : string) : string :=
  let path := EscapedPath u in
  let slash :=
    match path with
    | String c _ =>
        if negb (Ascii.eqb c "/") && nonempty (Host u) then "/" else EmptyString
    | EmptyString => EmptyString
    end in
  let dot :=
    if String.eqb (so_far +:+ slash) EmptyString
       && Contains (fst (Cut path "/")) ":"
    then "./" else EmptyString in
  slash +:+ dot +:+ path.

(** [URL.String] *)
Definition URL_string (u : URL) : string :=
  let head :=
    if nonempty (Opaque u) then scheme_written u +:+ Opaque u
    else
      let so_far := scheme_written u +:+ authority_written u in
      so_far +:+ path_written u so_far in
  head
  +:+ (if ForceQuery u || nonempty (RawQuery u)
       then "?" +:+ RawQuery u else EmptyString)
  +:+ (if nonempty (Fragment u)
       then "#" +:+ EscapedFragment u else EmptyString).

End net_url.

Import net_url.

(** ** Errors, HTTP responses, and the world outside the process *)

(** A Go [error], by its message; [nil] is [None]. *)
Definition error := string.

(** What reading [response.Body] to its end gives: the bytes received, and
    the error that stopped the reading when it was not the end of the
    stream. *)
Record Body := mkBody {
  data : string;
  read_err : option error
}.

Record Response := mkResponse {
  Header : list (string * list string);
  body : Body
}.

(** The pairs of a response pointer and an error that [client.Get] returns: a
    response and no error; no response and an error; or, when a redirect
    policy fails, both. *)
Inductive GetResult :=
| GetOk (r : Response)
| GetFailed (e : error)
| GetRedirectFailed (r : Response) (e : error).

Definition response_of (g : GetResult) : option Response :=
  match g with
  | GetOk r | GetRedirectFailed r _ => Some r
  | GetFailed _ => None
  end.

Definition err_of (g : GetResult) : option error :=
  match g with
  | GetOk _ => None
  | GetFailed e | GetRedirectFailed _ e => Some e
  end.

(** [io.ReadAll] / [ioutil.ReadAll]. *)
Definition ReadAll (b : Body) : string * option error := (data b, read_err b).

(** The two fields of [QDocRoot] that [Login] reads after decoding. *)
Record QDocRoot := mkQDocRoot {
  AuthPassed : Z;
  AuthSid : string
}.

(** The collaborators outside the process.  [J] is the type the JSON
    decoder fills.  The HTTP server and the clock are indexed by the number
    of earlier requests, respectively readings, so that they may answer
    differently each time.

    [body_Read] is how a body comes out of [response.Body.Read(p)] with a
    buffer [p] of four bytes: the pieces [string(p[:n])] of the calls that
    return a nil error, in order, and the piece of the call that returns
    the error which ends the reading, [io.EOF] included (a reader may hand
    out the last bytes together with [io.EOF], or the empty piece after
    them).

    [writer_Write] is what the [http.ResponseWriter] of the caller does
    with the bytes it is offered, write after write: [None] when it takes
    them all, [Some (n, err)] when a write fails with [err] (or comes out
    short, [io.ErrShortWrite]) after [n] of them were taken. *)
Record Env (J : Type) := mkEnv {
  url_Parse : string -> URL + error;
  URL_String : URL -> string;
  client_Get : nat -> string -> GetResult;
  time_Now_Unix : nat -> Z;
  xml_Unmarshal : string -> QDocRoot * option error;
  json_Unmarshal : string -> J * option error;
  body_Read : Body -> list string * string;
  writer_Write : string -> option (nat * error)
}.

Arguments url_Parse {J} _ _.
Arguments URL_String {J} _ _.
Arguments client_Get {J} _ _ _.
Arguments time_Now_Unix {J} _ _.
Arguments xml_Unmarshal {J} _ _.
Arguments json_Unmarshal {J} _ _.
Arguments body_Read {J} _ _.
Arguments writer_Write {J} _ _.

(** What the process does that can be observed from outside. *)
Inductive Event :=
| EvLog (line : string)                 (* a line given to package log *)
| EvGet (u : URL)                       (* client.Get(u.String()) *)
| EvPrint (line : string)               (* fmt.Println to standard output *)
| EvSetHeader (key value : string)      (* writer.Header().Set(key, value) *)
| EvWrite (bytes : string).             (* bytes copied into the writer *)

(** The state a method runs in: the connection it is called on (the
    package hands out one shared connection), the events so far, and how
    often the server and the clock have been asked. *)
Record World (C : Type) := mkWorld {
  conn : C;
  trace : list Event;
  requests : nat;
  clock_reads : nat
}.

Arguments mkWorld {C} _ _ _ _.
Arguments conn {C} _.
Arguments trace {C} _.
Arguments requests {C} _.
Arguments clock_reads {C} _.

(** How a call ends: it returns, it panics, or it ends the process. *)
Inductive Outcome (A : Type) :=
| Ret (a : A)
| Panic (msg : string)
| Exit (code : Z).

Arguments Ret {A} _.
Arguments Panic {A} _.
Arguments Exit {A} _.

Definition M (C A : Type) : Type := World C -> Outcome A * World C.

Section Effects.
Context {J C : Type} (E : Env J).

Definition ret {A} (a : A) : M C A := fun w => (Ret a, w).

Definition bind {A B} (m : M C A) (k : A -> M C B) : M C B :=
  fun w =>
    match m w with
    | (Ret a, w') => k a w'
    | (Panic msg, w') => (Panic msg, w')
    | (Exit code, w') => (Exit code, w')
    end.

Definition panic {A} (msg : string) : M C A := fun w => (Panic msg, w).

Definition os_Exit {A} (code : Z) : M C A := fun w => (Exit code, w).

Definition emit (e : Event) : M C unit :=
  fun w => (Ret tt, mkWorld (conn w) (trace w ++ [e]) (requests w) (clock_reads w)).

Definition log_Print (line : string) : M C unit := emit (EvLog line).

Definition fmt_Println (line : string) : M C unit := emit (EvPrint line).

Definition get_conn : M C C := fun w => (Ret (conn w), w).

Definition put_conn (c : C) : M C unit :=
  fun w => (Ret tt, mkWorld c (trace w) (requests w) (clock_reads w)).

(** [time.Now().Unix()] *)
Definition time_Now : M C Z :=
  fun w => (Ret (time_Now_Unix E (clock_reads w)),
            mkWorld (conn w) (trace w) (requests w) (S (clock_reads w))).

(** [client.Get(u.String())] *)
Definition http_Get (u : URL) : M C GetResult :=
  fun w => (Ret (client_Get E (requests w) (URL_String E u)),
            mkWorld (conn w) (trace w ++ [EvGet u]) (S (requests w)) (clock_reads w)).

(** Reading a field through a response pointer that may be nil. *)
Definition deref (g : GetResult) : M C Response :=
  match response_of g with
  | Some r => ret r
  | None => panic "invalid memory address or nil pointer dereference"
  end.

(** [v[i]] on a slice. *)
Definition index {A} (v : list A) (i : nat) : M C A :=
  match nth_error v i with
  | Some x => ret x
  | None => panic "index out of range"
  end.

End Effects.

Notation "x <- m ;; k" := (bind m (fun x => k))
  (at level 100, m at next level, right associativity).
Notation "m ;;; k" := (bind m (fun _ => k))
  (at level 100, right associativity).

(** [log.Println(a, b)] puts a blank between its operands. *)
Definition Println2 (a b : string) : string := a +:+ " " +:+ b.

Definition info (rawurl : string) : string := "[INFO] " +:+ rawurl.

(** ** The table of remote error codes

    [Create] fills the package variable [errorCodes] once, before it hands
    out the connection; this is the table every method call sees. *)
Definition errorCodes : gmap Z string :=
  <[convertHexToInt "0x93000005" := "Auth failed"]>
  (<[convertHexToInt "0x93000004" := "Failed to start the stream"]>
  (<[convertHexToInt "0x93000003" := "Stream not ready"]>
  (<[convertHexToInt "0x93000002" := "Exceeded Max Connection number"]>
  (<[convertHexToInt "0x93000001" := "Rejected Connection (DDOS)"]>
  (<[convertHexToInt "0x93000000" := "Illegal Args"]>
  (<[convertHexToInt "0x93010004" := "insufficient memory"]>
  (<[convertHexToInt "0x93010003" := "cmd is illegal"]>
  (<[convertHexToInt "0x93010204" := "no files found"]>
  (<[convertHexToInt "0x93010203" := "session is being closed"]>
  (<[convertHexToInt "0x93010202" := "session not found"]>
  (<[convertHexToInt "0x93010201" := "failed to control stream"]>
  (<[convertHexToInt "0x9301010B" := "enable not specified"]>
  (<[convertHexToInt "0x93010109" := "speed_num not specified"]>
  (<[convertHexToInt "0x93010108" := "session_id too long"]>
  (<[convertHexToInt "0x93010107" := "seek_time not specified"]>
  (<[convertHexToInt "0x93010104" := "session_id not specified"]>
  (<[convertHexToInt "0x93010103" := "channel_id not specified"]>
  (<[convertHexToInt "0x93010102" := "start_time, end_time or time_val not specified"]>
  (<[convertHexToInt "0x93010007" := "failed to open session (session num full)"]>
  (<[convertHexToInt "0x93010006" := "sid authentication failed"]>
  (<[convertHexToInt "0x93010002" := "failed to open play session"]>
   ∅))))))))))))))))))))).

Definition apiVersion : string := "1.2.0".
Definition apiPlayVersion : string := "v1".


(** The literal [{"Not":"Finished"}] both streaming stubs return. *)
Definition dq : string := String (ascii_of_N 34) EmptyString.
Definition not_finished : string :=
  "{" +:+ dq +:+ "Not" +:+ dq +:+ ":" +:+ dq +:+ "Finished" +:+ dq +:+ "}".

(** A body cut into pieces of four bytes and a rest of one to three. *)
Fixpoint chunks4 (s : string) : list string :=
  match s with
  | String a (String b (String c (String d rest))) =>
      String a (String b (String c (String d EmptyString))) :: chunks4 rest
  | EmptyString => []
  | _ => [s]
  end.

(** ** The first client: [src/qvrpro.go] *)

Module QvrPro.

Record Connection := mkConnection {
  url : string;
  sid : string;
  expire : Z;
  timeout : Z
}.

Definition set_sid (s : string) (c : Connection) : Connection :=
  {| url := url c; sid := s; expire := expire c; timeout := timeout c |}.

Definition set_expire (e : Z) (c : Connection) : Connection :=
  {| url := url c; sid := sid c; expire := e; timeout := timeout c |}.

Definition qvrPlayPath : string := "/qvrpro/apis/qplay.cgi".

(** The connection [Create] builds the first time it is called. *)
Definition Create (url : string) (timeout : Z) : Connection :=
  {| url := url; sid := EmptyString; expire := 0; timeout := timeout |}.

Record QvrProLogEntry := mkQvrProLogEntry {
  UTCTime : Z;
  UTCTimeS : string;
  Content : string;
  Level : Z;
  LogID : Z;
  LogType : Z;
  NasIP : string;
  NasName : string;
  ServerTime : Z;
  SourceIP : string;
  SourceName : string;
  Time : string;
  Timezone : string;
  TimezoneOrder : Z;
  User : string;
  Action : string;
  Args : list string;
  ChannelID : Z;
  EventID : Z;
  GlobalChannelID : string;
  MainType : Z;
  SubType : Z;
  SubTypeOrder : Z
}.

Record QvrProLogsResponse := mkQvrProLogsResponse {
  Code : Z;
  Items : list QvrProLogEntry;
  Mesg : string;
  ResponseItems : Z;
  TotalItems : Z
}.

Definition AllLogType : Z := 0.

Section Methods.
Context (E : Env QvrProLogsResponse).

Local Abbreviation Go := (M Connection).

Definition Logout : Go unit :=
  connection <- get_conn ;;
  (match url_Parse E (url connection) with
   | inr err => log_Print (Println2 "Malformed URL: " err)
   | inl baseUrl =>
       let baseUrl := set_Path "/cgi-bin/authLogin.cgi" baseUrl in
       let params := Add "sid" (sid connection) (Add "logout" "1" ∅) in
       let baseUrl := set_RawQuery (Encode params) baseUrl in
       g <- http_Get E baseUrl ;;
       match err_of g with
       | Some err => log_Print err
       | None => ret tt
       end
   end) ;;;
  connection <- get_conn ;;
  put_conn (set_expire 0 connection) ;;;
  connection <- get_conn ;;
  put_conn (set_sid EmptyString connection).

(** [len(connection.sid) > 0 && connection.expire > time.Now().Unix()];
    the clock is read only when the first operand holds. *)
Definition session_valid : Go bool :=
  connection <- get_conn ;;
  if 0 <? Z.of_nat (String.length (sid connection)) then
    now <- time_Now E ;;
    ret (now <? expire connection)
  else ret false.

Definition Login (user password : string) : Go bool :=
  valid <- session_valid ;;
  if valid then ret true
  else
    connection <- get_conn ;;
    match url_Parse E (url connection) with
    | inr err =>
        log_Print (Println2 "Malformed URL: " err) ;;;
        Logout ;;;
        ret false
    | inl baseUrl =>
        let baseUrl := set_Path "/cgi-bin/authLogin.cgi" baseUrl in
        let params :=
          Add "user" user (Add "pwd" password (Add "serviceKey" "1" ∅)) in
        let baseUrl := set_RawQuery (Encode params) baseUrl in
        log_Print (info (URL_String E baseUrl)) ;;;
        g <- http_Get E baseUrl ;;
        match err_of g with
        | Some err =>
            log_Print (Println2 "Get Failed: " err) ;;;
            Logout ;;;
            ret false
        | None =>
            response <- deref g ;;
            let '(body, err) := ReadAll (body response) in
            match err with
            | Some err =>
                log_Print err ;;;
                log_Print body ;;;
                Logout ;;;
                ret false
            | None =>
                log_Print body ;;;
                let '(qdoc, err) := xml_Unmarshal E body in
                match err with
                | Some err =>
                    log_Print err ;;;
                    log_Print body ;;;
                    Logout ;;;
                    ret false
                | None =>
                    (if negb (AuthPassed qdoc =? 0) then
                       connection <- get_conn ;;
                       put_conn (set_sid (AuthSid qdoc) connection) ;;;
                       now <- time_Now E ;;
                       connection <- get_conn ;;
                       put_conn
                         (set_expire (to_int64 (now + timeout connection))
                            connection)
                     else log_Print "Auth Failed") ;;;
                    ret (negb (AuthPassed qdoc =? 0))
                end
            end
        end
    end.

(** In the source the results of [client.Get] and [ReadAll] and the
    error made from the table's message are bound to [err] variables
    declared with [:=] inside the nested blocks; the [err] of the final
    [return] is the one [url.Parse] set, written [err] below. *)
Definition CreateSessionId (channelId : string) (startTime : Z)
  : Go (string * option error) :=
  connection <- get_conn ;;
  match url_Parse E (url connection) with
  | inr err => ret (EmptyString, Some err)
  | inl baseUrl =>
      let err : option error := None in
      let baseUrl := set_Path qvrPlayPath baseUrl in
      let params :=
        Add "data_type" "0" (Add "stream" "0" (Add "recording_type" "0"
        (Add "query_type" "0" (Add "start_time" (Itoa startTime)
        (Add "ch_sid" channelId (Add "ver" "v1"
        (Add "sid" (sid connection) (Add "cmd" "open" ∅)))))))) in
      let baseUrl := set_RawQuery (Encode params) baseUrl in
      log_Print (info (URL_String E baseUrl)) ;;;
      g <- http_Get E baseUrl ;;
      match err_of g with
      | None =>
          response <- deref g ;;
          let '(bodyText, err') := ReadAll (body response) in
          match err' with
          | None =>
              let v := strings_Split bodyText newline in
              v1 <- index v 1 ;;
              let '(code, _) := Atoi v1 in
              if code =? 0 then
                v2 <- index v 2 ;;
                ret (v2, None)
              else
                match errorCodes !! code with
                | Some message =>
                    log_Print message ;;;
                    ret (EmptyString, err)
                | None => ret (EmptyString, err)
                end
          | Some err' =>
              log_Print err' ;;;
              ret (EmptyString, err)
          end
      | Some err' =>
          log_Print err' ;;;
          ret (EmptyString, err)
      end
  end.

(** The status line shared by the seek and play steps. *)
Definition status_line (log_message : bool) (bodyText : string)
  : Go (bool * option error) :=
  let v := strings_Split bodyText newline in
  v1 <- index v 1 ;;
  let '(code, _) := Atoi v1 in
  if negb (code =? 0) then
    match errorCodes !! code with
    | Some message =>
        (if log_message then log_Print message else ret tt) ;;;
        ret (false, Some message)
    | None => ret (code =? 0, None)
    end
  else ret (code =? 0, None).

Definition PlaySeek (sessionId : string) (seekTime : Z)
  : Go (bool * option error) :=
  connection <- get_conn ;;
  match url_Parse E (url connection) with
  | inr err =>
      log_Print (Println2 "Malformed URL: " err) ;;;
      ret (false, Some err)
  | inl baseUrl =>
      let baseUrl := set_Path qvrPlayPath baseUrl in
      let params :=
        Add "seek_time" (Itoa seekTime) (Add "session" sessionId
        (Add "ver" apiPlayVersion (Add "sid" (sid connection)
        (Add "cmd" "seek" ∅)))) in
      let baseUrl := set_RawQuery (Encode params) baseUrl in
      log_Print (info (URL_String E baseUrl)) ;;;
      g <- http_Get E baseUrl ;;
      response <- deref g ;;
      let '(bodyText, _) := ReadAll (body response) in
      status_line false bodyText
  end.

Definition play (sessionId : string) : Go (bool * option error) :=
  connection <- get_conn ;;
  match url_Parse E (url connection) with
  | inr err =>
      log_Print (Println2 "Malformed URL: " err) ;;;
      ret (false, Some err)
  | inl baseUrl =>
      let baseUrl := set_Path qvrPlayPath baseUrl in
      let params :=
        Add "session" sessionId (Add "ver" apiPlayVersion
        (Add "sid" (sid connection) (Add "cmd" "play" ∅))) in
      let baseUrl := set_RawQuery (Encode params) baseUrl in
      log_Print (info (URL_String E baseUrl)) ;;;
      g <- http_Get E baseUrl ;;
      response <- deref g ;;
      let '(bodyText, _) := ReadAll (body response) in
      status_line true bodyText
  end.

(** The loop that prints the body as it is read, four bytes at most at a
    time: [l] are the pieces read with a nil error, [last] is the piece
    that came with the error [e] that ends the reading.  At [io.EOF]
    (here [None]) the loop prints [string(p[:n])], the last piece, and
    stops; at any other error it prints the error and ends the process. *)
Fixpoint print_chunks (l : list string) (last : string) (e : option error)
  : Go unit :=
  match l with
  | x :: l' => fmt_Println x ;;; print_chunks l' last e
  | [] =>
      match e with
      | None => fmt_Println last
      | Some err => fmt_Println err ;;; os_Exit 1
      end
  end.

(** The loop on the body of a response. *)
Definition print_body (b : Body) : Go unit :=
  print_chunks (fst (body_Read E b)) (snd (body_Read E b)) (read_err b).

Definition PlayGet (sessionId : string) : Go bool :=
  connection <- get_conn ;;
  match url_Parse E (url connection) with
  | inr err =>
      log_Print (Println2 "Malformed URL: " err) ;;;
      ret false
  | inl baseUrl =>
      let baseUrl := set_Path qvrPlayPath baseUrl in
      let params :=
        Add "session" sessionId (Add "ver" apiPlayVersion
        (Add "sid" (sid connection) (Add "cmd" "get" ∅))) in
      let baseUrl := set_RawQuery (Encode params) baseUrl in
      log_Print (info (URL_String E baseUrl)) ;;;
      g <- http_Get E baseUrl ;;
      response <- deref g ;;
      print_body (body response) ;;;
      ret true
  end.

Definition Video (channelId : string) (seekTime : Z)
  : Go (option string * option error) :=
  r <- CreateSessionId channelId seekTime ;;
  let '(sessionId, err) := r in
  if Z.of_nat (String.length sessionId) =? 0 then ret (None, err)
  else
    r <- PlaySeek sessionId seekTime ;;
    let '(success, err) := r in
    if negb success then ret (None, err)
    else
      r <- play sessionId ;;
      let '(success, err) := r in
      if negb success then ret (None, err)
      else
        success <- PlayGet sessionId ;;
        if negb success then ret (None, Some "unable to get play data")
        else ret (Some not_finished, None).

Definition Logs_params (sid : string) (logType start maxResults : Z) : Values :=
  let params := Add "sid" sid ∅ in
  let params :=
    if negb (AllLogType =? logType)
    then Add "log_type" (Itoa (to_int64 logType)) params else params in
  let params := Add "start" (Itoa (to_int64 start)) params in
  Add "max_results" (Itoa (to_int64 maxResults)) params.

Definition Logs (logType start maxResults : Z) : Go (list QvrProLogEntry) :=
  let qvrProLogEntry : list QvrProLogEntry := [] in
  connection <- get_conn ;;
  match url_Parse E (url connection) with
  | inr err => ret qvrProLogEntry
  | inl baseUrl =>
      let baseUrl := set_Path "/qvrpro/logs/logs" baseUrl in
      let params := Logs_params (sid connection) logType start maxResults in
      let baseUrl := set_RawQuery (Encode params) baseUrl in
      log_Print (info (URL_String E baseUrl)) ;;;
      g <- http_Get E baseUrl ;;
      response <- deref g ;;
      let '(body, _) := ReadAll (body response) in
      let '(qvrResponse, err) := json_Unmarshal E body in
      match err with
      | Some _ => ret qvrProLogEntry
      | None => ret (Items qvrResponse)
      end
  end.

Definition CameraList : Go (option string * option error) :=
  connection <- get_conn ;;
  match url_Parse E (url connection) with
  | inr err => ret (None, Some err)
  | inl baseUrl =>
      let baseUrl := set_Path "/qvrpro/camera/list" baseUrl in
      let params := Add "ver" apiVersion (Add "sid" (sid connection) ∅) in
      let baseUrl := set_RawQuery (Encode params) baseUrl in
      log_Print (info (URL_String E baseUrl)) ;;;
      g <- http_Get E baseUrl ;;
      match err_of g with
      | Some err => ret (None, Some err)
      | None =>
          response <- deref g ;;
          let '(body, err) := ReadAll (body response) in
          match err with
          | Some err => ret (None, Some err)
          | None => ret (Some body, None)
          end
      end
  end.

(** The error of [client.Get] is overwritten by that of [ReadAll] without
    having been looked at. *)
Definition CameraCapability : Go (option string * option error) :=
  connection <- get_conn ;;
  match url_Parse E (url connection) with
  | inr err => ret (None, Some err)
  | inl baseUrl =>
      let baseUrl := set_Path "/qvrpro/camera/capability" baseUrl in
      let params :=
        Add "act" "get_camera_capability"
          (Add "ver" apiVersion (Add "sid" (sid connection) ∅)) in
      let baseUrl := set_RawQuery (Encode params) baseUrl in
      log_Print (info (URL_String E baseUrl)) ;;;
      g <- http_Get E baseUrl ;;
      response <- deref g ;;
      let '(body, err) := ReadAll (body response) in
      match err with
      | Some err => ret (None, Some err)
      | None => ret (Some body, None)
      end
  end.

Definition LiveStream (channelId streamId : string)
  : Go (option string * option error) :=
  connection <- get_conn ;;
  match url_Parse E (url connection) with
  | inr err => ret (None, Some err)
  | inl baseUrl =>
      let baseUrl := set_Path "/qvrpro/streaming/getstream.cgi" baseUrl in
      let params :=
        Add "stream_id" streamId
          (Add "ch_sid" channelId (Add "sid" (sid connection) ∅)) in
      let baseUrl := set_RawQuery (Encode params) baseUrl in
      log_Print (info (URL_String E baseUrl)) ;;;
      g <- http_Get E baseUrl ;;
      response <- deref g ;;
      print_body (body response) ;;;
      ret (Some not_finished, None)
  end.

(** The error of [ReadAll] is dropped: [body, _ := ioutil.ReadAll(...)]. *)
Definition CameraSnapshot (channelId : string) (imageTs : Z)
  : Go (option string * option error) :=
  connection <- get_conn ;;
  match url_Parse E (url connection) with
  | inr err => ret (None, Some err)
  | inl baseUrl =>
      let baseUrl := set_Path ("/qvrpro/camera/snapshot/" +:+ channelId) baseUrl in
      let params :=
        Add "ts" (Itoa imageTs)
          (Add "ver" apiVersion (Add "sid" (sid connection) ∅)) in
      let baseUrl := set_RawQuery (Encode params) baseUrl in
      log_Print (info (URL_String E baseUrl)) ;;;
      g <- http_Get E baseUrl ;;
      match err_of g with
      | Some err => ret (None, Some err)
      | None =>
          response <- deref g ;;
          let '(body, _) := ReadAll (body response) in
          ret (Some body, None)
      end
  end.

End Methods.

End QvrPro.

(** ** The later client, with the application selector *)

Module QvrApp.

Definition QvrApplication := string.

Definition QvrPro : QvrApplication := "qvrpro".
Definition QvrElite : QvrApplication := "qvrelite".
Definition QvrUnknown : QvrApplication := "unknown".

(** [QvrApplicationParse]: the switch on [strings.ToLower(app)]. *)
Definition QvrApplicationParse (Map_ToLower : string -> string) (app : string)
  : QvrApplication :=
  let lowered := strings_ToLower Map_ToLower app in
  if String.eqb lowered "qvrpro" then QvrPro
  else if String.eqb lowered "qvrelite" then QvrElite
  else QvrUnknown.

Record Connection := mkConnection {
  url : string;
  sid : string;
  expire : Z;
  timeout : Z;
  qvrApp : QvrApplication
}.

Definition set_sid (s : string) (c : Connection) : Connection :=
  {| url := url c; sid := s; expire := expire c; timeout := timeout c;
     qvrApp := qvrApp c |}.

Definition set_expire (e : Z) (c : Connection) : Connection :=
  {| url := url c; sid := sid c; expire := e; timeout := timeout c;
     qvrApp := qvrApp c |}.

(** The connection [Create] builds the first time it is called. *)
Definition Create (url : string) (qvrApp : QvrApplication) (timeout : Z)
  : Connection :=
  {| url := url; sid := EmptyString; expire := 0; timeout := timeout;
     qvrApp := qvrApp |}.

Definition PlayPath (connection : Connection) : string :=
  "/" +:+ qvrApp connection +:+ "/apis/qplay.cgi".

Definition LogsPath (connection : Connection) : string :=
  "/" +:+ qvrApp connection +:+ "/logs/logs".

Definition StreamsPath (connection : Connection) : string :=
  "/" +:+ qvrApp connection +:+ "/streaming/getstream.cgi".

Definition CameraListPath (connection : Connection) : string :=
  "/" +:+ qvrApp connection +:+ "/camera/list".

Definition CameraCapabilityPath (connection : Connection) : string :=
  "/" +:+ qvrApp connection +:+ "/camera/capability".

Definition CameraSnapshotPath (connection : Connection) (channelId : string)
  : string :=
  "/" +:+ qvrApp connection +:+ "/camera/snapshot/" +:+ channelId.

Record LogEntry := mkLogEntry {
  UTCTime : Z;
  UTCTimeS : string;
  Content : string;
  Level : Z;
  LogID : Z;
  LogType : Z;
  NasIP : string;
  NasName : string;
  ServerTime : Z;
  SourceIP : string;
  SourceName : string;
  Time : string;
  Timezone : string;
  TimezoneOrder : Z;
  User : string;
  Action : string;
  Args : list string;
  ChannelID : Z;
  EventID : Z;
  GlobalChannelID : string;
  MainType : Z;
  SubType : Z;
  SubTypeOrder : Z;
  Application : QvrApplication
}.

(** [entry.Application = app] *)
Definition set_Application (app : QvrApplication) (e : LogEntry) : LogEntry :=
  {| UTCTime := UTCTime e; UTCTimeS := UTCTimeS e; Content := Content e;
     Level := Level e; LogID := LogID e; LogType := LogType e;
     NasIP := NasIP e; NasName := NasName e; ServerTime := ServerTime e;
     SourceIP := SourceIP e; SourceName := SourceName e; Time := Time e;
     Timezone := Timezone e; TimezoneOrder := TimezoneOrder e;
     User := User e; Action := Action e; Args := Args e;
     ChannelID := ChannelID e; EventID := EventID e;
     GlobalChannelID := GlobalChannelID e; MainType := MainType e;
     SubType := SubType e; SubTypeOrder := SubTypeOrder e;
     Application := app |}.

Record LogsResponse := mkLogsResponse {
  Code : Z;
  Items : list LogEntry;
  Mesg : string;
  ResponseItems : Z;
  TotalItems : Z
}.

Definition AllLogType : Z := 0.
Definition DataTypeJPeg : Z := 0.
Definition DataTypeSource : Z := 1.

Section Methods.
Context (E : Env LogsResponse).

Local Abbreviation Go := (M Connection).

(** The deferred [Body.Close()] takes [response.Body] as its argument,
    which is evaluated where the [defer] statement stands; the close
    itself has no effect the client observes. *)
Definition defer_Close (g : GetResult) : Go unit :=
  response <- deref g ;; ret tt.

Definition Logout : Go unit :=
  connection <- get_conn ;;
  (match url_Parse E (url connection) with
   | inr err => log_Print (Println2 "Malformed URL: " err)
   | inl baseUrl =>
       let baseUrl := set_Path "/cgi-bin/authLogin.cgi" baseUrl in
       let params := Add "sid" (sid connection) (Add "logout" "1" ∅) in
       let baseUrl := set_RawQuery (Encode params) baseUrl in
       log_Print (info (URL_String E baseUrl)) ;;;
       g <- http_Get E baseUrl ;;
       (match err_of g with
        | Some err => log_Print err
        | None => ret tt
        end) ;;;
       defer_Close g
   end) ;;;
  connection <- get_conn ;;
  put_conn (set_expire 0 connection) ;;;
  connection <- get_conn ;;
  put_conn (set_sid EmptyString connection).

(** [len(connection.sid) > 0 && connection.expire > time.Now().Unix()];
    the clock is read only when the first operand holds. *)
Definition session_valid : Go bool :=
  connection <- get_conn ;;
  if 0 <? Z.of_nat (String.length (sid connection)) then
    now <- time_Now E ;;
    ret (now <? expire connection)
  else ret false.

Definition Login (user password : string) : Go bool :=
  valid <- session_valid ;;
  if valid then ret true
  else
    connection <- get_conn ;;
    match url_Parse E (url connection) with
    | inr err =>
        log_Print (Println2 "Malformed URL: " err) ;;;
        Logout ;;;
        ret false
    | inl baseUrl =>
        let baseUrl := set_Path "/cgi-bin/authLogin.cgi" baseUrl in
        let params :=
          Add "user" user (Add "pwd" password (Add "serviceKey" "1" ∅)) in
        let baseUrl := set_RawQuery (Encode params) baseUrl in
        log_Print (info (URL_String E baseUrl)) ;;;
        g <- http_Get E baseUrl ;;
        match err_of g with
        | Some err =>
            log_Print (Println2 "Get Failed: " err) ;;;
            Logout ;;;
            ret false
        | None =>
            defer_Close g ;;;
            response <- deref g ;;
            let '(body, err) := ReadAll (body response) in
            match err with
            | Some err =>
                log_Print err ;;;
                log_Print body ;;;
                Logout ;;;
                ret false
            | None =>
                log_Print body ;;;
                let '(qdoc, err) := xml_Unmarshal E body in
                match err with
                | Some err =>
                    log_Print err ;;;
                    log_Print body ;;;
                    Logout ;;;
                    ret false
                | None =>
                    (if negb (AuthPassed qdoc =? 0) then
                       connection <- get_conn ;;
                       put_conn (set_sid (AuthSid qdoc) connection) ;;;
                       now <- time_Now E ;;
                       connection <- get_conn ;;
                       put_conn
                         (set_expire (to_int64 (now + timeout connection))
                            connection)
                     else log_Print "Auth Failed") ;;;
                    ret (negb (AuthPassed qdoc =? 0))
                end
            end
        end
    end.

(** As in the first client, the [err] of the final [return] is the one
    [url.Parse] set: the errors of the nested blocks are bound to
    variables of their own. *)
Definition CreateSessionId (channelId : string) (startTime : Z)
  : Go (string * option error) :=
  connection <- get_conn ;;
  match url_Parse E (url connection) with
  | inr err => ret (EmptyString, Some err)
  | inl baseUrl =>
      let err : option error := None in
      let baseUrl := set_Path (PlayPath connection) baseUrl in
      let params :=
        Add "data_type" "0" (Add "stream" "0" (Add "recording_type" "0"
        (Add "query_type" "0" (Add "start_time" (Itoa startTime)
        (Add "ch_sid" channelId (Add "ver" "v1"
        (Add "sid" (sid connection) (Add "cmd" "open" ∅)))))))) in
      let baseUrl := set_RawQuery (Encode params) baseUrl in
      log_Print (info (URL_String E baseUrl)) ;;;
      g <- http_Get E baseUrl ;;
      match err_of g with
      | None =>
          defer_Close g ;;;
          response <- deref g ;;
          let '(bodyText, err') := ReadAll (body response) in
          match err' with
          | None =>
              let v := strings_Split bodyText newline in
              v1 <- index v 1 ;;
              let '(code, _) := Atoi v1 in
              if code =? 0 then
                v2 <- index v 2 ;;
                ret (v2, None)
              else
                match errorCodes !! code with
                | Some message =>
                    log_Print message ;;;
                    ret (EmptyString, err)
                | None => ret (EmptyString, err)
                end
          | Some err' =>
              log_Print err' ;;;
              ret (EmptyString, err)
          end
      | Some err' =>
          log_Print err' ;;;
          ret (EmptyString, err)
      end
  end.

(** The status line shared by the seek and play steps. *)
Definition status_line (log_message : bool) (bodyText : string)
  : Go (bool * option error) :=
  let v := strings_Split bodyText newline in
  v1 <- index v 1 ;;
  let '(code, _) := Atoi v1 in
  if negb (code =? 0) then
    match errorCodes !! code with
    | Some message =>
        (if log_message then log_Print message else ret tt) ;;;
        ret (false, Some message)
    | None => ret (code =? 0, None)
    end
  else ret (code =? 0, None).

Definition PlaySeek (sessionId : string) (seekTime : Z)
  : Go (bool * option error) :=
  connection <- get_conn ;;
  match url_Parse E (url connection) with
  | inr err =>
      log_Print (Println2 "Malformed URL: " err) ;;;
      ret (false, Some err)
  | inl baseUrl =>
      let baseUrl := set_Path (PlayPath connection) baseUrl in
      let params :=
        Add "seek_time" (Itoa seekTime) (Add "session" sessionId
        (Add "ver" apiPlayVersion (Add "sid" (sid connection)
        (Add "cmd" "seek" ∅)))) in
      let baseUrl := set_RawQuery (Encode params) baseUrl in
      log_Print (info (URL_String E baseUrl)) ;;;
      g <- http_Get E baseUrl ;;
      match err_of g with
      | Some err => ret (false, Some err)
      | None =>
          defer_Close g ;;;
          response <- deref g ;;
          let '(bodyText, _) := ReadAll (body response) in
          status_line false bodyText
      end
  end.

Definition Play (sessionId : string) : Go (bool * option error) :=
  connection <- get_conn ;;
  match url_Parse E (url connection) with
  | inr err =>
      log_Print (Println2 "Malformed URL: " err) ;;;
      ret (false, Some err)
  | inl baseUrl =>
      let baseUrl := set_Path (PlayPath connection) baseUrl in
      let params :=
        Add "session" sessionId (Add "ver" apiPlayVersion
        (Add "sid" (sid connection) (Add "cmd" "play" ∅))) in
      let baseUrl := set_RawQuery (Encode params) baseUrl in
      log_Print (info (URL_String E baseUrl)) ;;;
      g <- http_Get E baseUrl ;;
      match err_of g with
      | Some err => ret (false, Some err)
      | None =>
          defer_Close g ;;;
          response <- deref g ;;
          let '(bodyText, _) := ReadAll (body response) in
          status_line true bodyText
      end
  end.

(** [for k, v := range response.Header { writer.Header().Set(k, v[0]) }],
    in the order the environment lists the header. *)
Fixpoint copy_header (h : list (string * list string)) : Go unit :=
  match h with
  | [] => ret tt
  | (k, v) :: h' =>
      v0 <- index v 0 ;;
      emit (EvSetHeader k v0) ;;;
      copy_header h'
  end.

(** The first [n] bytes of [s]. *)
Definition taken (n : nat) (s : string) : string := substring 0 n s.

(** [io.Copy(writer, response.Body)]: the bytes of the body are written
    as they are read.  The first error ends the copy: that of a write,
    after the bytes the writer took, or that of the reading, after all
    the bytes that arrived; [io.EOF] is no error.  The result is the
    number of bytes written and that error.  Of a body without bytes
    nothing is written. *)
Definition io_Copy (b : Body) : Go (Z * option error) :=
  match (if String.eqb (data b) EmptyString then None
         else writer_Write E (data b)) with
  | None =>
      emit (EvWrite (data b)) ;;;
      ret (Z.of_nat (String.length (data b)), read_err b)
  | Some (n, err) =>
      emit (EvWrite (taken n (data b))) ;;;
      ret (Z.of_nat (String.length (taken n (data b))), Some err)
  end.

Definition PlayGet (sessionId : string) (dataType : Z) : Go (option error) :=
  connection <- get_conn ;;
  match url_Parse E (url connection) with
  | inr err =>
      log_Print (Println2 "Malformed URL: " err) ;;;
      ret (Some err)
  | inl baseUrl =>
      let baseUrl := set_Path (PlayPath connection) baseUrl in
      let params :=
        Add "data_type" (Itoa dataType) (Add "session" sessionId
        (Add "ver" apiPlayVersion (Add "sid" (sid connection)
        (Add "cmd" "get" ∅)))) in
      let baseUrl := set_RawQuery (Encode params) baseUrl in
      log_Print (info (URL_String E baseUrl)) ;;;
      g <- http_Get E baseUrl ;;
      match err_of g with
      | Some err => ret (Some err)
      | None =>
          defer_Close g ;;;
          response <- deref g ;;
          copy_header (Header response) ;;;
          r <- io_Copy (body response) ;;
          let '(written, err) := r in
          log_Print ("[INFO] Bytes written " +:+ Itoa written) ;;;
          ret err
      end
  end.

Definition PlayFrame (channelId : string) (seekTime : Z) : Go (option error) :=
  r <- CreateSessionId channelId seekTime ;;
  let '(sessionId, err) := r in
  if Z.of_nat (String.length sessionId) =? 0 then ret err
  else
    r <- PlaySeek sessionId seekTime ;;
    let '(success, err) := r in
    if negb success then ret err
    else
      r <- Play sessionId ;;
      let '(success, err) := r in
      if negb success then ret err
      else
        err <- PlayGet sessionId DataTypeJPeg ;;
        ret err.

Definition Logs_params (sid : string) (logType startTime maxResults : Z)
  : Values :=
  let params := Add "sid" sid ∅ in
  let params :=
    if negb (AllLogType =? logType)
    then Add "log_type" (Itoa (to_int64 logType)) params else params in
  let params :=
    if negb (startTime =? 0)
    then Add "start_time" (Itoa startTime) params else params in
  let params := Add "sort_field" "time" params in
  let params := Add "max_results" (Itoa maxResults) params in
  Add "dir" "ASC" params.

Definition Logs (logType startTime maxResults : Z) : Go (list LogEntry) :=
  let qvrProLogEntry : list LogEntry := [] in
  connection <- get_conn ;;
  match url_Parse E (url connection) with
  | inr err => ret qvrProLogEntry
  | inl baseUrl =>
      let baseUrl := set_Path (LogsPath connection) baseUrl in
      let params :=
        Logs_params (sid connection) logType startTime maxResults in
      let baseUrl := set_RawQuery (Encode params) baseUrl in
      log_Print (info (URL_String E baseUrl)) ;;;
      g <- http_Get E baseUrl ;;
      match err_of g with
      | Some err => ret qvrProLogEntry
      | None =>
          defer_Close g ;;;
          response <- deref g ;;
          let '(body, _) := ReadAll (body response) in
          let '(qvrResponse, err) := json_Unmarshal E body in
          match err with
          | Some _ => ret qvrProLogEntry
          | None =>
              ret (map (set_Application (qvrApp connection))
                     (Items qvrResponse))
          end
      end
  end.

Definition CameraList : Go (option string * option error) :=
  connection <- get_conn ;;
  match url_Parse E (url connection) with
  | inr err => ret (None, Some err)
  | inl baseUrl =>
      let baseUrl := set_Path (CameraListPath connection) baseUrl in
      let params := Add "ver" apiVersion (Add "sid" (sid connection) ∅) in
      let baseUrl := set_RawQuery (Encode params) baseUrl in
      log_Print (info (URL_String E baseUrl)) ;;;
      g <- http_Get E baseUrl ;;
      match err_of g with
      | Some err => ret (None, Some err)
      | None =>
          defer_Close g ;;;
          response <- deref g ;;
          let '(body, err) := ReadAll (body response) in
          match err with
          | Some err => ret (None, Some err)
          | None => ret (Some body, None)
          end
      end
  end.

Definition CameraCapability : Go (option string * option error) :=
  connection <- get_conn ;;
  match url_Parse E (url connection) with
  | inr err => ret (None, Some err)
  | inl baseUrl =>
      let baseUrl := set_Path (CameraCapabilityPath connection) baseUrl in
      let params :=
        Add "act" "get_camera_capability"
          (Add "ver" apiVersion (Add "sid" (sid connection) ∅)) in
      let baseUrl := set_RawQuery (Encode params) baseUrl in
      log_Print (info (URL_String E baseUrl)) ;;;
      g <- http_Get E baseUrl ;;
      match err_of g with
      | Some err => ret (None, Some err)
      | None =>
          defer_Close g ;;;
          response <- deref g ;;
          let '(body, err) := ReadAll (body response) in
          match err with
          | Some err => ret (None, Some err)
          | None => ret (Some body, None)
          end
      end
  end.

Definition LiveStream (channelId streamId : string) : Go (option error) :=
  connection <- get_conn ;;
  match url_Parse E (url connection) with
  | inr err => ret (Some err)
  | inl baseUrl =>
      let baseUrl := set_Path (StreamsPath connection) baseUrl in
      let params :=
        Add "stream_id" streamId
          (Add "ch_sid" channelId (Add "sid" (sid connection) ∅)) in
      let baseUrl := set_RawQuery (Encode params) baseUrl in
      log_Print (info (URL_String E baseUrl)) ;;;
      g <- http_Get E baseUrl ;;
      match err_of g with
      | Some err => ret (Some err)
      | None =>
          defer_Close g ;;;
          response <- deref g ;;
          copy_header (Header response) ;;;
          r <- io_Copy (body response) ;;
          let '(written, err) := r in
          log_Print ("[INFO] Bytes written " +:+ Itoa written) ;;;
          ret err
      end
  end.

(** The error of [ReadAll] is dropped: [body, _ := io.ReadAll(...)]. *)
Definition CameraSnapshot (channelId : string) (imageTs : Z)
  : Go (option string * option error) :=
  connection <- get_conn ;;
  match url_Parse E (url connection) with
  | inr err => ret (None, Some err)
  | inl baseUrl =>
      let baseUrl := set_Path (CameraSnapshotPath connection channelId) baseUrl in
      let params :=
        Add "ts" (Itoa imageTs)
          (Add "ver" apiVersion (Add "sid" (sid connection) ∅)) in
      let baseUrl := set_RawQuery (Encode params) baseUrl in
      log_Print (info (URL_String E baseUrl)) ;;;
      g <- http_Get E baseUrl ;;
      match err_of g with
      | Some err => ret (None, Some err)
      | None =>
          defer_Close g ;;;
          response <- deref g ;;
          let '(body, _) := ReadAll (body response) in
          ret (Some body, None)
      end
  end.

End Methods.

End QvrApp.

(** ** [Create] and the package variables

    [Create] runs its body under a [sync.Once]: the first call builds the
    connection and fills the table of error codes, every later call finds
    the work done and hands out the same connection. *)

Module Package.

(** The assignments [errorCodes[convertHexToInt(hex)] = message] of
    [Create], in the order of the source. *)
Definition assignments : list (string * string) :=
  [("0x93010002", "failed to open play session");
   ("0x93010006", "sid authentication failed");
   ("0x93010007", "failed to open session (session num full)");
   ("0x93010102", "start_time, end_time or time_val not specified");
   ("0x93010103", "channel_id not specified");
   ("0x93010104", "session_id not specified");
   ("0x93010107", "seek_time not specified");
   ("0x93010108", "session_id too long");
   ("0x93010109", "speed_num not specified");
   ("0x9301010B", "enable not specified");
   ("0x93010201", "failed to control stream");
   ("0x93010202", "session not found");
   ("0x93010203", "session is being closed");
   ("0x93010204", "no files found");
   ("0x93010003", "cmd is illegal");
   ("0x93010004", "insufficient memory");
   ("0x93000000", "Illegal Args");
   ("0x93000001", "Rejected Connection (DDOS)");
   ("0x93000002", "Exceeded Max Connection number");
   ("0x93000003", "Stream not ready");
   ("0x93000004", "Failed to start the stream");
   ("0x93000005", "Auth failed")].

Definition assign (m : gmap Z string) (a : string * string) : gmap Z string :=
  <[convertHexToInt (fst a) := snd a]> m.

(** The package variables: the connection handed out ([None] is nil),
    whether the [sync.Once] has run, and the table (empty when nil). *)
Record State (C : Type) := mkState {
  singletonConnection : option C;
  onceConnection : bool;
  errorCodes : gmap Z string
}.

Arguments mkState {C} _ _ _.
Arguments singletonConnection {C} _.
Arguments onceConnection {C} _.
Arguments errorCodes {C} _.

(** The variables when the program starts. *)
Definition initial {C} : State C :=
  {| singletonConnection := None; onceConnection := false; errorCodes := ∅ |}.

(** [Create], given the connection its arguments describe. *)
Definition Create_with {C} (fresh : C) (s : State C) : option C * State C :=
  let s' :=
    if onceConnection s then s
    else {| singletonConnection := Some fresh; onceConnection := true;
            errorCodes := fold_left assign assignments ∅ |} in
  (singletonConnection s', s').

(** [Create] of the first client. *)
Definition Create_pro (url : string) (timeout : Z)
    (s : State QvrPro.Connection) :=
  Create_with (QvrPro.Create url timeout) s.

(** [Create] of the later client. *)
Definition Create_app (url : string) (qvrApp : QvrApp.QvrApplication)
    (timeout : Z) (s : State QvrApp.Connection) :=
  Create_with (QvrApp.Create url qvrApp timeout) s.

End Package.

(** * Properties *)

(** ** Query strings: what [Encode] writes, [ParseQuery] reads back *)

Module UrlFacts.

Lemma append_String c a b : String c a +:+ b = String c (a +:+ b).
Proof. reflexivity. Qed.

Lemma append_nil b : EmptyString +:+ b = b.
Proof. reflexivity. Qed.

Lemma Contains_app a b c : Contains (a +:+ b) c = Contains a c || Contains b c.
Proof.
  induction a as [|x a IH]; [reflexivity |].
  rewrite append_String. simpl. rewrite IH. now rewrite orb_assoc.
Qed.

(** The escaped form of one byte. *)
Definition escape_byte (c : ascii) : string := QueryEscape (String c EmptyString).

Lemma QueryEscape_cons c s : QueryEscape (String c s) = escape_byte c +:+ QueryEscape s.
Proof.
  unfold escape_byte. simpl.
  destruct (Ascii.eqb c " "); [reflexivity |].
  destruct (shouldEscape c); reflexivity.
Qed.

Ltac each_byte c :=
  destruct c as [[] [] [] [] [] [] [] []].

Lemma unescape_byte c r :
  QueryUnescape (escape_byte c +:+ r) = option_map (String c) (QueryUnescape r).
Proof.
  each_byte c;
    match goal with
    | |- context [escape_byte ?b] =>
        let e := eval vm_compute in (escape_byte b) in
        change (escape_byte b) with e
    end;
    rewrite ?append_String, append_nil; simpl;
    destruct (QueryUnescape r); reflexivity.
Qed.

Lemma escape_byte_clean c :
  Contains (escape_byte c) "&" = false
  /\ Contains (escape_byte c) "=" = false
  /\ Contains (escape_byte c) ";" = false.
Proof. each_byte c; vm_compute; auto. Qed.

Lemma QueryUnescape_QueryEscape s : QueryUnescape (QueryEscape s) = Some s.
Proof.
  induction s as [|c s IH]; [reflexivity |].
  rewrite QueryEscape_cons, unescape_byte, IH. reflexivity.
Qed.

Lemma QueryEscape_clean s :
  Contains (QueryEscape s) "&" = false
  /\ Contains (QueryEscape s) "=" = false
  /\ Contains (QueryEscape s) ";" = false.
Proof.
  induction s as [|c s (IH1 & IH2 & IH3)]; [auto |].
  rewrite QueryEscape_cons, !Contains_app, IH1, IH2, IH3.
  destruct (escape_byte_clean c) as (-> & -> & ->). auto.
Qed.

Lemma Split_clean a sep :
  Contains a sep = false -> strings_Split a sep = [a].
Proof.
  induction a as [|x a IH]; simpl; [reflexivity |].
  intros [Hx Ha]%orb_false_iff. rewrite Hx, (IH Ha). reflexivity.
Qed.

Lemma Split_app a sep b :
  Contains a sep = false ->
  strings_Split (a +:+ String sep b) sep = a :: strings_Split b sep.
Proof.
  induction a as [|x a IH].
  - intros _. rewrite append_nil. simpl. now rewrite Ascii.eqb_refl.
  - rewrite append_String. simpl.
    intros [Hx Ha]%orb_false_iff. rewrite Hx, (IH Ha). reflexivity.
Qed.

Lemma Cut_app a sep b :
  Contains a sep = false -> Cut (a +:+ String sep b) sep = (a, b).
Proof.
  induction a as [|x a IH].
  - intros _. rewrite append_nil. simpl. now rewrite Ascii.eqb_refl.
  - rewrite append_String. simpl.
    intros [Hx Ha]%orb_false_iff. rewrite Hx, (IH Ha). reflexivity.
Qed.

Lemma encode_pair_clean p :
  Contains (encode_pair p) "&" = false /\ Contains (encode_pair p) ";" = false.
Proof.
  unfold encode_pair. rewrite !Contains_app.
  destruct (QueryEscape_clean (fst p)) as (-> & _ & ->).
  destruct (QueryEscape_clean (snd p)) as (-> & _ & ->).
  auto.
Qed.

(** The segments between the ampersands are the encoded pairs. *)
Lemma Split_join p l :
  strings_Split (join "&" (map encode_pair (p :: l))) "&"
  = map encode_pair (p :: l).
Proof.
  revert p. induction l as [|q l IH]; intros p.
  - simpl. apply Split_clean, encode_pair_clean.
  - change (join "&" (map encode_pair (p :: q :: l)))
      with (encode_pair p +:+ String "&" (join "&" (map encode_pair (q :: l)))).
    rewrite Split_app by apply encode_pair_clean.
    rewrite IH. reflexivity.
Qed.

Lemma parseQuery_step_pair m e k x :
  parseQuery_step (m, e) (encode_pair (k, x)) = (Add k x m, e).
Proof.
  unfold parseQuery_step.
  destruct (encode_pair_clean (k, x)) as [_ ->].
  unfold encode_pair; simpl fst; simpl snd.
  destruct (QueryEscape_clean k) as (_ & Hk & _).
  assert (Hne : String.eqb (QueryEscape k +:+ "=" +:+ QueryEscape x) EmptyString = false).
  { destruct (QueryEscape k); reflexivity. }
  rewrite Hne.
  change (QueryEscape k +:+ "=" +:+ QueryEscape x)
    with (QueryEscape k +:+ String "=" (QueryEscape x)).
  rewrite (Cut_app _ _ _ Hk), !QueryUnescape_QueryEscape. reflexivity.
Qed.

Definition add_pair (m : Values) (p : string * string) : Values :=
  Add (fst p) (snd p) m.

Lemma fold_parseQuery_step l m e :
  fold_left parseQuery_step (map encode_pair l) (m, e)
  = (fold_left add_pair l m, e).
Proof.
  revert m. induction l as [|[k x] l IH]; intros m; [reflexivity |].
  cbn [map fold_left]. rewrite parseQuery_step_pair. apply IH.
Qed.

Lemma ParseQuery_pairs l :
  ParseQuery (join "&" (map encode_pair l)) = (fold_left add_pair l ∅, None).
Proof.
  unfold ParseQuery. destruct l as [|p l]; [reflexivity |].
  rewrite Split_join. apply fold_parseQuery_step.
Qed.

(** The values a list of pairs holds for one key, in order. *)
Fixpoint vals (k : string) (l : list (string * string)) : list string :=
  match l with
  | [] => []
  | (k', x) :: l' => if decide (k' = k) then x :: vals k l' else vals k l'
  end.

Lemma vals_app k l1 l2 : vals k (l1 ++ l2) = vals k l1 ++ vals k l2.
Proof.
  induction l1 as [|[k' x] l1 IH]; simpl; [reflexivity |].
  destruct (decide (k' = k)); simpl; now rewrite IH.
Qed.

Lemma vals_same k xs : vals k (map (fun x => (k, x)) xs) = xs.
Proof.
  induction xs as [|x xs IH]; simpl; [reflexivity |].
  destruct (decide (k = k)); [now rewrite IH | congruence].
Qed.

Lemma vals_other k k' xs : k' <> k -> vals k (map (fun x => (k', x)) xs) = [].
Proof.
  intros Hne. induction xs as [|x xs IH]; simpl; [reflexivity |].
  destruct (decide (k' = k)); [congruence | exact IH].
Qed.

Lemma lookup_Add_same k x (m : Values) : Add k x m !! k = Some (m !!! k ++ [x]).
Proof. unfold Add. apply lookup_insert_eq. Qed.

Lemma lookup_Add_other k k' x (m : Values) : k' <> k -> Add k' x m !! k = m !! k.
Proof. intros Hne. unfold Add. now apply lookup_insert_ne. Qed.

Lemma lookup_fold_add l : forall (m : Values) k,
  fold_left add_pair l m !! k
  = match vals k l with
    | [] => m !! k
    | xs => Some (m !!! k ++ xs)
    end.
Proof.
  induction l as [|[k' x] l IH]; intros m k; [reflexivity |].
  simpl. rewrite IH. unfold add_pair; simpl.
  destruct (decide (k' = k)) as [->|Hne].
  - rewrite lookup_Add_same.
    assert (Ht : Add k x m !!! k = m !!! k ++ [x]).
    { unfold lookup_total, map_lookup_total. now rewrite lookup_Add_same. }
    rewrite Ht. destruct (vals k l); [reflexivity |].
    now rewrite <- app_assoc.
  - rewrite lookup_Add_other by exact Hne.
    assert (Ht : Add k' x m !!! k = m !!! k).
    { unfold lookup_total, map_lookup_total. now rewrite lookup_Add_other. }
    now rewrite Ht.
Qed.

Lemma vals_flat_map (v : Values) k ks :
  NoDup ks ->
  vals k (flat_map (fun k' => map (fun x => (k', x)) (v !!! k')) ks)
  = if decide (k ∈ ks) then v !!! k else [].
Proof.
  induction 1 as [|k' ks Hnotin Hnd IH]; simpl.
  - destruct (decide (k ∈ [])) as [Hin|]; [inversion Hin | reflexivity].
  - rewrite vals_app, IH.
    destruct (decide (k' = k)) as [->|Hne].
    + rewrite vals_same.
      destruct (decide (k ∈ ks)); [contradiction |].
      destruct (decide (k ∈ k :: ks)) as [|Hn]; [apply app_nil_r |].
      exfalso. apply Hn. constructor.
    + rewrite vals_other by exact Hne. simpl.
      destruct (decide (k ∈ ks)) as [Hin|Hn];
        destruct (decide (k ∈ k' :: ks)) as [Hin'|Hn']; try reflexivity.
      * exfalso. apply Hn'. now constructor.
      * exfalso. apply Hn. inversion Hin'; subst; [congruence | assumption].
Qed.

(** The value lists [Add] builds are never empty. *)
Definition no_empty_list (v : Values) : Prop := forall k, v !! k <> Some [].

Lemma no_empty_list_empty : no_empty_list ∅.
Proof. intros k. now rewrite lookup_empty. Qed.

Lemma no_empty_list_Add k x v : no_empty_list v -> no_empty_list (Add k x v).
Proof.
  intros Hv k'. destruct (decide (k = k')) as [<-|Hne].
  - rewrite lookup_Add_same. intros [= H]. now destruct (v !!! k).
  - rewrite lookup_Add_other by exact Hne. apply Hv.
Qed.

Lemma sorted_keys_NoDup (v : Values) : NoDup (sorted_keys v).
Proof.
  unfold sorted_keys. rewrite merge_sort_Permutation.
  apply NoDup_fst_map_to_list.
Qed.

Lemma elem_of_sorted_keys (v : Values) k : k ∈ sorted_keys v <-> is_Some (v !! k).
Proof.
  unfold sorted_keys. rewrite merge_sort_Permutation.
  rewrite list_elem_of_fmap. split.
  - intros ([k' xs] & -> & Hin). apply elem_of_map_to_list in Hin. eauto.
  - intros [xs Hxs]. exists (k, xs). split; [reflexivity |].
    now apply elem_of_map_to_list.
Qed.

Lemma fold_add_pairs_of (v : Values) :
  no_empty_list v -> fold_left add_pair (pairs_of v) ∅ = v.
Proof.
  intros Hv. apply map_eq. intros k.
  rewrite lookup_fold_add. unfold pairs_of.
  rewrite vals_flat_map by apply sorted_keys_NoDup.
  destruct (decide (k ∈ sorted_keys v)) as [Hin|Hn].
  - apply elem_of_sorted_keys in Hin as [xs Hxs].
    unfold lookup_total, map_lookup_total. rewrite Hxs. simpl.
    destruct xs as [|x xs]; [now apply Hv in Hxs |].
    now rewrite lookup_empty.
  - rewrite lookup_empty. symmetry. apply eq_None_not_Some.
    intros Hs. apply Hn. now apply elem_of_sorted_keys.
Qed.

(** Round trip: parsing an encoded query gives back the values, and no
    error. *)
Lemma ParseQuery_Encode (v : Values) :
  no_empty_list v -> ParseQuery (Encode v) = (v, None).
Proof.
  intros Hv. unfold Encode. rewrite ParseQuery_pairs.
  now rewrite fold_add_pairs_of.
Qed.

End UrlFacts.

Arguments Encode : simpl never.
Arguments Add : simpl never.
Arguments errorCodes : simpl never.
Arguments Atoi : simpl never.
Arguments Itoa : simpl never.
Arguments strings_Split : simpl never.

(** ** Reading a run *)

(** The requests among the events. *)
Fixpoint gets (t : list Event) : list URL :=
  match t with
  | [] => []
  | EvGet u :: t' => u :: gets t'
  | _ :: t' => gets t'
  end.

(** The log lines among the events. *)
Fixpoint logged (t : list Event) : list string :=
  match t with
  | [] => []
  | EvLog s :: t' => s :: logged t'
  | _ :: t' => logged t'
  end.

Lemma gets_app t1 t2 : gets (t1 ++ t2) = gets t1 ++ gets t2.
Proof.
  induction t1 as [|e t1 IH]; [reflexivity |].
  destruct e; simpl; now rewrite IH.
Qed.

Lemma logged_app t1 t2 : logged (t1 ++ t2) = logged t1 ++ logged t2.
Proof.
  induction t1 as [|e t1 IH]; [reflexivity |].
  destruct e; simpl; now rewrite IH.
Qed.

(** The server's answer to the next request, whatever its URL. *)
Definition answers {J C} (E : Env J) (w : World C) (g : GetResult) : Prop :=
  forall rawurl, client_Get E (requests w) rawurl = g.

(** The lines of a playback response and the status on its second line. *)
Definition lines (bodyText : string) : list string := strings_Split bodyText newline.

Definition nl : string := String newline EmptyString.

Lemma lines_no_newline s : Contains s newline = false -> lines s = [s].
Proof. apply UrlFacts.Split_clean. Qed.

Lemma lines_length s : (1 <= length (lines s))%nat.
Proof.
  unfold lines. induction s as [|c s IH]; simpl; [lia |].
  unfold strings_Split; fold strings_Split.
  destruct (Ascii.eqb c newline); simpl; [lia |].
  destruct (strings_Split s newline); simpl in *; lia.
Qed.

(** Symbolic execution of a method: the operations of the monad and the
    projections are unfolded, the rest is left as it stands. *)
Ltac run :=
  cbv beta iota zeta delta
    [bind ret panic os_Exit log_Print fmt_Println emit get_conn put_conn
     time_Now http_Get deref index ReadAll QvrApp.defer_Close
     conn trace requests clock_reads fst snd response_of err_of nth_error
     body data read_err Header AuthPassed AuthSid negb].

(** The two ways [io.Copy] ends. *)
Ltac copy_cases :=
  match goal with
  | |- context [match (if String.eqb ?d EmptyString then None
                       else writer_Write ?E ?d) with _ => _ end] =>
      destruct (if String.eqb d EmptyString then None else writer_Write E d)
        as [[? ?]|]
  end.

Ltac open_world w :=
  unfold answers in *; destruct w as [? ? ? ?];
  cbn [conn trace requests clock_reads] in *.

(** ** Stand-ins for the outside world, for the worked examples *)

Module Example.

Definition nas : URL :=
  set_authority None "nas" (new_URL "https" false EmptyString).

(** [url.Parse] on the two base URLs the examples use: the first is well
    formed; the second, a lone colon, has no scheme, and stands here for
    every base URL that does not parse. *)
Definition Parse (rawurl : string) : URL + error :=
  if String.eqb rawurl "https://nas" then inl nas
  else inr ("parse " +:+ dq +:+ rawurl +:+ dq +:+ ": missing protocol scheme").

(** [URL.String] on the URLs of the examples, which have a scheme, a host
    and an absolute path. *)
Definition ToString (u : URL) : string :=
  Scheme u +:+ "://" +:+ Host u +:+ Path u
  +:+ (if String.eqb (RawQuery u) EmptyString then EmptyString
       else "?" +:+ RawQuery u).

(** A reader that fills the buffer of four bytes while it can and hands
    out the last bytes together with [io.EOF], as the body of a response
    of known length does. *)
Definition read4 (b : Body) : list string * string :=
  (List.removelast (chunks4 (data b)), List.last (chunks4 (data b)) EmptyString).

(** A world whose server gives the answers of [get] and whose clock
    shows [clock]; the writer of the caller takes all it is given. *)
Definition env {J} (get : nat -> GetResult) (clock : nat -> Z)
    (xml : string -> QDocRoot * option error)
    (json : string -> J * option error) : Env J :=
  {| url_Parse := Parse; URL_String := ToString;
     client_Get := fun n _ => get n; time_Now_Unix := clock;
     xml_Unmarshal := xml; json_Unmarshal := json;
     body_Read := read4; writer_Write := fun _ => None |}.

Definition ok (bodyText : string) : GetResult :=
  GetOk {| Header := []; body := {| data := bodyText; read_err := None |} |}.

Definition refused : GetResult := GetFailed "connection refused".

Definition no_xml (s : string) : QDocRoot * option error :=
  ({| AuthPassed := 0; AuthSid := EmptyString |}, Some "EOF").

Definition start {C} (c : C) : World C :=
  {| conn := c; trace := []; requests := 0; clock_reads := 0 |}.

End Example.

(** ** The open step: [CreateSessionId] *)

Module OpenStep.

(** What the status-line parser of the open step makes of a body. *)
Definition parsed (bodyText : string) : Outcome (string * option error) :=
  match lines bodyText with
  | _ :: v1 :: rest =>
      if fst (Atoi v1) =? 0 then
        match rest with
        | v2 :: _ => Ret (v2, None)
        | [] => Panic "index out of range"
        end
      else Ret (EmptyString, None)
  | _ => Panic "index out of range"
  end.

(** The line the parser logs: the table's message for a status in it. *)
Definition message_logged (bodyText : string) : list string :=
  match lines bodyText with
  | _ :: v1 :: _ =>
      if fst (Atoi v1) =? 0 then []
      else match errorCodes !! fst (Atoi v1) with
           | Some message => [message]
           | None => []
           end
  | _ => []
  end.

Ltac finish_run :=
  split; [reflexivity | eexists _, _; rewrite <- ?app_assoc; reflexivity].

Lemma pro_open_run (E : Env QvrPro.QvrProLogsResponse) w baseUrl r channelId startTime :
  url_Parse E (QvrPro.url (conn w)) = inl baseUrl ->
  answers E w (GetOk r) ->
  read_err (body r) = None ->
  fst (QvrPro.CreateSessionId E channelId startTime w) = parsed (data (body r))
  /\ exists info u,
      trace (snd (QvrPro.CreateSessionId E channelId startTime w))
      = trace w ++ [EvLog info; EvGet u]
          ++ map EvLog (message_logged (data (body r))).
Proof.
  open_world w. intros Hp Hg Hr.
  unfold QvrPro.CreateSessionId, parsed, message_logged, lines.
  run. rewrite Hp. run. rewrite Hg. destruct r as [h [d e]]. run.
  cbn [body read_err] in Hr. subst e.
  destruct (strings_Split d newline) as [|v0 [|v1 rest]]; run;
    try finish_run.
  destruct (Atoi v1) as [code e]. run.
  destruct (code =? 0); run.
  - destruct rest; run; finish_run.
  - destruct (errorCodes !! code); run; finish_run.
Qed.

Lemma app_open_run (E : Env QvrApp.LogsResponse) w baseUrl r channelId startTime :
  url_Parse E (QvrApp.url (conn w)) = inl baseUrl ->
  answers E w (GetOk r) ->
  read_err (body r) = None ->
  fst (QvrApp.CreateSessionId E channelId startTime w) = parsed (data (body r))
  /\ exists info u,
      trace (snd (QvrApp.CreateSessionId E channelId startTime w))
      = trace w ++ [EvLog info; EvGet u]
          ++ map EvLog (message_logged (data (body r))).
Proof.
  open_world w. intros Hp Hg Hr.
  unfold QvrApp.CreateSessionId, parsed, message_logged, lines.
  run. rewrite Hp. run. rewrite Hg. destruct r as [h [d e]]. run.
  cbn [body read_err] in Hr. subst e.
  destruct (strings_Split d newline) as [|v0 [|v1 rest]]; run;
    try finish_run.
  destruct (Atoi v1) as [code e]. run.
  destruct (code =? 0); run.
  - destruct rest; run; finish_run.
  - destruct (errorCodes !! code); run; finish_run.
Qed.

End OpenStep.

(** ** The seek and play steps *)

Module StatusStep.

(** What the status-line parser of the seek and play steps makes of a
    body. *)
Definition parsed (bodyText : string) : Outcome (bool * option error) :=
  match lines bodyText with
  | _ :: v1 :: _ =>
      if fst (Atoi v1) =? 0 then Ret (true, None)
      else match errorCodes !! fst (Atoi v1) with
           | Some message => Ret (false, Some message)
           | None => Ret (false, None)
           end
  | _ => Panic "index out of range"
  end.

Lemma pro_status_line (E : Env QvrPro.QvrProLogsResponse) flag bodyText w :
  fst (QvrPro.status_line flag bodyText w) = parsed bodyText.
Proof.
  unfold QvrPro.status_line, parsed, lines. run.
  destruct (strings_Split bodyText newline) as [|v0 [|v1 rest]]; run;
    try reflexivity.
  destruct (Atoi v1) as [code e]. run.
  destruct (code =? 0); run; [reflexivity |].
  destruct (errorCodes !! code); destruct flag; reflexivity.
Qed.

Lemma app_status_line (E : Env QvrApp.LogsResponse) flag bodyText w :
  fst (QvrApp.status_line flag bodyText w) = parsed bodyText.
Proof.
  unfold QvrApp.status_line, parsed, lines. run.
  destruct (strings_Split bodyText newline) as [|v0 [|v1 rest]]; run;
    try reflexivity.
  destruct (Atoi v1) as [code e]. run.
  destruct (code =? 0); run; [reflexivity |].
  destruct (errorCodes !! code); destruct flag; reflexivity.
Qed.

Lemma pro_seek_parsed (E : Env QvrPro.QvrProLogsResponse) w baseUrl g r sessionId seekTime :
  url_Parse E (QvrPro.url (conn w)) = inl baseUrl ->
  answers E w g -> response_of g = Some r ->
  fst (QvrPro.PlaySeek E sessionId seekTime w) = parsed (data (body r)).
Proof.
  open_world w. intros Hp Hg Hr. unfold QvrPro.PlaySeek.
  run. rewrite Hp. run. rewrite Hg. fold (response_of g). rewrite Hr.
  destruct r as [h [d e]].
  match goal with
  | |- context [QvrPro.status_line ?f ?b ?w] =>
      pose proof (pro_status_line E f b w) as Hs;
      destruct (QvrPro.status_line f b w) as [o w']
  end.
  cbn [fst] in Hs. subst o. destruct (parsed d); reflexivity.
Qed.

Lemma pro_play_parsed (E : Env QvrPro.QvrProLogsResponse) w baseUrl g r sessionId :
  url_Parse E (QvrPro.url (conn w)) = inl baseUrl ->
  answers E w g -> response_of g = Some r ->
  fst (QvrPro.play E sessionId w) = parsed (data (body r)).
Proof.
  open_world w. intros Hp Hg Hr. unfold QvrPro.play.
  run. rewrite Hp. run. rewrite Hg. fold (response_of g). rewrite Hr.
  destruct r as [h [d e]].
  match goal with
  | |- context [QvrPro.status_line ?f ?b ?w] =>
      pose proof (pro_status_line E f b w) as Hs;
      destruct (QvrPro.status_line f b w) as [o w']
  end.
  cbn [fst] in Hs. subst o. destruct (parsed d); reflexivity.
Qed.

Lemma app_seek_parsed (E : Env QvrApp.LogsResponse) w baseUrl r sessionId seekTime :
  url_Parse E (QvrApp.url (conn w)) = inl baseUrl ->
  answers E w (GetOk r) ->
  fst (QvrApp.PlaySeek E sessionId seekTime w) = parsed (data (body r)).
Proof.
  open_world w. intros Hp Hg. unfold QvrApp.PlaySeek.
  run. rewrite Hp. run. rewrite Hg. run.
  destruct r as [h [d e]].
  match goal with
  | |- context [QvrApp.status_line ?f ?b ?w] =>
      pose proof (app_status_line E f b w) as Hs;
      destruct (QvrApp.status_line f b w) as [o w']
  end.
  cbn [fst] in Hs. subst o. destruct (parsed d); reflexivity.
Qed.

Lemma app_play_parsed (E : Env QvrApp.LogsResponse) w baseUrl r sessionId :
  url_Parse E (QvrApp.url (conn w)) = inl baseUrl ->
  answers E w (GetOk r) ->
  fst (QvrApp.Play E sessionId w) = parsed (data (body r)).
Proof.
  open_world w. intros Hp Hg. unfold QvrApp.Play.
  run. rewrite Hp. run. rewrite Hg. run.
  destruct r as [h [d e]].
  match goal with
  | |- context [QvrApp.status_line ?f ?b ?w] =>
      pose proof (app_status_line E f b w) as Hs;
      destruct (QvrApp.status_line f b w) as [o w']
  end.
  cbn [fst] in Hs. subst o. destruct (parsed d); reflexivity.
Qed.

End StatusStep.

(** ** Playback responses: the claims about the open, seek and play steps *)

(** The step is served the response [r] in full: the base URL parses, the
    server answers the next request with [r], and the body is read to its
    end. *)
Definition pro_served (E : Env QvrPro.QvrProLogsResponse)
    (w : World QvrPro.Connection) (r : Response) : Prop :=
  (exists baseUrl, url_Parse E (QvrPro.url (conn w)) = inl baseUrl)
  /\ answers E w (GetOk r) /\ read_err (body r) = None.

Definition app_served (E : Env QvrApp.LogsResponse)
    (w : World QvrApp.Connection) (r : Response) : Prop :=
  (exists baseUrl, url_Parse E (QvrApp.url (conn w)) = inl baseUrl)
  /\ answers E w (GetOk r) /\ read_err (body r) = None.

Definition completes {A} (o : Outcome A) : Prop := exists a, o = Ret a.

(** The status a body carries on its second line. *)
Definition status (bodyText : string) : Z :=
  fst (Atoi (nth 1 (lines bodyText) EmptyString)).

Definition open_ok_body : string :=
  "header" +:+ nl +:+ "0" +:+ nl +:+ "SESSION123" +:+ nl.

Module Example_open.

Definition no_json_pro (s : string) : QvrPro.QvrProLogsResponse * option error :=
  (QvrPro.mkQvrProLogsResponse 0 [] EmptyString 0 0, Some "unexpected end of JSON input").

Definition no_json_app (s : string) : QvrApp.LogsResponse * option error :=
  (QvrApp.mkLogsResponse 0 [] EmptyString 0 0, Some "unexpected end of JSON input").

(** A server that answers every request with the same body. *)
Definition pro_env (bodyText : string) : Env QvrPro.QvrProLogsResponse :=
  Example.env (fun _ => Example.ok bodyText) (fun _ => 0) Example.no_xml no_json_pro.

Definition app_env (bodyText : string) : Env QvrApp.LogsResponse :=
  Example.env (fun _ => Example.ok bodyText) (fun _ => 0) Example.no_xml no_json_app.

Definition pro_world : World QvrPro.Connection :=
  Example.start (QvrPro.Create "https://nas" 3600).

Definition app_world : World QvrApp.Connection :=
  Example.start (QvrApp.Create "https://nas" QvrApp.QvrPro 3600).

Definition response (bodyText : string) : Response :=
  {| Header := []; body := {| data := bodyText; read_err := None |} |}.

Lemma pro_env_served bodyText : pro_served (pro_env bodyText) pro_world (response bodyText).
Proof. split; [eexists; reflexivity | split; [intros ?; reflexivity | reflexivity]]. Qed.

Lemma app_env_served bodyText : app_served (app_env bodyText) app_world (response bodyText).
Proof. split; [eexists; reflexivity | split; [intros ?; reflexivity | reflexivity]]. Qed.

End Example_open.

(** C4: with a base URL that parses, the open-step body
    [header / 0 / SESSION123] makes [CreateSessionId] return the session id
    [SESSION123] and no error, in both clients. *)
Theorem CreateSessionId_returns_session_line :
  (forall E w r channelId startTime,
      pro_served E w r -> data (body r) = open_ok_body ->
      fst (QvrPro.CreateSessionId E channelId startTime w) = Ret ("SESSION123", None))
  /\ (forall E w r channelId startTime,
      app_served E w r -> data (body r) = open_ok_body ->
      fst (QvrApp.CreateSessionId E channelId startTime w) = Ret ("SESSION123", None)).
Proof.
  split; intros E w r channelId startTime ([baseUrl Hp] & Hg & Hr) Hb.
  - destruct (OpenStep.pro_open_run E w baseUrl r channelId startTime Hp Hg Hr) as [-> _].
    rewrite Hb. reflexivity.
  - destruct (OpenStep.app_open_run E w baseUrl r channelId startTime Hp Hg Hr) as [-> _].
    rewrite Hb. reflexivity.
Qed.

(** The two clients on a server that answers with that body. *)
Lemma CreateSessionId_returns_session_line_witness :
  fst (QvrPro.CreateSessionId (Example_open.pro_env open_ok_body) "cam1" 0
         Example_open.pro_world) = Ret ("SESSION123", None)
  /\ fst (QvrApp.CreateSessionId (Example_open.app_env open_ok_body) "cam1" 0
         Example_open.app_world) = Ret ("SESSION123", None).
Proof.
  split.
  - apply (proj1 CreateSessionId_returns_session_line
             _ _ (Example_open.response open_ok_body));
      [apply Example_open.pro_env_served | reflexivity].
  - apply (proj2 CreateSessionId_returns_session_line
             _ _ (Example_open.response open_ok_body));
      [apply Example_open.app_env_served | reflexivity].
Defined.

Lemma parsed_open_no_newline b :
  Contains b newline = false -> OpenStep.parsed b = Panic "index out of range".
Proof. intros H. unfold OpenStep.parsed. now rewrite (lines_no_newline _ H). Qed.

Lemma parsed_status_no_newline b :
  Contains b newline = false -> StatusStep.parsed b = Panic "index out of range".
Proof. intros H. unfold StatusStep.parsed. now rewrite (lines_no_newline _ H). Qed.

Lemma parsed_open_completes b :
  completes (OpenStep.parsed b)
  <-> (2 <= length (lines b))%nat /\ (status b = 0 -> (3 <= length (lines b))%nat).
Proof.
  unfold completes, OpenStep.parsed, status.
  destruct (lines b) as [|v0 [|v1 rest]]; cbn [nth length].
  - split; [intros [a Ha]; discriminate | intros [H _]; lia].
  - split; [intros [a Ha]; discriminate | intros [H _]; lia].
  - destruct (Z.eqb_spec (fst (Atoi v1)) 0) as [Hz|Hz].
    + destruct rest.
      * split; [intros [a Ha]; discriminate | intros [_ H]; specialize (H Hz); cbn in H; lia].
      * split; [intros _; split; [lia | intros _; cbn; lia] | eauto].
    + split; [intros _; split; [lia | intros; contradiction] | eauto].
Qed.

Lemma parsed_status_completes b :
  completes (StatusStep.parsed b) <-> (2 <= length (lines b))%nat.
Proof.
  unfold completes, StatusStep.parsed.
  destruct (lines b) as [|v0 [|v1 rest]]; cbn [length].
  - split; [intros [a Ha]; discriminate | lia].
  - split; [intros [a Ha]; discriminate | lia].
  - split; [lia |]. intros _.
    destruct (fst (Atoi v1) =? 0); [eauto |].
    destruct (errorCodes !! fst (Atoi v1)); eauto.
Qed.

(** C10: a playback-step body without a newline makes the open, seek and
    play steps panic on the index of the second line; a step completes only
    when the body has at least two lines, and the open step with status
    zero only when it has at least three. *)
Theorem playback_steps_index_second_line :
  (forall E w r channelId sessionId t,
      pro_served E w r ->
      (Contains (data (body r)) newline = false ->
         fst (QvrPro.CreateSessionId E channelId t w) = Panic "index out of range"
         /\ fst (QvrPro.PlaySeek E sessionId t w) = Panic "index out of range"
         /\ fst (QvrPro.play E sessionId w) = Panic "index out of range")
      /\ (completes (fst (QvrPro.CreateSessionId E channelId t w))
          <-> (2 <= length (lines (data (body r))))%nat
              /\ (status (data (body r)) = 0
                  -> (3 <= length (lines (data (body r))))%nat))
      /\ (completes (fst (QvrPro.PlaySeek E sessionId t w))
          <-> (2 <= length (lines (data (body r))))%nat)
      /\ (completes (fst (QvrPro.play E sessionId w))
          <-> (2 <= length (lines (data (body r))))%nat))
  /\ (forall E w r channelId sessionId t,
      app_served E w r ->
      (Contains (data (body r)) newline = false ->
         fst (QvrApp.CreateSessionId E channelId t w) = Panic "index out of range"
         /\ fst (QvrApp.PlaySeek E sessionId t w) = Panic "index out of range"
         /\ fst (QvrApp.Play E sessionId w) = Panic "index out of range")
      /\ (completes (fst (QvrApp.CreateSessionId E channelId t w))
          <-> (2 <= length (lines (data (body r))))%nat
              /\ (status (data (body r)) = 0
                  -> (3 <= length (lines (data (body r))))%nat))
      /\ (completes (fst (QvrApp.PlaySeek E sessionId t w))
          <-> (2 <= length (lines (data (body r))))%nat)
      /\ (completes (fst (QvrApp.Play E sessionId w))
          <-> (2 <= length (lines (data (body r))))%nat)).
Proof.
  split; intros E w r channelId sessionId t ([baseUrl Hp] & Hg & Hr).
  - destruct (OpenStep.pro_open_run E w baseUrl r channelId t Hp Hg Hr) as [-> _].
    rewrite (StatusStep.pro_seek_parsed E w baseUrl (GetOk r) r sessionId t Hp Hg eq_refl).
    rewrite (StatusStep.pro_play_parsed E w baseUrl (GetOk r) r sessionId Hp Hg eq_refl).
    split; [| split; [| split]].
    + intros Hn. rewrite (parsed_open_no_newline _ Hn), (parsed_status_no_newline _ Hn).
      auto.
    + apply parsed_open_completes.
    + apply parsed_status_completes.
    + apply parsed_status_completes.
  - destruct (OpenStep.app_open_run E w baseUrl r channelId t Hp Hg Hr) as [-> _].
    rewrite (StatusStep.app_seek_parsed E w baseUrl r sessionId t Hp Hg).
    rewrite (StatusStep.app_play_parsed E w baseUrl r sessionId Hp Hg).
    split; [| split; [| split]].
    + intros Hn. rewrite (parsed_open_no_newline _ Hn), (parsed_status_no_newline _ Hn).
      auto.
    + apply parsed_open_completes.
    + apply parsed_status_completes.
    + apply parsed_status_completes.
Qed.

(** The empty body: the open step of the first client and the seek step of
    the later one panic. *)
Lemma playback_steps_index_second_line_witness :
  fst (QvrPro.CreateSessionId (Example_open.pro_env EmptyString) "cam1" 0
         Example_open.pro_world) = Panic "index out of range"
  /\ fst (QvrApp.PlaySeek (Example_open.app_env EmptyString) "SESSION123" 0
         Example_open.app_world) = Panic "index out of range".
Proof.
  split.
  - exact (proj1 (proj1 (proj1 playback_steps_index_second_line
             _ _ (Example_open.response EmptyString) "cam1" "SESSION123" 0
             (Example_open.pro_env_served EmptyString)) eq_refl)).
  - exact (proj1 (proj2 (proj1 (proj2 playback_steps_index_second_line
             _ _ (Example_open.response EmptyString) "cam1" "SESSION123" 0
             (Example_open.app_env_served EmptyString)) eq_refl))).
Defined.

(** *** The table of error codes and the open step *)

Definition body_37752834 : string := "header" +:+ nl +:+ "37752834" +:+ nl.

Definition body_sid_failed : string := "header" +:+ nl +:+ "-1828651002" +:+ nl.

(** C5, as the specification states it, fails: on the body
    [header / 37752834] the open step of either client returns the empty
    session id with a nil error, and the message "sid authentication
    failed" is not even logged, 37752834 being no key of the table. *)
Lemma CreateSessionId_37752834_counterexample :
  let pro := QvrPro.CreateSessionId (Example_open.pro_env body_37752834) "cam1" 0
               Example_open.pro_world in
  let app := QvrApp.CreateSessionId (Example_open.app_env body_37752834) "cam1" 0
               Example_open.app_world in
  fst pro = Ret (EmptyString, None)
  /\ fst app = Ret (EmptyString, None)
  /\ ~ In "sid authentication failed" (logged (trace (snd pro)))
  /\ ~ In "sid authentication failed" (logged (trace (snd app)))
  /\ errorCodes !! 37752834 = None.
Proof.
  cbv zeta. repeat split; try (vm_compute; reflexivity);
    vm_compute; intros [H | []]; discriminate H.
Qed.

Lemma parsed_open_nonzero b :
  (2 <= length (lines b))%nat -> status b <> 0 ->
  OpenStep.parsed b = Ret (EmptyString, None)
  /\ OpenStep.message_logged b
     = match errorCodes !! status b with
       | Some message => [message]
       | None => []
       end.
Proof.
  unfold OpenStep.parsed, OpenStep.message_logged, status.
  destruct (lines b) as [|v0 [|v1 rest]]; cbn [length nth]; try lia.
  intros _ Hz. apply Z.eqb_neq in Hz. rewrite Hz. auto.
Qed.

(** C5, amended: a non-zero status on the second line makes
    [CreateSessionId] return the empty session id; the message of a status
    that is a key of the table is logged and nothing else is.  The keys are
    the hexadecimal literals narrowed to 32 bits: 0x93010006 is the key
    -1828651002, and 37752834 is no key. *)
Theorem CreateSessionId_nonzero_status :
  (forall E w r channelId startTime,
      pro_served E w r ->
      (2 <= length (lines (data (body r))))%nat ->
      status (data (body r)) <> 0 ->
      (exists e, fst (QvrPro.CreateSessionId E channelId startTime w)
                 = Ret (EmptyString, e))
      /\ exists info u,
          trace (snd (QvrPro.CreateSessionId E channelId startTime w))
          = trace w ++ [EvLog info; EvGet u]
              ++ match errorCodes !! status (data (body r)) with
                 | Some message => [EvLog message]
                 | None => []
                 end)
  /\ (forall E w r channelId startTime,
      app_served E w r ->
      (2 <= length (lines (data (body r))))%nat ->
      status (data (body r)) <> 0 ->
      (exists e, fst (QvrApp.CreateSessionId E channelId startTime w)
                 = Ret (EmptyString, e))
      /\ exists info u,
          trace (snd (QvrApp.CreateSessionId E channelId startTime w))
          = trace w ++ [EvLog info; EvGet u]
              ++ match errorCodes !! status (data (body r)) with
                 | Some message => [EvLog message]
                 | None => []
                 end)
  /\ convertHexToInt "0x93010006" = -1828651002
  /\ errorCodes !! (-1828651002) = Some "sid authentication failed"
  /\ errorCodes !! 37752834 = None.
Proof.
  split; [| split; [| repeat split; vm_compute; reflexivity]];
    intros E w r channelId startTime ([baseUrl Hp] & Hg & Hr) Hlen Hz;
    destruct (parsed_open_nonzero _ Hlen Hz) as [Hparsed Hlog].
  - destruct (OpenStep.pro_open_run E w baseUrl r channelId startTime Hp Hg Hr)
      as [-> (info & u & ->)].
    rewrite Hparsed, Hlog. split; [eauto |].
    exists info, u. destruct (errorCodes !! status (data (body r))); reflexivity.
  - destruct (OpenStep.app_open_run E w baseUrl r channelId startTime Hp Hg Hr)
      as [-> (info & u & ->)].
    rewrite Hparsed, Hlog. split; [eauto |].
    exists info, u. destruct (errorCodes !! status (data (body r))); reflexivity.
Qed.

(** The status -1828651002: no session id comes back. *)
Lemma CreateSessionId_nonzero_status_witness :
  exists e, fst (QvrApp.CreateSessionId (Example_open.app_env body_sid_failed)
                   "cam1" 0 Example_open.app_world) = Ret (EmptyString, e).
Proof.
  apply (proj1 (proj2 CreateSessionId_nonzero_status)
           (Example_open.app_env body_sid_failed) Example_open.app_world
           (Example_open.response body_sid_failed) "cam1" 0).
  - apply Example_open.app_env_served.
  - vm_compute. lia.
  - vm_compute. discriminate.
Defined.

(** On that body the message of the table is logged. *)
Example CreateSessionId_logs_sid_failed :
  logged (trace (snd (QvrApp.CreateSessionId (Example_open.app_env body_sid_failed)
                        "cam1" 0 Example_open.app_world)))
  = ["[INFO] https://nas/qvrpro/apis/qplay.cgi?ch_sid=cam1&cmd=open&data_type=0&query_type=0&recording_type=0&sid=&start_time=0&stream=0&ver=v1";
     "sid authentication failed"].
Proof. vm_compute. reflexivity. Qed.

(** ** The session: [Logout] and [Login] *)

Module Session.

(** In the first client [Logout] always returns, with the session
    cleared, whatever the base URL and the server do. *)
Lemma pro_Logout_clears (E : Env QvrPro.QvrProLogsResponse) w :
  fst (QvrPro.Logout E w) = Ret tt
  /\ QvrPro.sid (conn (snd (QvrPro.Logout E w))) = EmptyString
  /\ QvrPro.expire (conn (snd (QvrPro.Logout E w))) = 0.
Proof.
  destruct w as [c t n k]. unfold QvrPro.Logout. run.
  destruct (url_Parse E (QvrPro.url c)) as [baseUrl | err]; run.
  - destruct (client_Get E n _) as [r | e | r e]; run; auto.
  - auto.
Qed.

(** The failure the server's notification may meet is logged. *)
Lemma pro_Logout_logs_failure (E : Env QvrPro.QvrProLogsResponse) w baseUrl g e :
  url_Parse E (QvrPro.url (conn w)) = inl baseUrl ->
  answers E w g -> err_of g = Some e ->
  exists u, trace (snd (QvrPro.Logout E w)) = trace w ++ [EvGet u; EvLog e].
Proof.
  open_world w. intros Hp Hg He. unfold QvrPro.Logout. run.
  rewrite Hp. run. rewrite Hg. fold (err_of g). rewrite He. run.
  eexists. rewrite <- app_assoc. reflexivity.
Qed.

(** In the later client [Logout] clears the session when the base URL
    does not parse or the server hands back a response. *)
Lemma app_Logout_clears (E : Env QvrApp.LogsResponse) w :
  (forall baseUrl, url_Parse E (QvrApp.url (conn w)) = inl baseUrl ->
     exists g r, answers E w g /\ response_of g = Some r) ->
  fst (QvrApp.Logout E w) = Ret tt
  /\ QvrApp.sid (conn (snd (QvrApp.Logout E w))) = EmptyString
  /\ QvrApp.expire (conn (snd (QvrApp.Logout E w))) = 0.
Proof.
  open_world w. intros H. unfold QvrApp.Logout. run.
  destruct (url_Parse E (QvrApp.url _)) as [baseUrl | err]; run.
  - destruct (H baseUrl eq_refl) as (g & r & Hg & Hr).
    rewrite Hg. destruct g as [r' | e | r' e]; [| discriminate |]; run; auto.
  - auto.
Qed.

(** When the request fails without a response, the later client's
    [Logout] panics where it takes [response.Body] for the deferred
    close, and the session stays as it was. *)
Lemma app_Logout_panics (E : Env QvrApp.LogsResponse) w baseUrl e :
  url_Parse E (QvrApp.url (conn w)) = inl baseUrl ->
  answers E w (GetFailed e) ->
  fst (QvrApp.Logout E w) = Panic "invalid memory address or nil pointer dereference"
  /\ conn (snd (QvrApp.Logout E w)) = conn w.
Proof.
  open_world w. intros Hp Hg. unfold QvrApp.Logout. run.
  rewrite Hp. run. rewrite Hg. run. auto.
Qed.

End Session.

Module Example_session.

Definition refusing_pro : Env QvrPro.QvrProLogsResponse :=
  Example.env (fun _ => Example.refused) (fun _ => 5000) Example.no_xml
    Example_open.no_json_pro.

Definition refusing_app : Env QvrApp.LogsResponse :=
  Example.env (fun _ => Example.refused) (fun _ => 5000) Example.no_xml
    Example_open.no_json_app.

(** A connection that holds a session. *)
Definition logged_in_pro : QvrPro.Connection :=
  {| QvrPro.url := "https://nas"; QvrPro.sid := "SID1";
     QvrPro.expire := 3600; QvrPro.timeout := 3600 |}.

Definition logged_in_app : QvrApp.Connection :=
  {| QvrApp.url := "https://nas"; QvrApp.sid := "SID1";
     QvrApp.expire := 3600; QvrApp.timeout := 3600;
     QvrApp.qvrApp := QvrApp.QvrPro |}.

End Example_session.

(** C6, evaluated where the later client fails it: with the server
    refusing the connection, [Logout] of the first client returns with the
    session cleared, while [Logout] of the later client panics on the nil
    response and leaves session id and expiry in place. *)
Theorem Logout_on_refused_connection :
  let pro := QvrPro.Logout Example_session.refusing_pro
               (Example.start Example_session.logged_in_pro) in
  let app := QvrApp.Logout Example_session.refusing_app
               (Example.start Example_session.logged_in_app) in
  (fst pro = Ret tt
   /\ QvrPro.sid (conn (snd pro)) = EmptyString
   /\ QvrPro.expire (conn (snd pro)) = 0)
  /\ (fst app = Panic "invalid memory address or nil pointer dereference"
      /\ QvrApp.sid (conn (snd app)) = "SID1"
      /\ QvrApp.expire (conn (snd app)) = 3600
      /\ logged (trace (snd app))
         = ["[INFO] https://nas/cgi-bin/authLogin.cgi?logout=1&sid=SID1";
            "connection refused"]).
Proof. cbv zeta. repeat split; vm_compute; reflexivity. Qed.

Module LoginFacts.

Lemma nonempty_length (s : string) :
  s <> EmptyString -> (0 <? Z.of_nat (String.length s)) = true.
Proof. destruct s; [congruence | reflexivity]. Qed.

(** The request [Login] sends. *)
Definition login_request (baseUrl : URL) (user password : string) : URL :=
  set_RawQuery
    (Encode (Add "user" user (Add "pwd" password (Add "serviceKey" "1" ∅))))
    (set_Path "/cgi-bin/authLogin.cgi" baseUrl).

(** The session is still good: an id is held and the clock, read now,
    shows a time before the expiry. *)
Definition pro_fresh (E : Env QvrPro.QvrProLogsResponse)
    (w : World QvrPro.Connection) : Prop :=
  QvrPro.sid (conn w) <> EmptyString
  /\ time_Now_Unix E (clock_reads w) < QvrPro.expire (conn w).

Definition app_fresh (E : Env QvrApp.LogsResponse)
    (w : World QvrApp.Connection) : Prop :=
  QvrApp.sid (conn w) <> EmptyString
  /\ time_Now_Unix E (clock_reads w) < QvrApp.expire (conn w).

(** No id is held, or the expiry is not after the time the clock shows. *)
Definition pro_stale (E : Env QvrPro.QvrProLogsResponse)
    (w : World QvrPro.Connection) : Prop :=
  QvrPro.sid (conn w) = EmptyString
  \/ QvrPro.expire (conn w) <= time_Now_Unix E (clock_reads w).

Definition app_stale (E : Env QvrApp.LogsResponse)
    (w : World QvrApp.Connection) : Prop :=
  QvrApp.sid (conn w) = EmptyString
  \/ QvrApp.expire (conn w) <= time_Now_Unix E (clock_reads w).

Lemma pro_reuse E w user password :
  pro_fresh E w ->
  fst (QvrPro.Login E user password w) = Ret true
  /\ trace (snd (QvrPro.Login E user password w)) = trace w
  /\ requests (snd (QvrPro.Login E user password w)) = requests w
  /\ conn (snd (QvrPro.Login E user password w)) = conn w.
Proof.
  destruct w as [c t n k]. unfold pro_fresh. cbn [conn clock_reads].
  intros [Hs Ht]. unfold QvrPro.Login, QvrPro.session_valid. run.
  rewrite (nonempty_length _ Hs). run.
  apply Z.ltb_lt in Ht. rewrite Ht. auto.
Qed.

Lemma app_reuse E w user password :
  app_fresh E w ->
  fst (QvrApp.Login E user password w) = Ret true
  /\ trace (snd (QvrApp.Login E user password w)) = trace w
  /\ requests (snd (QvrApp.Login E user password w)) = requests w
  /\ conn (snd (QvrApp.Login E user password w)) = conn w.
Proof.
  destruct w as [c t n k]. unfold app_fresh. cbn [conn clock_reads].
  intros [Hs Ht]. unfold QvrApp.Login, QvrApp.session_valid. run.
  rewrite (nonempty_length _ Hs). run.
  apply Z.ltb_lt in Ht. rewrite Ht. auto.
Qed.

Ltac leaf :=
  eexists; rewrite <- ?app_assoc; cbn [app]; reflexivity.

Ltac branch :=
  match goal with
  | |- context [match client_Get ?E ?n ?u with _ => _ end] =>
      destruct (client_Get E n u) as [? | ? | ? ?]
  | |- context [match ?b with {| data := _; read_err := _ |} => _ end] =>
      destruct b as [? [?|]]
  | |- context [match ?r with {| Header := _; body := _ |} => _ end] =>
      destruct r as [? ?]
  | |- context [xml_Unmarshal ?E ?b] =>
      destruct (xml_Unmarshal E b) as [[? ?] [?|]]
  | |- context [if ?a =? 0 then _ else _] =>
      destruct (a =? 0)
  | |- context [match ?o with Some _ => _ | None => _ end] =>
      destruct o
  end.

Lemma pro_stale_authenticates E w baseUrl user password :
  url_Parse E (QvrPro.url (conn w)) = inl baseUrl ->
  pro_stale E w ->
  exists info rest,
    trace (snd (QvrPro.Login E user password w))
    = trace w ++ EvLog info :: EvGet (login_request baseUrl user password) :: rest.
Proof.
  destruct w as [c t n k]. unfold pro_stale, login_request.
  cbn [conn clock_reads]. intros Hp Hst.
  unfold QvrPro.Login, QvrPro.session_valid, QvrPro.Logout. run.
  assert (Hv : forall (X : Type) (a b : X),
             (if 0 <? Z.of_nat (String.length (QvrPro.sid c))
              then if time_Now_Unix E k <? QvrPro.expire c then a else b
              else b) = b).
  { intros X a b. destruct Hst as [-> | Ht]; [reflexivity |].
    apply Z.ltb_ge in Ht. rewrite Ht. now destruct (0 <? _). }
  destruct (0 <? Z.of_nat (String.length (QvrPro.sid c))) eqn:Hlen; run.
  - specialize (Hv bool true false). cbv beta in Hv.
    destruct (time_Now_Unix E k <? QvrPro.expire c); [discriminate |].
    run. rewrite !Hp. run. eexists.
    repeat (branch; run; rewrite ?Hp; run); leaf.
  - rewrite !Hp. run. eexists.
    repeat (branch; run; rewrite ?Hp; run); leaf.
Qed.

Lemma app_stale_authenticates E w baseUrl user password :
  url_Parse E (QvrApp.url (conn w)) = inl baseUrl ->
  app_stale E w ->
  exists info rest,
    trace (snd (QvrApp.Login E user password w))
    = trace w ++ EvLog info :: EvGet (login_request baseUrl user password) :: rest.
Proof.
  destruct w as [c t n k]. unfold app_stale, login_request.
  cbn [conn clock_reads]. intros Hp Hst.
  unfold QvrApp.Login, QvrApp.session_valid, QvrApp.Logout. run.
  assert (Hv : forall (X : Type) (a b : X),
             (if 0 <? Z.of_nat (String.length (QvrApp.sid c))
              then if time_Now_Unix E k <? QvrApp.expire c then a else b
              else b) = b).
  { intros X a b. destruct Hst as [-> | Ht]; [reflexivity |].
    apply Z.ltb_ge in Ht. rewrite Ht. now destruct (0 <? _). }
  destruct (0 <? Z.of_nat (String.length (QvrApp.sid c))) eqn:Hlen; run.
  - specialize (Hv bool true false). cbv beta in Hv.
    destruct (time_Now_Unix E k <? QvrApp.expire c); [discriminate |].
    run. rewrite !Hp. run. eexists.
    repeat (branch; run; rewrite ?Hp; run); leaf.
  - rewrite !Hp. run. eexists.
    repeat (branch; run; rewrite ?Hp; run); leaf.
Qed.

(** With a base URL that does not parse, a stale session is answered
    without any request: [Login] logs, clears the session and fails. *)
Lemma pro_stale_malformed E w err user password :
  url_Parse E (QvrPro.url (conn w)) = inr err ->
  pro_stale E w ->
  fst (QvrPro.Login E user password w) = Ret false
  /\ gets (trace (snd (QvrPro.Login E user password w))) = gets (trace w)
  /\ QvrPro.sid (conn (snd (QvrPro.Login E user password w))) = EmptyString
  /\ QvrPro.expire (conn (snd (QvrPro.Login E user password w))) = 0.
Proof.
  destruct w as [c t n k]. unfold pro_stale.
  cbn [conn clock_reads]. intros Hp Hst.
  unfold QvrPro.Login, QvrPro.session_valid, QvrPro.Logout. run.
  assert (Hv : forall (X : Type) (a b : X),
             (if 0 <? Z.of_nat (String.length (QvrPro.sid c))
              then if time_Now_Unix E k <? QvrPro.expire c then a else b
              else b) = b).
  { intros X a b. destruct Hst as [-> | Ht]; [reflexivity |].
    apply Z.ltb_ge in Ht. rewrite Ht. now destruct (0 <? _). }
  destruct (0 <? Z.of_nat (String.length (QvrPro.sid c))) eqn:Hlen; run.
  - specialize (Hv bool true false). cbv beta in Hv.
    destruct (time_Now_Unix E k <? QvrPro.expire c); [discriminate |].
    run. rewrite !Hp. run. rewrite !gets_app. cbn [gets]. rewrite !app_nil_r. auto.
  - rewrite !Hp. run. rewrite !gets_app. cbn [gets]. rewrite !app_nil_r. auto.
Qed.

Lemma app_stale_malformed E w err user password :
  url_Parse E (QvrApp.url (conn w)) = inr err ->
  app_stale E w ->
  fst (QvrApp.Login E user password w) = Ret false
  /\ gets (trace (snd (QvrApp.Login E user password w))) = gets (trace w)
  /\ QvrApp.sid (conn (snd (QvrApp.Login E user password w))) = EmptyString
  /\ QvrApp.expire (conn (snd (QvrApp.Login E user password w))) = 0.
Proof.
  destruct w as [c t n k]. unfold app_stale.
  cbn [conn clock_reads]. intros Hp Hst.
  unfold QvrApp.Login, QvrApp.session_valid, QvrApp.Logout. run.
  assert (Hv : forall (X : Type) (a b : X),
             (if 0 <? Z.of_nat (String.length (QvrApp.sid c))
              then if time_Now_Unix E k <? QvrApp.expire c then a else b
              else b) = b).
  { intros X a b. destruct Hst as [-> | Ht]; [reflexivity |].
    apply Z.ltb_ge in Ht. rewrite Ht. now destruct (0 <? _). }
  destruct (0 <? Z.of_nat (String.length (QvrApp.sid c))) eqn:Hlen; run.
  - specialize (Hv bool true false). cbv beta in Hv.
    destruct (time_Now_Unix E k <? QvrApp.expire c); [discriminate |].
    run. rewrite !Hp. run. rewrite !gets_app. cbn [gets]. rewrite !app_nil_r. auto.
  - rewrite !Hp. run. rewrite !gets_app. cbn [gets]. rewrite !app_nil_r. auto.
Qed.

(** The query of the login request reads back as the three parameters
    the method adds; the cached session id is not among them. *)
Lemma login_request_query baseUrl user password :
  ParseQuery (RawQuery (login_request baseUrl user password))
  = (Add "user" user (Add "pwd" password (Add "serviceKey" "1" ∅)), None)
  /\ Path (login_request baseUrl user password) = "/cgi-bin/authLogin.cgi".
Proof.
  split; [| reflexivity].
  unfold login_request, set_RawQuery. cbn [RawQuery].
  apply UrlFacts.ParseQuery_Encode.
  repeat apply UrlFacts.no_empty_list_Add. apply UrlFacts.no_empty_list_empty.
Qed.

End LoginFacts.

Module Example_login.

(** A connection whose base URL, a lone colon, does not parse. *)
Definition malformed_pro : QvrPro.Connection := QvrPro.Create ":" 3600.
Definition malformed_app : QvrApp.Connection :=
  QvrApp.Create ":" QvrApp.QvrPro 3600.

Definition passed : string := "<QDocRoot><authPassed>1</authPassed><authSid>SID1</authSid></QDocRoot>".
Definition rejected : string := "<QDocRoot><authPassed>0</authPassed></QDocRoot>".

(** The decoder on the two documents of the examples. *)
Definition xml (s : string) : QDocRoot * option error :=
  if String.eqb s passed then ({| AuthPassed := 1; AuthSid := "SID1" |}, None)
  else if String.eqb s rejected then ({| AuthPassed := 0; AuthSid := EmptyString |}, None)
  else Example.no_xml s.

(** The server lets the first login pass and rejects the second; the
    clock shows 0 at the first login and 5000, past the expiry, later. *)
Definition get (n : nat) : GetResult :=
  match n with
  | O => Example.ok passed
  | _ => Example.ok rejected
  end.

Definition clock (n : nat) : Z :=
  match n with
  | O => 0
  | _ => 5000
  end.

Definition pro_env : Env QvrPro.QvrProLogsResponse :=
  Example.env get clock xml Example_open.no_json_pro.

Definition app_env : Env QvrApp.LogsResponse :=
  Example.env get clock xml Example_open.no_json_app.

End Example_login.




Module LoginFailure.

Ltac branch :=
  match goal with
  | |- context [match url_Parse ?E ?u with _ => _ end] =>
      destruct (url_Parse E u)
  | |- context [if 0 <? ?a then _ else _] => destruct (0 <? a)
  | |- context [if time_Now_Unix ?E ?k <? ?a then _ else _] =>
      destruct (time_Now_Unix E k <? a)
  | _ => LoginFacts.branch
  end.

(** What a failed [Login] of the first client leaves behind: the session
    is cleared, unless the server's answer was read and decoded and said
    that the authentication did not pass; then the connection is as it
    was before the call. *)
Lemma pro_failed (E : Env QvrPro.QvrProLogsResponse) w user password :
  fst (QvrPro.Login E user password w) = Ret false ->
  (QvrPro.sid (conn (snd (QvrPro.Login E user password w))) = EmptyString
   /\ QvrPro.expire (conn (snd (QvrPro.Login E user password w))) = 0)
  \/ (conn (snd (QvrPro.Login E user password w)) = conn w
      /\ In "Auth Failed" (logged (trace (snd (QvrPro.Login E user password w))))).
Proof.
  destruct w as [c t n k].
  unfold QvrPro.Login, QvrPro.session_valid, QvrPro.Logout. run.
  repeat (branch; run); intros H; try discriminate H;
    try (left; split; reflexivity).
  all: right; split; [reflexivity |].
  all: rewrite !logged_app; cbn [logged]; rewrite !in_app_iff; cbn [In]; auto.
Qed.

(** What a failed [Login] of the later client leaves behind, when it
    returns. *)
Lemma app_failed (E : Env QvrApp.LogsResponse) w user password :
  fst (QvrApp.Login E user password w) = Ret false ->
  (QvrApp.sid (conn (snd (QvrApp.Login E user password w))) = EmptyString
   /\ QvrApp.expire (conn (snd (QvrApp.Login E user password w))) = 0)
  \/ (conn (snd (QvrApp.Login E user password w)) = conn w
      /\ In "Auth Failed" (logged (trace (snd (QvrApp.Login E user password w))))).
Proof.
  destruct w as [c t n k].
  unfold QvrApp.Login, QvrApp.session_valid, QvrApp.Logout. run.
  repeat (branch; run); intros H; try discriminate H;
    try (left; split; reflexivity).
  all: right; split; [reflexivity |].
  all: rewrite !logged_app; cbn [logged]; rewrite !in_app_iff; cbn [In]; auto.
Qed.

End LoginFailure.

(** C2, evaluated where both clients fail it: a first [Login] passes and
    stores the session [SID1] with expiry 3600; at time 5000 a second
    [Login] is rejected by the server ([authPassed] 0).  It returns false,
    and the expired session id and its expiry are still in place.  In the
    later client, moreover, a [Login] that cannot reach the server does not
    return: the [Logout] it calls cannot reach the server either and
    panics, with the session as it was. *)
Theorem Login_rejected_keeps_session :
  let pro1 := QvrPro.Login Example_login.pro_env "admin" "secret"
                (Example.start (QvrPro.Create "https://nas" 3600)) in
  let pro2 := QvrPro.Login Example_login.pro_env "admin" "secret" (snd pro1) in
  let app1 := QvrApp.Login Example_login.app_env "admin" "secret"
                (Example.start (QvrApp.Create "https://nas" QvrApp.QvrPro 3600)) in
  let app2 := QvrApp.Login Example_login.app_env "admin" "secret" (snd app1) in
  let app3 := QvrApp.Login Example_session.refusing_app "admin" "secret"
                (Example.start Example_session.logged_in_app) in
  (fst pro1 = Ret true /\ fst pro2 = Ret false
   /\ QvrPro.sid (conn (snd pro2)) = "SID1"
   /\ QvrPro.expire (conn (snd pro2)) = 3600
   /\ length (gets (trace (snd pro2))) = 2%nat)
  /\ (fst app1 = Ret true /\ fst app2 = Ret false
      /\ QvrApp.sid (conn (snd app2)) = "SID1"
      /\ QvrApp.expire (conn (snd app2)) = 3600
      /\ length (gets (trace (snd app2))) = 2%nat)
  /\ (fst app3 = Panic "invalid memory address or nil pointer dereference"
      /\ QvrApp.sid (conn (snd app3)) = "SID1"
      /\ QvrApp.expire (conn (snd app3)) = 3600).
Proof. cbv zeta. repeat split; vm_compute; reflexivity. Qed.

(** ** The log query *)

Module LogsFacts.

(** The request the later client sends for the logs. *)
Definition app_request (c : QvrApp.Connection) (baseUrl : URL)
    (logType startTime maxResults : Z) : URL :=
  set_RawQuery
    (Encode (QvrApp.Logs_params (QvrApp.sid c) logType startTime maxResults))
    (set_Path (QvrApp.LogsPath c) baseUrl).

(** The request the first client sends for the logs. *)
Definition pro_request (c : QvrPro.Connection) (baseUrl : URL)
    (logType start maxResults : Z) : URL :=
  set_RawQuery
    (Encode (QvrPro.Logs_params (QvrPro.sid c) logType start maxResults))
    (set_Path "/qvrpro/logs/logs" baseUrl).

(** The later client sends one request and returns, whatever comes back. *)
Lemma app_logs_run (E : Env QvrApp.LogsResponse) w baseUrl logType startTime maxResults :
  url_Parse E (QvrApp.url (conn w)) = inl baseUrl ->
  (exists info,
      trace (snd (QvrApp.Logs E logType startTime maxResults w))
      = trace w ++ [EvLog info;
                    EvGet (app_request (conn w) baseUrl logType startTime maxResults)])
  /\ completes (fst (QvrApp.Logs E logType startTime maxResults w)).
Proof.
  destruct w as [c t n k]. cbn [conn trace]. intros Hp.
  unfold QvrApp.Logs, app_request, completes. run. rewrite Hp. run.
  destruct (client_Get E n _) as [[h [d e]] | e | [h [d e]] e']; run;
    try (split; [eexists; rewrite <- app_assoc; reflexivity | eauto]).
  destruct (json_Unmarshal E d) as [resp [err|]]; run;
    (split; [eexists; rewrite <- app_assoc; reflexivity | eauto]).
Qed.

Lemma pro_logs_run (E : Env QvrPro.QvrProLogsResponse) w baseUrl logType start maxResults :
  url_Parse E (QvrPro.url (conn w)) = inl baseUrl ->
  exists info,
    trace (snd (QvrPro.Logs E logType start maxResults w))
    = trace w ++ [EvLog info;
                  EvGet (pro_request (conn w) baseUrl logType start maxResults)].
Proof.
  destruct w as [c t n k]. cbn [conn trace]. intros Hp.
  unfold QvrPro.Logs, pro_request. run. rewrite Hp. run.
  destruct (client_Get E n _) as [[h [d e]] | e | [h [d e]] e']; run;
    try (eexists; rewrite <- app_assoc; reflexivity).
  all: destruct (json_Unmarshal E d) as [resp [err|]]; run;
    eexists; rewrite <- app_assoc; reflexivity.
Qed.

(** A failed request, a base URL that does not parse, or a body the
    decoder rejects: the later client returns the empty list. *)
Lemma app_failure_is_empty (E : Env QvrApp.LogsResponse) w logType startTime maxResults :
  (exists err, url_Parse E (QvrApp.url (conn w)) = inr err)
  \/ (exists g e, answers E w g /\ err_of g = Some e)
  \/ (exists r e, answers E w (GetOk r)
                  /\ snd (json_Unmarshal E (data (body r))) = Some e) ->
  fst (QvrApp.Logs E logType startTime maxResults w) = Ret [].
Proof.
  open_world w. unfold QvrApp.Logs. run.
  intros [[err Hp] | [(g & e & Hg & He) | (r & e & Hg & Hj)]].
  - rewrite Hp. reflexivity.
  - destruct (url_Parse E _); [| reflexivity]. run. rewrite Hg.
    destruct g; [discriminate He | reflexivity | reflexivity].
  - destruct (url_Parse E _); [| reflexivity]. run. rewrite Hg. run.
    destruct r as [h [d e']]. cbn [body data] in Hj.
    destruct (json_Unmarshal E d) as [resp [err|]]; [reflexivity | discriminate].
Qed.

(** The first client returns the empty list when a response came and its
    body is rejected by the decoder. *)
Lemma pro_decode_failure_is_empty (E : Env QvrPro.QvrProLogsResponse) w g r e
    logType start maxResults :
  answers E w g -> response_of g = Some r ->
  snd (json_Unmarshal E (data (body r))) = Some e ->
  fst (QvrPro.Logs E logType start maxResults w) = Ret [].
Proof.
  open_world w. unfold QvrPro.Logs. run. intros Hg Hr Hj.
  destruct (url_Parse E _); [| reflexivity]. run. rewrite Hg.
  destruct g as [r' | e' | r' e']; cbn [response_of] in Hr;
    [injection Hr as -> | discriminate Hr | injection Hr as ->];
    run; destruct r as [h [d e'']]; cbn [body data] in Hj;
    (destruct (json_Unmarshal E d) as [resp [err|]]; [reflexivity | discriminate]).
Qed.

(** The first client takes [response.Body] without looking at the error
    of the request: a request that fails without a response is a panic. *)
Lemma pro_refused_panics (E : Env QvrPro.QvrProLogsResponse) w baseUrl e
    logType start maxResults :
  url_Parse E (QvrPro.url (conn w)) = inl baseUrl ->
  answers E w (GetFailed e) ->
  fst (QvrPro.Logs E logType start maxResults w)
  = Panic "invalid memory address or nil pointer dereference".
Proof.
  open_world w. unfold QvrPro.Logs. run. intros Hp Hg.
  rewrite Hp. run. rewrite Hg. reflexivity.
Qed.

End LogsFacts.

Module Example_logs.

Definition entry (id : Z) (content : string) (app : string) : QvrApp.LogEntry :=
  {| QvrApp.UTCTime := 1600000000 + id; QvrApp.UTCTimeS := EmptyString;
     QvrApp.Content := content; QvrApp.Level := 0; QvrApp.LogID := id;
     QvrApp.LogType := 1; QvrApp.NasIP := "10.0.0.2"; QvrApp.NasName := "nas";
     QvrApp.ServerTime := 1600000000 + id; QvrApp.SourceIP := "10.0.0.9";
     QvrApp.SourceName := EmptyString; QvrApp.Time := EmptyString;
     QvrApp.Timezone := "UTC"; QvrApp.TimezoneOrder := 0;
     QvrApp.User := "admin"; QvrApp.Action := EmptyString; QvrApp.Args := [];
     QvrApp.ChannelID := 0; QvrApp.EventID := 0;
     QvrApp.GlobalChannelID := EmptyString; QvrApp.MainType := 0;
     QvrApp.SubType := 0; QvrApp.SubTypeOrder := 0;
     QvrApp.Application := app |}.

Definition two_items : string := "{code:0,items:[first,second]}".

Definition envelope : QvrApp.LogsResponse :=
  {| QvrApp.Code := 0;
     QvrApp.Items := [entry 1 "first" EmptyString; entry 2 "second" EmptyString];
     QvrApp.Mesg := EmptyString; QvrApp.ResponseItems := 2;
     QvrApp.TotalItems := 2 |}.

(** The decoder on the body of the example; anything else is malformed. *)
Definition json (s : string) : QvrApp.LogsResponse * option error :=
  if String.eqb s two_items then (envelope, None)
  else Example_open.no_json_app s.

Definition app_env (bodyText : string) : Env QvrApp.LogsResponse :=
  Example.env (fun _ => Example.ok bodyText) (fun _ => 0) Example.no_xml json.

Definition elite : World QvrApp.Connection :=
  Example.start
    {| QvrApp.url := "https://nas"; QvrApp.sid := "SID1"; QvrApp.expire := 3600;
       QvrApp.timeout := 3600; QvrApp.qvrApp := QvrApp.QvrElite |}.

End Example_logs.

(** C9: when the body of the logs response decodes to an envelope, [Logs]
    of the later client returns the envelope's entries, in their order,
    each with its [Application] set to the application of the connection. *)
Theorem Logs_returns_entries_annotated :
  forall (E : Env QvrApp.LogsResponse) w baseUrl r resp logType startTime maxResults,
    url_Parse E (QvrApp.url (conn w)) = inl baseUrl ->
    answers E w (GetOk r) ->
    json_Unmarshal E (data (body r)) = (resp, None) ->
    fst (QvrApp.Logs E logType startTime maxResults w)
    = Ret (map (QvrApp.set_Application (QvrApp.qvrApp (conn w))) (QvrApp.Items resp)).
Proof.
  intros E w baseUrl r resp logType startTime maxResults Hp Hg Hj.
  open_world w. unfold QvrApp.Logs. run. rewrite Hp. run. rewrite Hg. run.
  destruct r as [h [d e]]. cbn [body data] in Hj. rewrite Hj. reflexivity.
Qed.

(** Two entries decoded for a [qvrelite] connection. *)
Lemma Logs_returns_entries_annotated_witness :
  fst (QvrApp.Logs (Example_logs.app_env Example_logs.two_items) 0 0 10
         Example_logs.elite)
  = Ret [Example_logs.entry 1 "first" "qvrelite";
         Example_logs.entry 2 "second" "qvrelite"].
Proof.
  apply (Logs_returns_entries_annotated
           (Example_logs.app_env Example_logs.two_items) Example_logs.elite
           Example.nas (Example_open.response Example_logs.two_items)
           Example_logs.envelope 0 0 10);
    [reflexivity | intros ?; reflexivity | reflexivity].
Defined.

(** C7, evaluated where the first client fails it: with the server
    refusing the connection, [Logs] of the first client panics on the nil
    response, while [Logs] of the later client returns the empty list; a
    malformed body gives the empty list in both. *)
Theorem Logs_on_refused_connection :
  fst (QvrPro.Logs Example_session.refusing_pro 0 0 10
         (Example.start Example_session.logged_in_pro))
  = Panic "invalid memory address or nil pointer dereference"
  /\ fst (QvrApp.Logs Example_session.refusing_app 0 0 10
            (Example.start Example_session.logged_in_app)) = Ret []
  /\ fst (QvrPro.Logs (Example_open.pro_env "<html>") 0 0 10
            (Example.start Example_session.logged_in_pro)) = Ret []
  /\ fst (QvrApp.Logs (Example_open.app_env "<html>") 0 0 10
            (Example.start Example_session.logged_in_app)) = Ret [].
Proof. repeat split; vm_compute; reflexivity. Qed.

(** ** The queries of the requests *)

Module QueryFacts.

Lemma lookup_total_empty' k : (∅ : Values) !!! k = [].
Proof. unfold lookup_total, map_lookup_total. now rewrite lookup_empty. Qed.

Lemma lookup_total_Add_same k x (m : Values) : Add k x m !!! k = m !!! k ++ [x].
Proof.
  unfold lookup_total, map_lookup_total at 1.
  now rewrite UrlFacts.lookup_Add_same.
Qed.

Lemma lookup_total_Add_other k k' x (m : Values) :
  k' <> k -> Add k' x m !!! k = m !!! k.
Proof.
  intros Hne. unfold lookup_total, map_lookup_total.
  now rewrite UrlFacts.lookup_Add_other.
Qed.

Lemma lookup_empty' k : (∅ : Values) !! k = None.
Proof. apply lookup_empty. Qed.

Create Rewrite HintDb values.

#[export] Hint Rewrite UrlFacts.lookup_Add_same lookup_total_Add_same
  lookup_empty' lookup_total_empty' : values.
#[export] Hint Rewrite UrlFacts.lookup_Add_other lookup_total_Add_other
  using congruence : values.

Ltac lookups := autorewrite with values; cbn [app]; try reflexivity.

Ltac other_key :=
  let k := fresh "k" in
  let Hk := fresh "Hk" in
  intros k Hk; cbn [In] in Hk;
  repeat match goal with
         | H : ~ (_ \/ _) |- _ => apply Decidable.not_or in H; destruct H
         end;
  now lookups.

Ltac built :=
  repeat apply UrlFacts.no_empty_list_Add; apply UrlFacts.no_empty_list_empty.

(** The parameters of the logs request of the later client: four are
    always there, the log type and the start time only when not zero. *)
Lemma app_Logs_params sid logType startTime maxResults :
  let p := QvrApp.Logs_params sid logType startTime maxResults in
  p !! "sid" = Some [sid]
  /\ p !! "sort_field" = Some ["time"]
  /\ p !! "max_results" = Some [Itoa maxResults]
  /\ p !! "dir" = Some ["ASC"]
  /\ p !! "log_type"
     = (if logType =? 0 then None else Some [Itoa (to_int64 logType)])
  /\ p !! "start_time" = (if startTime =? 0 then None else Some [Itoa startTime])
  /\ (forall k, ~ In k ["sid"; "sort_field"; "max_results"; "dir"; "log_type";
                        "start_time"] -> p !! k = None)
  /\ UrlFacts.no_empty_list p.
Proof.
  cbv zeta. unfold QvrApp.Logs_params, QvrApp.AllLogType.
  rewrite (Z.eqb_sym 0 logType).
  destruct (logType =? 0), (startTime =? 0); cbn [negb];
    (split; [now lookups |]); (split; [now lookups |]);
    (split; [now lookups |]); (split; [now lookups |]);
    (split; [now lookups |]); (split; [now lookups |]);
    (split; [other_key | built]).
Qed.

(** The parameters of the logs request of the first client. *)
Lemma pro_Logs_params sid logType start maxResults :
  let p := QvrPro.Logs_params sid logType start maxResults in
  p !! "sid" = Some [sid]
  /\ p !! "start" = Some [Itoa (to_int64 start)]
  /\ p !! "max_results" = Some [Itoa (to_int64 maxResults)]
  /\ p !! "log_type"
     = (if logType =? 0 then None else Some [Itoa (to_int64 logType)])
  /\ (forall k, ~ In k ["sid"; "start"; "max_results"; "log_type"] -> p !! k = None)
  /\ UrlFacts.no_empty_list p.
Proof.
  cbv zeta. unfold QvrPro.Logs_params, QvrPro.AllLogType.
  rewrite (Z.eqb_sym 0 logType).
  destruct (logType =? 0); cbn [negb];
    (split; [now lookups |]); (split; [now lookups |]);
    (split; [now lookups |]); (split; [now lookups |]);
    (split; [other_key | built]).
Qed.

End QueryFacts.




(** ** The playback flow *)

Module Flow.

(** The command a request carries, read back from its query. *)
Definition cmd_of (u : URL) : option (list string) :=
  fst (ParseQuery (RawQuery u)) !! "cmd".

Lemma cmd_of_request (p : Values) u :
  UrlFacts.no_empty_list p -> cmd_of (set_RawQuery (Encode p) u) = p !! "cmd".
Proof.
  intros Hp. unfold cmd_of, set_RawQuery. cbn [RawQuery].
  now rewrite UrlFacts.ParseQuery_Encode.
Qed.

Ltac branch :=
  match goal with
  | |- context [match url_Parse ?E ?u with _ => _ end] =>
      destruct (url_Parse E u)
  | |- context [match client_Get ?E ?n ?u with _ => _ end] =>
      destruct (client_Get E n u) as [[? [? [?|]]] | ? | [? [? [?|]]] ?]
  | |- context [match strings_Split ?d ?c with _ => _ end] =>
      destruct (strings_Split d c) as [|? [|? [|? ?]]]
  | |- context [Atoi ?v] => destruct (Atoi v) as [? ?]
  | |- context [if ?a =? 0 then _ else _] => destruct (a =? 0)
  | |- context [match errorCodes !! ?c with _ => _ end] =>
      destruct (errorCodes !! c)
  end.

(** How each step reports that it failed. *)
Definition no_session (o : Outcome (string * option error)) : Prop :=
  exists e, o = Ret (EmptyString, e).

Definition not_done (o : Outcome (bool * option error)) : Prop :=
  exists e, o = Ret (false, e).

Definition no_stream (o : Outcome (option error)) : Prop :=
  exists e, o = Ret (Some e).

Definition refused (o : Outcome bool) : Prop := o = Ret false.

Ltac no_request :=
  left; split;
  [ rewrite ?gets_app; cbn [gets]; rewrite ?app_nil_r; reflexivity
  | unfold no_session, not_done, no_stream, refused; eauto ].

Ltac one_request :=
  right; eexists; split;
  [ rewrite ?gets_app; cbn [gets]; rewrite ?app_nil_r; reflexivity
  | rewrite cmd_of_request by QueryFacts.built; now QueryFacts.lookups ].

(** One step of the flow, seen from outside: the connection is left as
    it was; either no request went out and the step failed with the
    result [failed], or exactly one went out, carrying [cmd]. *)
Definition step {C A} (m : M C A) (w : World C) (cmd : string)
    (failed : Outcome A -> Prop) : Prop :=
  conn (snd (m w)) = conn w
  /\ ((gets (trace (snd (m w))) = gets (trace w) /\ failed (fst (m w)))
      \/ exists u, gets (trace (snd (m w))) = gets (trace w) ++ [u]
                   /\ cmd_of u = Some [cmd]).

Lemma app_open (E : Env QvrApp.LogsResponse) channelId startTime w :
  step (QvrApp.CreateSessionId E channelId startTime) w "open" no_session.
Proof.
  destruct w as [c t n k]. unfold step, no_session, QvrApp.CreateSessionId.
  run. branch; run; [| split; [reflexivity | no_request]].
  repeat (branch; run); (split; [reflexivity | one_request]).
Qed.

Lemma app_seek (E : Env QvrApp.LogsResponse) sessionId seekTime w :
  step (QvrApp.PlaySeek E sessionId seekTime) w "seek" not_done.
Proof.
  destruct w as [c t n k].
  unfold step, not_done, QvrApp.PlaySeek, QvrApp.status_line.
  run. branch; run; [| split; [reflexivity | no_request]].
  repeat (branch; run); (split; [reflexivity | one_request]).
Qed.

Lemma app_play (E : Env QvrApp.LogsResponse) sessionId w :
  step (QvrApp.Play E sessionId) w "play" not_done.
Proof.
  destruct w as [c t n k].
  unfold step, not_done, QvrApp.Play, QvrApp.status_line.
  run. branch; run; [| split; [reflexivity | no_request]].
  repeat (branch; run); (split; [reflexivity | one_request]).
Qed.

Lemma pro_open (E : Env QvrPro.QvrProLogsResponse) channelId startTime w :
  step (QvrPro.CreateSessionId E channelId startTime) w "open" no_session.
Proof.
  destruct w as [c t n k]. unfold step, no_session, QvrPro.CreateSessionId.
  run. branch; run; [| split; [reflexivity | no_request]].
  repeat (branch; run); (split; [reflexivity | one_request]).
Qed.

Lemma pro_seek (E : Env QvrPro.QvrProLogsResponse) sessionId seekTime w :
  step (QvrPro.PlaySeek E sessionId seekTime) w "seek" not_done.
Proof.
  destruct w as [c t n k].
  unfold step, not_done, QvrPro.PlaySeek, QvrPro.status_line.
  run. branch; run; [| split; [reflexivity | no_request]].
  repeat (branch; run); (split; [reflexivity | one_request]).
Qed.

Lemma pro_play (E : Env QvrPro.QvrProLogsResponse) sessionId w :
  step (QvrPro.play E sessionId) w "play" not_done.
Proof.
  destruct w as [c t n k].
  unfold step, not_done, QvrPro.play, QvrPro.status_line.
  run. branch; run; [| split; [reflexivity | no_request]].
  repeat (branch; run); (split; [reflexivity | one_request]).
Qed.

(** Copying the header and printing the body send no request and leave
    the connection alone. *)
Lemma copy_header_quiet h (w : World QvrApp.Connection) :
  gets (trace (snd (QvrApp.copy_header h w))) = gets (trace w)
  /\ conn (snd (QvrApp.copy_header h w)) = conn w.
Proof.
  revert w. induction h as [|[key v] h IH]; intros w; [split; reflexivity |].
  unfold QvrApp.copy_header; fold QvrApp.copy_header.
  destruct w as [c t n k]. run.
  destruct v as [|v0 v]; run; [split; reflexivity |].
  match goal with
  | |- context [QvrApp.copy_header h ?w'] =>
      destruct (IH w') as [Hg Hc]; destruct (QvrApp.copy_header h w') as [o w'']
  end.
  cbn [snd] in Hg, Hc. cbn [trace conn] in Hg, Hc.
  rewrite gets_app in Hg. cbn [gets] in Hg. rewrite app_nil_r in Hg.
  destruct o; run; auto.
Qed.

Lemma print_chunks_quiet l z e (w : World QvrPro.Connection) :
  gets (trace (snd (QvrPro.print_chunks l z e w))) = gets (trace w)
  /\ conn (snd (QvrPro.print_chunks l z e w)) = conn w.
Proof.
  revert w. induction l as [|x l IH]; intros w; destruct w as [c t n k].
  - unfold QvrPro.print_chunks. destruct e; run;
      rewrite ?gets_app; cbn [gets]; rewrite ?app_nil_r; auto.
  - unfold QvrPro.print_chunks; fold QvrPro.print_chunks. run.
    match goal with
    | |- context [QvrPro.print_chunks l z e ?w'] =>
        destruct (IH w') as [Hg Hc]; destruct (QvrPro.print_chunks l z e w') as [o w'']
    end.
    cbn [snd] in Hg, Hc. cbn [trace conn] in Hg, Hc.
    rewrite gets_app in Hg. cbn [gets] in Hg. rewrite app_nil_r in Hg.
    destruct o; run; auto.
Qed.

Lemma app_get (E : Env QvrApp.LogsResponse) sessionId dataType w :
  step (QvrApp.PlayGet E sessionId dataType) w "get" no_stream.
Proof.
  destruct w as [c t n k].
  unfold step, no_stream, QvrApp.PlayGet, QvrApp.io_Copy.
  run. branch; run; [| split; [reflexivity | no_request]].
  destruct (client_Get E n _) as [[h b] | e | [h b] e];
    run; try (split; [reflexivity | one_request]).
  match goal with
  | |- context [QvrApp.copy_header h ?w'] =>
      destruct (copy_header_quiet h w') as [Hg Hc];
      destruct (QvrApp.copy_header h w') as [o [c' t' n' k']]
  end.
  cbn [snd trace conn] in Hg, Hc. subst c'.
  rewrite !gets_app in Hg. cbn [gets] in Hg. rewrite app_nil_r in Hg.
  destruct o; run; try (copy_cases; run);
    (split; [reflexivity |]); right; eexists;
    (split; [rewrite ?gets_app; cbn [gets]; rewrite ?app_nil_r; exact Hg
            | rewrite cmd_of_request by QueryFacts.built; now QueryFacts.lookups]).
Qed.

Lemma pro_get (E : Env QvrPro.QvrProLogsResponse) sessionId w :
  step (QvrPro.PlayGet E sessionId) w "get" refused.
Proof.
  destruct w as [c t n k].
  unfold step, refused, QvrPro.PlayGet, QvrPro.print_body.
  run. branch; run; [| split; [reflexivity | no_request]].
  destruct (client_Get E n _) as [[h b] | e | [h b] e];
    run; try (split; [reflexivity | one_request]).
  all: match goal with
  | |- context [QvrPro.print_chunks ?l ?z ?e ?w'] =>
      destruct (print_chunks_quiet l z e w') as [Hg Hc];
      destruct (QvrPro.print_chunks l z e w') as [o [c' t' n' k']]
  end.
  all: cbn [snd trace conn] in Hg, Hc; subst c';
    rewrite !gets_app in Hg; cbn [gets] in Hg; rewrite app_nil_r in Hg.
  all: destruct o; run; (split; [reflexivity |]); right; eexists;
    (split; [exact Hg
            | rewrite cmd_of_request by QueryFacts.built; now QueryFacts.lookups]).
Qed.

Lemma bind_eq {C A B} (m : M C A) (k : A -> M C B) w o w1 :
  m w = (o, w1) ->
  bind m k w
  = match o with
    | Ret a => k a w1
    | Panic msg => (Panic msg, w1)
    | Exit code => (Exit code, w1)
    end.
Proof. intros H. unfold bind. rewrite H. now destruct o. Qed.

(** The commands of the flow, in its order. *)
Definition order : list (option (list string)) :=
  [Some ["open"]; Some ["seek"]; Some ["play"]; Some ["get"]].

(** [reqs] are the first requests of the flow, in order. *)
Definition in_order (reqs : list URL) : Prop :=
  exists rest, order = map cmd_of reqs ++ rest.

Ltac use_step S :=
  let u := fresh "u" in
  let Hg := fresh "Hg" in
  let Hc := fresh "Hc" in
  destruct S as [? [[Hg ?] | (u & Hg & Hc)]]; cbn [fst snd] in *.

Ltac absurd_in :=
  let Hin := fresh "Hin" in
  intros Hin; cbn [map In] in Hin;
  repeat match goal with
         | H : cmd_of _ = _ |- _ => rewrite H in Hin
         end;
  exfalso; intuition discriminate.

Ltac prefix :=
  unfold in_order, order; cbn [map];
  repeat match goal with
         | H : cmd_of _ = _ |- _ => rewrite H
         end;
  eexists; reflexivity.

Ltac absurd_run := intros; exfalso; congruence.

Lemma step_weaken {C A} (m : M C A) w cmd (failed : Outcome A -> Prop) :
  step m w cmd failed -> step m w cmd (fun _ => True).
Proof. intros [Hc [[Hg _] | H]]; (split; [exact Hc |]); [left | right]; auto. Qed.

(** The flow that [Video] and [PlayFrame] both are, over its four steps:
    [fail] makes the result of a failed step, [finish] that of the last
    one. *)
Section Order.
Context {C R G : Type}.
Variable open : M C (string * option error).
Variables seek play : string -> M C (bool * option error).
Variable get : string -> M C G.
Variable fail : option error -> R.
Variable finish : G -> M C R.

Definition flow : M C R :=
  r <- open ;;
  let '(sessionId, err) := r in
  if Z.of_nat (String.length sessionId) =? 0 then ret (fail err)
  else
    r <- seek sessionId ;;
    let '(success, err) := r in
    if negb success then ret (fail err)
    else
      r <- play sessionId ;;
      let '(success, err) := r in
      if negb success then ret (fail err)
      else
        g <- get sessionId ;;
        finish g.

(** The open step gave a session id. *)
Definition opened (w : World C) : Prop :=
  exists sessionId err w1,
    open w = (Ret (sessionId, err), w1) /\ sessionId <> EmptyString.

(** The open step gave a session id and the seek step succeeded. *)
Definition sought (w : World C) : Prop :=
  exists sessionId err w1 err' w2,
    open w = (Ret (sessionId, err), w1)
    /\ seek sessionId w1 = (Ret (true, err'), w2).

(** ... and the play step succeeded as well. *)
Definition played (w : World C) : Prop :=
  exists sessionId err w1 err' w2 err'' w3,
    open w = (Ret (sessionId, err), w1)
    /\ seek sessionId w1 = (Ret (true, err'), w2)
    /\ play sessionId w2 = (Ret (true, err''), w3).

(** What the claim asks of a run [run w] of the flow: the requests it
    sends are the first commands of the order; a seek is sent only
    after the open step gave a session id, a play only after a seek
    that succeeded, a get only after a play that succeeded; and a
    failed step ends the run there, with that step's error; after
    three steps that succeeded the result is that of the get step. *)
Definition ordered (run : M C R) (w : World C) : Prop :=
  exists reqs,
    gets (trace (snd (run w))) = gets (trace w) ++ reqs
    /\ in_order reqs
    /\ (In (Some ["seek"]) (map cmd_of reqs) -> opened w)
    /\ (In (Some ["play"]) (map cmd_of reqs) -> sought w)
    /\ (In (Some ["get"]) (map cmd_of reqs) -> played w)
    /\ (forall err w1,
          open w = (Ret (EmptyString, err), w1) ->
          run w = (Ret (fail err), w1))
    /\ (forall sessionId err w1 err' w2,
          open w = (Ret (sessionId, err), w1) ->
          sessionId <> EmptyString ->
          seek sessionId w1 = (Ret (false, err'), w2) ->
          run w = (Ret (fail err'), w2))
    /\ (forall sessionId err w1 err' w2 err'' w3,
          open w = (Ret (sessionId, err), w1) ->
          sessionId <> EmptyString ->
          seek sessionId w1 = (Ret (true, err'), w2) ->
          play sessionId w2 = (Ret (false, err''), w3) ->
          run w = (Ret (fail err''), w3))
    /\ (forall sessionId err w1 err' w2 err'' w3,
          open w = (Ret (sessionId, err), w1) ->
          sessionId <> EmptyString ->
          seek sessionId w1 = (Ret (true, err'), w2) ->
          play sessionId w2 = (Ret (true, err''), w3) ->
          run w = bind (get sessionId) finish w3).

Hypothesis open_step : forall w, step open w "open" no_session.
Hypothesis seek_step : forall s w, step (seek s) w "seek" not_done.
Hypothesis play_step : forall s w, step (play s) w "play" not_done.
Hypothesis get_step : forall s w, step (get s) w "get" (fun _ => True).
Hypothesis finish_pure : forall g w, snd (finish g w) = w.

Ltac same_run :=
  intros; simplify_eq;
  repeat match goal with
         | H : ?x = _, H' : ?x = _ |- _ => rewrite H in H'; simplify_eq
         end;
  try reflexivity; try congruence;
  try (unfold bind;
       repeat match goal with
              | H : ?x = _ |- context [?x] => rewrite H
              end;
       reflexivity).

Ltac after_step :=
  unfold opened, sought, played;
  first [ absurd_in
        | intros _; repeat eexists; first [eassumption | discriminate] ].

Ltac leaf reqs :=
  exists reqs;
  split; [cbn [snd]; rewrite ?finish_pure;
          repeat match goal with
                 | H : gets (trace _) = _ |- _ => rewrite H
                 end;
          rewrite <- ?app_assoc, ?app_nil_r; reflexivity |];
  split; [prefix |];
  split; [after_step |]; split; [after_step |]; split; [after_step |];
  split; [same_run |]; split; [same_run |]; split; same_run.

Lemma flow_ordered w : ordered flow w.
Proof.
  unfold ordered, flow.
  pose proof (open_step w) as S1. unfold step in S1.
  destruct (open w) as [o1 w1] eqn:E1. rewrite !(bind_eq _ _ _ _ _ E1).
  use_step S1.
  - (* the open step sent nothing, and failed *)
    match goal with H : no_session _ |- _ => destruct H as [e ->] end.
    change (Z.of_nat (String.length EmptyString) =? 0) with true. unfold ret. cbv beta iota. leaf (@nil URL).
  - destruct o1 as [[[|a sid] e1] | msg | code];
      [ change (Z.of_nat (String.length EmptyString) =? 0) with true; unfold ret; cbv beta iota; leaf [u]
      | | leaf [u] | leaf [u] ].
    change (Z.of_nat (String.length (String a sid)) =? 0) with false.
    cbv iota.
    pose proof (seek_step (String a sid) w1) as S2. unfold step in S2.
    destruct (seek (String a sid) w1) as [o2 w2] eqn:E2.
    rewrite !(bind_eq _ _ _ _ _ E2).
    use_step S2.
    + match goal with H : not_done _ |- _ => destruct H as [e ->] end.
      cbn [negb]. unfold ret. cbv beta iota. leaf [u].
    + destruct o2 as [[[|] e2] | msg | code];
        [ | cbn [negb]; unfold ret; cbv beta iota; leaf [u; u0] | leaf [u; u0] | leaf [u; u0] ].
      cbn [negb]. cbv iota.
      pose proof (play_step (String a sid) w2) as S3. unfold step in S3.
      destruct (play (String a sid) w2) as [o3 w3] eqn:E3.
      rewrite !(bind_eq _ _ _ _ _ E3).
      use_step S3.
      * match goal with H : not_done _ |- _ => destruct H as [e ->] end.
        cbn [negb]. unfold ret. cbv beta iota. leaf [u; u0].
      * destruct o3 as [[[|] e3] | msg | code];
          [ | cbn [negb]; unfold ret; cbv beta iota; leaf [u; u0; u1]
            | leaf [u; u0; u1] | leaf [u; u0; u1] ].
        cbn [negb]. cbv iota.
        pose proof (get_step (String a sid) w3) as S4. unfold step in S4.
        destruct (get (String a sid) w3) as [o4 w4] eqn:E4.
        rewrite !(bind_eq _ _ _ _ _ E4).
        use_step S4.
        -- destruct o4; leaf [u; u0; u1].
        -- destruct o4; leaf [u; u0; u1; u2].
Qed.

End Order.

End Flow.

Module Example_flow.

Definition session_not_found : string :=
  "header" +:+ nl +:+ Itoa (convertHexToInt "0x93010202") +:+ nl.

(** The server opens the session and then fails the seek. *)
Definition get (n : nat) : GetResult :=
  match n with
  | O => Example.ok open_ok_body
  | _ => Example.ok session_not_found
  end.

Definition pro_env : Env QvrPro.QvrProLogsResponse :=
  Example.env get (fun _ => 0) Example.no_xml Example_open.no_json_pro.

Definition app_env : Env QvrApp.LogsResponse :=
  Example.env get (fun _ => 0) Example.no_xml Example_open.no_json_app.

(** The server opens the session and then cannot be reached. *)
Definition get_then_refused (n : nat) : GetResult :=
  match n with
  | O => Example.ok open_ok_body
  | _ => Example.refused
  end.

Definition pro_env_refused : Env QvrPro.QvrProLogsResponse :=
  Example.env get_then_refused (fun _ => 0) Example.no_xml Example_open.no_json_pro.

Definition app_env_refused : Env QvrApp.LogsResponse :=
  Example.env get_then_refused (fun _ => 0) Example.no_xml Example_open.no_json_app.

End Example_flow.

(** X20: in [Video] and in [PlayFrame] the requests go out in the order
    open, seek, play, get, as far as they go; the seek request is sent only
    after [CreateSessionId] returned a session id that is not empty, the
    play request only after a seek that returned [true], the get request
    only after a play that returned [true]; a step that returns its
    failure value (the empty session id, [false]) ends the operation in
    the world that step left, with the error value that step returned
    beside it, be it nil; after three steps that succeeded the operation
    ends as the get step does.  Nothing is said here of a step that
    panics: then the operation does not return. *)
Theorem playback_flow_in_order :
  (forall (E : Env QvrPro.QvrProLogsResponse) w channelId seekTime,
      Flow.ordered (QvrPro.CreateSessionId E channelId seekTime)
        (fun sessionId => QvrPro.PlaySeek E sessionId seekTime)
        (QvrPro.play E)
        (QvrPro.PlayGet E)
        (fun err => (None, err))
        (fun success : bool =>
           if negb success
           then ret (None, Some "unable to get play data")
           else ret (Some not_finished, None))
        (QvrPro.Video E channelId seekTime) w)
  /\ (forall (E : Env QvrApp.LogsResponse) w channelId seekTime,
      Flow.ordered (QvrApp.CreateSessionId E channelId seekTime)
        (fun sessionId => QvrApp.PlaySeek E sessionId seekTime)
        (QvrApp.Play E)
        (fun sessionId => QvrApp.PlayGet E sessionId QvrApp.DataTypeJPeg)
        (fun err => err)
        (fun err => ret err)
        (QvrApp.PlayFrame E channelId seekTime) w).
Proof.
  split; intros E w channelId seekTime.
  - apply (Flow.flow_ordered
             (QvrPro.CreateSessionId E channelId seekTime)
             (fun sessionId => QvrPro.PlaySeek E sessionId seekTime)
             (QvrPro.play E) (QvrPro.PlayGet E) (fun err => (None, err))
             (fun success : bool =>
                if negb success
                then ret (None, Some "unable to get play data")
                else ret (Some not_finished, None))).
    + intros w'. apply Flow.pro_open.
    + intros s w'. apply Flow.pro_seek.
    + intros s w'. apply Flow.pro_play.
    + intros s w'. eapply Flow.step_weaken, Flow.pro_get.
    + intros [] w'; reflexivity.
  - apply (Flow.flow_ordered
             (QvrApp.CreateSessionId E channelId seekTime)
             (fun sessionId => QvrApp.PlaySeek E sessionId seekTime)
             (QvrApp.Play E)
             (fun sessionId => QvrApp.PlayGet E sessionId QvrApp.DataTypeJPeg)
             (fun err => err) (fun err => ret err)).
    + intros w'. apply Flow.app_open.
    + intros s w'. apply Flow.app_seek.
    + intros s w'. apply Flow.app_play.
    + intros s w'. eapply Flow.step_weaken, Flow.app_get.
    + intros g w'; reflexivity.
Qed.

(** The server opens the session and rejects the seek as "session not
    found": [PlayFrame] returns that error. *)
Lemma playback_flow_in_order_witness :
  fst (QvrApp.PlayFrame Example_flow.app_env "cam1" 0 Example_open.app_world)
  = Ret (Some "session not found").
Proof.
  destruct (proj2 playback_flow_in_order Example_flow.app_env
              Example_open.app_world "cam1" 0)
    as (reqs & _ & _ & _ & _ & _ & _ & Hseek & _).
  rewrite (Hseek "SESSION123" None
             (snd (QvrApp.CreateSessionId Example_flow.app_env "cam1" 0
                     Example_open.app_world))
             (Some "session not found")
             (snd (QvrApp.PlaySeek Example_flow.app_env "SESSION123" 0
                     (snd (QvrApp.CreateSessionId Example_flow.app_env "cam1" 0
                             Example_open.app_world)))));
    [reflexivity | vm_compute; reflexivity | discriminate | vm_compute; reflexivity].
Defined.

(** A seek that fails: neither the play nor the get request goes out. *)
Example seek_failure_stops_the_flow :
  map Flow.cmd_of
    (gets (trace (snd (QvrApp.PlayFrame Example_flow.app_env "cam1" 0
                         Example_open.app_world))))
  = [Some ["open"]; Some ["seek"]]
  /\ map Flow.cmd_of
       (gets (trace (snd (QvrPro.Video Example_flow.pro_env "cam1" 0
                            Example_open.pro_world))))
     = [Some ["open"]; Some ["seek"]]
  /\ fst (QvrPro.Video Example_flow.pro_env "cam1" 0 Example_open.pro_world)
     = Ret (None, Some "session not found").
Proof. repeat split; vm_compute; reflexivity. Qed.

(** The error the open step returns is nil whenever the base URL parses:
    a rejected open makes [PlayFrame] return nil, and [Video] a nil pair. *)
Example open_rejected_returns_nil :
  fst (QvrApp.PlayFrame (Example_open.app_env body_sid_failed) "cam1" 0
         Example_open.app_world) = Ret None
  /\ fst (QvrPro.Video (Example_open.pro_env body_sid_failed) "cam1" 0
            Example_open.pro_world) = Ret (None, None).
Proof. split; vm_compute; reflexivity. Qed.

(** C3, evaluated where the code fails it.  The order of the steps holds
    on these runs as on all: after an open step that fails no seek is
    sent, after a seek that fails no play.  But the operation does not
    return the first failure's error.  When the server rejects the open
    step with the status of "sid authentication failed", the message is
    logged and [PlayFrame] returns a nil error, [Video] nil bytes and a nil
    error.  When the server opens the session and then cannot be reached,
    [PlayFrame] returns the error of the seek request, while [Video] of
    the first client, whose seek step does not look at that error, panics
    on the nil response. *)
Theorem playback_flow_loses_the_failure :
  (fst (QvrApp.PlayFrame (Example_open.app_env body_sid_failed) "cam1" 0
          Example_open.app_world) = Ret None
   /\ map Flow.cmd_of
        (gets (trace (snd (QvrApp.PlayFrame (Example_open.app_env body_sid_failed)
                             "cam1" 0 Example_open.app_world))))
      = [Some ["open"]]
   /\ In "sid authentication failed"
        (logged (trace (snd (QvrApp.PlayFrame (Example_open.app_env body_sid_failed)
                               "cam1" 0 Example_open.app_world)))))
  /\ (fst (QvrPro.Video (Example_open.pro_env body_sid_failed) "cam1" 0
             Example_open.pro_world) = Ret (None, None)
      /\ map Flow.cmd_of
           (gets (trace (snd (QvrPro.Video (Example_open.pro_env body_sid_failed)
                                "cam1" 0 Example_open.pro_world))))
         = [Some ["open"]]
      /\ In "sid authentication failed"
           (logged (trace (snd (QvrPro.Video (Example_open.pro_env body_sid_failed)
                                  "cam1" 0 Example_open.pro_world)))))
  /\ (fst (QvrApp.PlayFrame Example_flow.app_env_refused "cam1" 0
             Example_open.app_world) = Ret (Some "connection refused")
      /\ map Flow.cmd_of
           (gets (trace (snd (QvrApp.PlayFrame Example_flow.app_env_refused
                                "cam1" 0 Example_open.app_world))))
         = [Some ["open"]; Some ["seek"]])
  /\ (fst (QvrPro.Video Example_flow.pro_env_refused "cam1" 0
             Example_open.pro_world)
      = Panic "invalid memory address or nil pointer dereference"
      /\ map Flow.cmd_of
           (gets (trace (snd (QvrPro.Video Example_flow.pro_env_refused
                                "cam1" 0 Example_open.pro_world))))
         = [Some ["open"]; Some ["seek"]]).
Proof.
  split; [| split; [| split]].
  - split; [vm_compute; reflexivity |].
    split; [vm_compute; reflexivity |]. vm_compute. auto.
  - split; [vm_compute; reflexivity |].
    split; [vm_compute; reflexivity |]. vm_compute. auto.
  - split; vm_compute; reflexivity.
  - split; vm_compute; reflexivity.
Qed.

(** * Further properties of the two clients *)

(** ** The table of error codes *)

Module TableFacts.

Lemma to_int32_range n : - 2 ^ 31 <= to_int32 n < 2 ^ 31.
Proof.
  unfold to_int32.
  pose proof (Z.mod_pos_bound (n + 2 ^ 31) (2 ^ 32) ltac:(lia)). lia.
Qed.

(** The keys, as [convertHexToInt] computes them. *)
Definition keys : list Z := map (fun a => convertHexToInt (fst a)) Package.assignments.

Lemma keys_negative : Forall (fun k => k < 0) keys.
Proof. unfold keys. vm_compute. repeat constructor. Qed.

Lemma lookup_fold_assign l : forall (m : gmap Z string) code,
  Forall (fun k => k <> code) (map (fun a => convertHexToInt (fst a)) l) ->
  fold_left Package.assign l m !! code = m !! code.
Proof.
  induction l as [|a l IH]; intros m code Hne; [reflexivity |].
  cbn [map] in Hne. apply Forall_cons in Hne as [Ha Hl].
  cbn [fold_left]. rewrite IH by exact Hl.
  unfold Package.assign. now rewrite lookup_insert_ne.
Qed.

(** The table the methods read is the one the assignments of [Create]
    build. *)
Lemma table_of_assignments : fold_left Package.assign Package.assignments ∅ = errorCodes.
Proof.
  apply map_eq. intros code. unfold errorCodes, Package.assignments.
  cbn [fold_left Package.assign fst snd]. reflexivity.
Qed.

Lemma no_key_nonnegative code : 0 <= code -> errorCodes !! code = None.
Proof.
  intros Hc. rewrite <- table_of_assignments.
  rewrite lookup_fold_assign; [apply lookup_empty |].
  fold keys. eapply Forall_impl; [apply keys_negative |].
  cbv beta. intros k Hk. lia.
Qed.

End TableFacts.

(** X1: whatever the string, [convertHexToInt] gives a value that fits a
    signed 32-bit integer, the C [int] it passes through; a literal from
    0x80000000 on, as all those of the table are, comes out negative. *)
Theorem convertHexToInt_fits_int32 :
  (forall hexString, - 2 ^ 31 <= convertHexToInt hexString < 2 ^ 31)
  /\ Forall (fun k => - 2 ^ 31 <= k < 0) TableFacts.keys.
Proof.
  split.
  - intros s. apply TableFacts.to_int32_range.
  - unfold TableFacts.keys. vm_compute. repeat constructor; discriminate.
Qed.

Lemma parsed_status_nonnegative b :
  (2 <= length (lines b))%nat -> 0 < status b ->
  StatusStep.parsed b = Ret (false, None).
Proof.
  unfold StatusStep.parsed, status.
  destruct (lines b) as [|v0 [|v1 rest]]; cbn [length nth]; try lia.
  intros _ Hpos.
  destruct (Z.eqb_spec (fst (Atoi v1)) 0) as [Hz | _]; [lia |].
  now rewrite TableFacts.no_key_nonnegative by lia.
Qed.

(** X2: a status above zero is never translated.  The keys of the table
    being negative, a seek or play response whose second line is a
    positive number makes the step fail with a nil error, and the open step
    fail without a message in the log. *)
Theorem positive_status_has_no_message :
  (forall E w r channelId sessionId t,
      pro_served E w r ->
      (2 <= length (lines (data (body r))))%nat ->
      0 < status (data (body r)) ->
      fst (QvrPro.PlaySeek E sessionId t w) = Ret (false, None)
      /\ fst (QvrPro.play E sessionId w) = Ret (false, None)
      /\ fst (QvrPro.CreateSessionId E channelId t w) = Ret (EmptyString, None)
      /\ length (logged (trace (snd (QvrPro.CreateSessionId E channelId t w))))
         = S (length (logged (trace w))))
  /\ (forall E w r channelId sessionId t,
      app_served E w r ->
      (2 <= length (lines (data (body r))))%nat ->
      0 < status (data (body r)) ->
      fst (QvrApp.PlaySeek E sessionId t w) = Ret (false, None)
      /\ fst (QvrApp.Play E sessionId w) = Ret (false, None)
      /\ fst (QvrApp.CreateSessionId E channelId t w) = Ret (EmptyString, None)
      /\ length (logged (trace (snd (QvrApp.CreateSessionId E channelId t w))))
         = S (length (logged (trace w)))).
Proof.
  split; intros E w r channelId sessionId t ([baseUrl Hp] & Hg & Hr) Hlen Hpos.
  - rewrite (StatusStep.pro_seek_parsed E w baseUrl (GetOk r) r sessionId t Hp Hg eq_refl).
    rewrite (StatusStep.pro_play_parsed E w baseUrl (GetOk r) r sessionId Hp Hg eq_refl).
    destruct (OpenStep.pro_open_run E w baseUrl r channelId t Hp Hg Hr)
      as [-> (info & u & ->)].
    destruct (parsed_open_nonzero (data (body r)) Hlen ltac:(lia)) as [-> ->].
    rewrite TableFacts.no_key_nonnegative by lia.
    rewrite parsed_status_nonnegative by assumption.
    repeat split. rewrite !logged_app. cbn [logged map app].
    rewrite length_app. cbn [length]. lia.
  - rewrite (StatusStep.app_seek_parsed E w baseUrl r sessionId t Hp Hg).
    rewrite (StatusStep.app_play_parsed E w baseUrl r sessionId Hp Hg).
    destruct (OpenStep.app_open_run E w baseUrl r channelId t Hp Hg Hr)
      as [-> (info & u & ->)].
    destruct (parsed_open_nonzero (data (body r)) Hlen ltac:(lia)) as [-> ->].
    rewrite TableFacts.no_key_nonnegative by lia.
    rewrite parsed_status_nonnegative by assumption.
    repeat split. rewrite !logged_app. cbn [logged map app].
    rewrite length_app. cbn [length]. lia.
Qed.

Definition body_status_5 : string := "header" +:+ nl +:+ "5" +:+ nl.

(** The status 5. *)
Lemma positive_status_has_no_message_witness :
  fst (QvrApp.PlaySeek (Example_open.app_env body_status_5) "SESSION123" 0
         Example_open.app_world) = Ret (false, None).
Proof.
  apply (proj2 positive_status_has_no_message
           (Example_open.app_env body_status_5) Example_open.app_world
           (Example_open.response body_status_5) "cam1" "SESSION123" 0).
  - apply Example_open.app_env_served.
  - vm_compute. lia.
  - vm_compute. reflexivity.
Defined.

(** ** [Create]: the first call wins *)

Module CreateFacts.

(** A run of calls of [Create], each given the connection its arguments
    describe: what the calls return, and the variables afterwards. *)
Fixpoint calls {C} (l : list C) (s : Package.State C)
  : list (option C) * Package.State C :=
  match l with
  | [] => ([], s)
  | fresh :: l' =>
      let '(r, s') := Package.Create_with fresh s in
      let '(rs, s'') := calls l' s' in
      (r :: rs, s'')
  end.

Lemma calls_after_first {C} (first : C) l :
  calls l {| Package.singletonConnection := Some first;
             Package.onceConnection := true;
             Package.errorCodes := errorCodes |}
  = (repeat (Some first) (length l),
     {| Package.singletonConnection := Some first;
        Package.onceConnection := true;
        Package.errorCodes := errorCodes |}).
Proof.
  induction l as [|c l IH]; [reflexivity |].
  cbn [calls Package.Create_with Package.onceConnection
       Package.singletonConnection length repeat].
  now rewrite IH.
Qed.

End CreateFacts.

(** X3: of any run of calls of [Create] on a fresh program, every call
    returns the connection the first call built, whatever the later
    arguments; afterwards that connection is the singleton and the table
    of error codes is the one the methods read. *)
Theorem Create_first_call_wins :
  forall (C : Type) (first : C) (later : list C),
    CreateFacts.calls (first :: later) Package.initial
    = (repeat (Some first) (S (length later)),
       {| Package.singletonConnection := Some first;
          Package.onceConnection := true;
          Package.errorCodes := errorCodes |}).
Proof.
  intros C first later.
  cbn [CreateFacts.calls Package.Create_with Package.onceConnection
       Package.singletonConnection Package.initial repeat].
  rewrite TableFacts.table_of_assignments.
  now rewrite CreateFacts.calls_after_first.
Qed.

(** Two calls of the later client's [Create] with different URLs. *)
Example Create_twice :
  let '(first, s) :=
    Package.Create_app "https://nas" QvrApp.QvrPro 3600 Package.initial in
  let '(second, _) :=
    Package.Create_app "https://other" QvrApp.QvrElite 60 s in
  first = Some (QvrApp.Create "https://nas" QvrApp.QvrPro 3600)
  /\ second = first.
Proof. vm_compute. split; reflexivity. Qed.

(** ** [QvrApplicationParse] *)

Module ParseFacts.

Lemma map_lower_ascii s : isASCII (map_bytes lower_byte s) = isASCII s.
Proof.
  induction s as [|c s IH]; [reflexivity |].
  cbn [map_bytes isASCII]. rewrite IH. f_equal.
  destruct c as [[] [] [] [] [] [] [] []]; reflexivity.
Qed.

Lemma map_lower_twice s :
  map_bytes lower_byte (map_bytes lower_byte s) = map_bytes lower_byte s.
Proof.
  induction s as [|c s IH]; [reflexivity |].
  cbn [map_bytes]. rewrite IH. f_equal.
  destruct c as [[] [] [] [] [] [] [] []]; reflexivity.
Qed.

End ParseFacts.

(** X4: [QvrApplicationParse] returns one of the three applications; it
    gives each of them back when handed its own name, so parsing twice is
    parsing once; and on ASCII input it looks at the letters only up to
    their case, whatever [unicode.ToLower] does elsewhere. *)
Theorem QvrApplicationParse_values :
  forall (Map_ToLower : string -> string) (app : string),
    (QvrApp.QvrApplicationParse Map_ToLower app = QvrApp.QvrPro
     \/ QvrApp.QvrApplicationParse Map_ToLower app = QvrApp.QvrElite
     \/ QvrApp.QvrApplicationParse Map_ToLower app = QvrApp.QvrUnknown)
    /\ QvrApp.QvrApplicationParse Map_ToLower
         (QvrApp.QvrApplicationParse Map_ToLower app)
       = QvrApp.QvrApplicationParse Map_ToLower app
    /\ (isASCII app = true ->
        QvrApp.QvrApplicationParse Map_ToLower (map_bytes lower_byte app)
        = QvrApp.QvrApplicationParse Map_ToLower app
        /\ (QvrApp.QvrApplicationParse Map_ToLower app = QvrApp.QvrPro
            <-> map_bytes lower_byte app = "qvrpro")
        /\ (QvrApp.QvrApplicationParse Map_ToLower app = QvrApp.QvrElite
            <-> map_bytes lower_byte app = "qvrelite")).
Proof.
  intros M app.
  assert (Hthree :
            QvrApp.QvrApplicationParse M app = QvrApp.QvrPro
            \/ QvrApp.QvrApplicationParse M app = QvrApp.QvrElite
            \/ QvrApp.QvrApplicationParse M app = QvrApp.QvrUnknown).
  { unfold QvrApp.QvrApplicationParse. cbv zeta.
    destruct (String.eqb _ "qvrpro"); [auto |].
    destruct (String.eqb _ "qvrelite"); auto. }
  split; [exact Hthree |]. split.
  - destruct Hthree as [-> | [-> | ->]]; reflexivity.
  - intros Ha. unfold QvrApp.QvrApplicationParse, strings_ToLower. cbv zeta.
    rewrite ParseFacts.map_lower_ascii, Ha, ParseFacts.map_lower_twice.
    split; [reflexivity |].
    destruct (String.eqb_spec (map_bytes lower_byte app) "qvrpro") as [He | Hne].
    + split; [tauto |]. rewrite He. split; [discriminate | discriminate].
    + split; [split; [| contradiction] |].
      * destruct (String.eqb _ "qvrelite"); discriminate.
      * destruct (String.eqb_spec (map_bytes lower_byte app) "qvrelite");
          split; try tauto; discriminate.
Qed.

(** The name in capitals. *)
Lemma QvrApplicationParse_values_witness :
  QvrApp.QvrApplicationParse (fun s => s) "QVRElite" = QvrApp.QvrElite.
Proof.
  apply (proj2 (proj2 (proj2 (proj2 (proj2
           (QvrApplicationParse_values (fun s => s) "QVRElite")) eq_refl)))).
  reflexivity.
Defined.

(** ** The session is touched by [Login] and [Logout] only *)

Module Keeps.

(** The action leaves the connection as it found it. *)
Definition keeps {C A} (m : M C A) : Prop :=
  forall w, conn (snd (m w)) = conn w.

Section Primitives.
Context {J C : Type} (E : Env J).

Lemma keeps_ret {A} (a : A) : keeps (C := C) (ret a).
Proof. intros w. reflexivity. Qed.

Lemma keeps_panic {A} msg : keeps (C := C) (A := A) (panic msg).
Proof. intros w. reflexivity. Qed.

Lemma keeps_exit {A} code : keeps (C := C) (A := A) (os_Exit code).
Proof. intros w. reflexivity. Qed.

Lemma keeps_emit e : keeps (C := C) (emit e).
Proof. intros w. reflexivity. Qed.

Lemma keeps_get_conn : keeps (C := C) get_conn.
Proof. intros w. reflexivity. Qed.

Lemma keeps_time_Now : keeps (C := C) (time_Now E).
Proof. intros w. reflexivity. Qed.

Lemma keeps_http_Get u : keeps (C := C) (http_Get E u).
Proof. intros w. reflexivity. Qed.

Lemma keeps_deref g : keeps (C := C) (deref g).
Proof. intros w. unfold deref. now destruct (response_of g). Qed.

Lemma keeps_index {A} (v : list A) i : keeps (C := C) (index v i).
Proof. intros w. unfold index. now destruct (nth_error v i). Qed.

Lemma keeps_bind {A B} (m : M C A) (k : A -> M C B) :
  keeps m -> (forall a, keeps (k a)) -> keeps (bind m k).
Proof.
  intros Hm Hk w. unfold bind. specialize (Hm w).
  destruct (m w) as [[a | msg | code] w']; cbn [snd] in *;
    [rewrite Hk | |]; exact Hm.
Qed.

End Primitives.

Ltac step :=
  lazymatch goal with
  | |- keeps (ret _) => apply keeps_ret
  | |- keeps (panic _) => apply keeps_panic
  | |- keeps (os_Exit _) => apply keeps_exit
  | |- keeps (emit _) => apply keeps_emit
  | |- keeps get_conn => apply keeps_get_conn
  | |- keeps (time_Now _) => apply keeps_time_Now
  | |- keeps (http_Get _ _) => apply keeps_http_Get
  | |- keeps (deref _) => apply keeps_deref
  | |- keeps (index _ _) => apply keeps_index
  | |- keeps (bind _ _) => apply keeps_bind; [| intros ?]
  | |- keeps (match ?x with _ => _ end) => destruct x
  end.

Ltac solve_keeps :=
  unfold log_Print, fmt_Println, QvrApp.defer_Close, QvrApp.io_Copy, ReadAll;
  repeat step.

Lemma keeps_print_chunks l z e : keeps (QvrPro.print_chunks l z e).
Proof.
  induction l as [|x l IH]; cbn [QvrPro.print_chunks];
    [destruct e |]; solve_keeps. exact IH.
Qed.

Lemma keeps_copy_header h : keeps (QvrApp.copy_header h).
Proof.
  induction h as [|[k v] h IH]; cbn [QvrApp.copy_header]; solve_keeps.
  exact IH.
Qed.

End Keeps.

Module KeepsMethods.

Ltac known :=
  lazymatch goal with
  | |- Keeps.keeps (QvrPro.print_chunks _ _ _) => apply Keeps.keeps_print_chunks
  | |- Keeps.keeps (QvrApp.copy_header _) => apply Keeps.keeps_copy_header
  end.

Ltac method :=
  unfold log_Print, fmt_Println, QvrApp.defer_Close, QvrApp.io_Copy,
    QvrPro.print_body, ReadAll;
  repeat first [ known | Keeps.step ].

Section Pro.
Context (E : Env QvrPro.QvrProLogsResponse).

Lemma pro_open_keeps channelId startTime :
  Keeps.keeps (QvrPro.CreateSessionId E channelId startTime).
Proof. unfold QvrPro.CreateSessionId. method. Qed.

Lemma pro_seek_keeps sessionId seekTime :
  Keeps.keeps (QvrPro.PlaySeek E sessionId seekTime).
Proof. unfold QvrPro.PlaySeek, QvrPro.status_line. method. Qed.

Lemma pro_play_keeps sessionId : Keeps.keeps (QvrPro.play E sessionId).
Proof. unfold QvrPro.play, QvrPro.status_line. method. Qed.

Lemma pro_get_keeps sessionId : Keeps.keeps (QvrPro.PlayGet E sessionId).
Proof. unfold QvrPro.PlayGet. method. Qed.

Lemma pro_Video_keeps channelId seekTime :
  Keeps.keeps (QvrPro.Video E channelId seekTime).
Proof.
  unfold QvrPro.Video.
  repeat first
    [ lazymatch goal with
      | |- Keeps.keeps (QvrPro.CreateSessionId _ _ _) => apply pro_open_keeps
      | |- Keeps.keeps (QvrPro.PlaySeek _ _ _) => apply pro_seek_keeps
      | |- Keeps.keeps (QvrPro.play _ _) => apply pro_play_keeps
      | |- Keeps.keeps (QvrPro.PlayGet _ _) => apply pro_get_keeps
      end
    | Keeps.step ].
Qed.

End Pro.

Section App.
Context (E : Env QvrApp.LogsResponse).

Lemma app_open_keeps channelId startTime :
  Keeps.keeps (QvrApp.CreateSessionId E channelId startTime).
Proof. unfold QvrApp.CreateSessionId. method. Qed.

Lemma app_seek_keeps sessionId seekTime :
  Keeps.keeps (QvrApp.PlaySeek E sessionId seekTime).
Proof. unfold QvrApp.PlaySeek, QvrApp.status_line. method. Qed.

Lemma app_play_keeps sessionId : Keeps.keeps (QvrApp.Play E sessionId).
Proof. unfold QvrApp.Play, QvrApp.status_line. method. Qed.

Lemma app_get_keeps sessionId dataType :
  Keeps.keeps (QvrApp.PlayGet E sessionId dataType).
Proof. unfold QvrApp.PlayGet. method. Qed.

Lemma app_PlayFrame_keeps channelId seekTime :
  Keeps.keeps (QvrApp.PlayFrame E channelId seekTime).
Proof.
  unfold QvrApp.PlayFrame.
  repeat first
    [ lazymatch goal with
      | |- Keeps.keeps (QvrApp.CreateSessionId _ _ _) => apply app_open_keeps
      | |- Keeps.keeps (QvrApp.PlaySeek _ _ _) => apply app_seek_keeps
      | |- Keeps.keeps (QvrApp.Play _ _) => apply app_play_keeps
      | |- Keeps.keeps (QvrApp.PlayGet _ _ _) => apply app_get_keeps
      end
    | Keeps.step ].
Qed.

End App.

End KeepsMethods.

(** X5: no method but [Login] and [Logout] changes the connection: the
    camera, playback, streaming and log methods of both clients leave the
    session id, the expiry and the configuration as they found them,
    however they end. *)
Theorem only_Login_and_Logout_touch_the_connection :
  (forall (E : Env QvrPro.QvrProLogsResponse),
      Keeps.keeps (QvrPro.CameraList E)
      /\ Keeps.keeps (QvrPro.CameraCapability E)
      /\ (forall channelId imageTs, Keeps.keeps (QvrPro.CameraSnapshot E channelId imageTs))
      /\ (forall channelId streamId, Keeps.keeps (QvrPro.LiveStream E channelId streamId))
      /\ (forall channelId startTime, Keeps.keeps (QvrPro.CreateSessionId E channelId startTime))
      /\ (forall sessionId seekTime, Keeps.keeps (QvrPro.PlaySeek E sessionId seekTime))
      /\ (forall sessionId, Keeps.keeps (QvrPro.play E sessionId))
      /\ (forall sessionId, Keeps.keeps (QvrPro.PlayGet E sessionId))
      /\ (forall channelId seekTime, Keeps.keeps (QvrPro.Video E channelId seekTime))
      /\ (forall logType start maxResults, Keeps.keeps (QvrPro.Logs E logType start maxResults)))
  /\ (forall (E : Env QvrApp.LogsResponse),
      Keeps.keeps (QvrApp.CameraList E)
      /\ Keeps.keeps (QvrApp.CameraCapability E)
      /\ (forall channelId imageTs, Keeps.keeps (QvrApp.CameraSnapshot E channelId imageTs))
      /\ (forall channelId streamId, Keeps.keeps (QvrApp.LiveStream E channelId streamId))
      /\ (forall channelId startTime, Keeps.keeps (QvrApp.CreateSessionId E channelId startTime))
      /\ (forall sessionId seekTime, Keeps.keeps (QvrApp.PlaySeek E sessionId seekTime))
      /\ (forall sessionId, Keeps.keeps (QvrApp.Play E sessionId))
      /\ (forall sessionId dataType, Keeps.keeps (QvrApp.PlayGet E sessionId dataType))
      /\ (forall channelId seekTime, Keeps.keeps (QvrApp.PlayFrame E channelId seekTime))
      /\ (forall logType startTime maxResults,
             Keeps.keeps (QvrApp.Logs E logType startTime maxResults))).
Proof.
  split; intros E.
  - split; [unfold QvrPro.CameraList; KeepsMethods.method |].
    split; [unfold QvrPro.CameraCapability; KeepsMethods.method |].
    split; [intros; unfold QvrPro.CameraSnapshot; KeepsMethods.method |].
    split; [intros; unfold QvrPro.LiveStream; KeepsMethods.method |].
    split; [intros; apply KeepsMethods.pro_open_keeps |].
    split; [intros; apply KeepsMethods.pro_seek_keeps |].
    split; [intros; apply KeepsMethods.pro_play_keeps |].
    split; [intros; apply KeepsMethods.pro_get_keeps |].
    split; [intros; apply KeepsMethods.pro_Video_keeps |].
    intros; unfold QvrPro.Logs; KeepsMethods.method.
  - split; [unfold QvrApp.CameraList; KeepsMethods.method |].
    split; [unfold QvrApp.CameraCapability; KeepsMethods.method |].
    split; [intros; unfold QvrApp.CameraSnapshot; KeepsMethods.method |].
    split; [intros; unfold QvrApp.LiveStream; KeepsMethods.method |].
    split; [intros; apply KeepsMethods.app_open_keeps |].
    split; [intros; apply KeepsMethods.app_seek_keeps |].
    split; [intros; apply KeepsMethods.app_play_keeps |].
    split; [intros; apply KeepsMethods.app_get_keeps |].
    split; [intros; apply KeepsMethods.app_PlayFrame_keeps |].
    intros; unfold QvrApp.Logs; KeepsMethods.method.
Qed.

(** ** The requests of the other endpoints *)

Module Requests.

(** The action sends exactly one request, to [path], and the query of the
    request reads back as exactly [params]. *)
Definition asks {C A} (m : M C A) (w : World C) (path : string)
    (params : Values) : Prop :=
  exists u,
    gets (trace (snd (m w))) = gets (trace w) ++ [u]
    /\ Path u = path
    /\ ParseQuery (RawQuery u) = (params, None).

Lemma asks_intro {C A} (m : M C A) w baseUrl path (added params : Values) :
  gets (trace (snd (m w)))
  = gets (trace w) ++ [set_RawQuery (Encode added) (set_Path path baseUrl)] ->
  UrlFacts.no_empty_list added ->
  added = params ->
  asks m w path params.
Proof.
  intros Hg Hb <-. eexists. split; [exact Hg |]. split; [reflexivity |].
  now apply UrlFacts.ParseQuery_Encode.
Qed.

(** A chain of [Add] on distinct keys is the map with one value a key. *)
Ltac literal :=
  unfold Add;
  rewrite ?lookup_total_insert_ne by discriminate;
  rewrite ?lookup_total_empty; reflexivity.

Ltac sent Hp :=
  run; rewrite Hp; run; repeat (Flow.branch; run);
  rewrite ?gets_app; cbn [gets]; rewrite ?app_nil_r; reflexivity.

Ltac simple_request Hp :=
  eapply asks_intro; [sent Hp | QueryFacts.built | literal].

Ltac finish_sent :=
  rewrite ?gets_app; cbn [gets]; rewrite ?app_nil_r; reflexivity.

Ltac through_chunks :=
  idtac; match goal with
  | |- context [QvrPro.print_chunks ?l ?z ?e ?w'] =>
      let Hg := fresh "Hg" in
      let Hc := fresh "Hc" in
      destruct (Flow.print_chunks_quiet l z e w') as [Hg Hc];
      let o := fresh "o" in
      destruct (QvrPro.print_chunks l z e w') as [o [? ? ? ?]];
      cbn [snd trace conn] in Hg, Hc;
      rewrite !gets_app in Hg; cbn [gets] in Hg; rewrite app_nil_r in Hg;
      destruct o; run; exact Hg
  end.

Ltac through_header :=
  idtac; match goal with
  | |- context [QvrApp.copy_header ?h ?w'] =>
      let Hg := fresh "Hg" in
      let Hc := fresh "Hc" in
      destruct (Flow.copy_header_quiet h w') as [Hg Hc];
      let o := fresh "o" in
      destruct (QvrApp.copy_header h w') as [o [? ? ? ?]];
      cbn [snd trace conn] in Hg, Hc;
      rewrite !gets_app in Hg; cbn [gets] in Hg; rewrite app_nil_r in Hg;
      destruct o; run; try (copy_cases; run);
      rewrite ?gets_app; cbn [gets]; rewrite ?app_nil_r; exact Hg
  end.

Ltac streamed Hp tac :=
  run; rewrite Hp; run;
  match goal with
  | |- context [match client_Get ?E ?n ?u with _ => _ end] =>
      destruct (client_Get E n u) as [[? ?] | ? | [? ?] ?]
  end; run; first [finish_sent | tac].

Ltac stream_request Hp tac :=
  eapply asks_intro; [streamed Hp tac | QueryFacts.built | literal].

Section Pro.
Context (E : Env QvrPro.QvrProLogsResponse).
Variables (w : World QvrPro.Connection) (baseUrl : URL).
Hypothesis parses : url_Parse E (QvrPro.url (conn w)) = inl baseUrl.

Lemma pro_CameraList_asks :
  asks (QvrPro.CameraList E) w "/qvrpro/camera/list"
    (<["ver" := ["1.2.0"]]> (<["sid" := [QvrPro.sid (conn w)]]> ∅)).
Proof.
  destruct w as [c t n k]; cbn [conn trace] in *.
  unfold QvrPro.CameraList. simple_request parses.
Qed.

Lemma pro_CameraCapability_asks :
  asks (QvrPro.CameraCapability E) w "/qvrpro/camera/capability"
    (<["act" := ["get_camera_capability"]]>
       (<["ver" := ["1.2.0"]]> (<["sid" := [QvrPro.sid (conn w)]]> ∅))).
Proof.
  destruct w as [c t n k]; cbn [conn trace] in *.
  unfold QvrPro.CameraCapability. simple_request parses.
Qed.

Lemma pro_CameraSnapshot_asks channelId imageTs :
  asks (QvrPro.CameraSnapshot E channelId imageTs) w
    ("/qvrpro/camera/snapshot/" +:+ channelId)
    (<["ts" := [Itoa imageTs]]>
       (<["ver" := ["1.2.0"]]> (<["sid" := [QvrPro.sid (conn w)]]> ∅))).
Proof.
  destruct w as [c t n k]; cbn [conn trace] in *.
  unfold QvrPro.CameraSnapshot. simple_request parses.
Qed.

Lemma pro_LiveStream_asks channelId streamId :
  asks (QvrPro.LiveStream E channelId streamId) w
    "/qvrpro/streaming/getstream.cgi"
    (<["stream_id" := [streamId]]>
       (<["ch_sid" := [channelId]]> (<["sid" := [QvrPro.sid (conn w)]]> ∅))).
Proof.
  destruct w as [c t n k]; cbn [conn trace] in *.
  unfold QvrPro.LiveStream, QvrPro.print_body. stream_request parses through_chunks.
Qed.

Lemma pro_open_asks channelId startTime :
  asks (QvrPro.CreateSessionId E channelId startTime) w QvrPro.qvrPlayPath
    (<["data_type" := ["0"]]> (<["stream" := ["0"]]>
     (<["recording_type" := ["0"]]> (<["query_type" := ["0"]]>
     (<["start_time" := [Itoa startTime]]> (<["ch_sid" := [channelId]]>
     (<["ver" := ["v1"]]> (<["sid" := [QvrPro.sid (conn w)]]>
     (<["cmd" := ["open"]]> ∅))))))))).
Proof.
  destruct w as [c t n k]; cbn [conn trace] in *.
  unfold QvrPro.CreateSessionId. simple_request parses.
Qed.

Lemma pro_seek_asks sessionId seekTime :
  asks (QvrPro.PlaySeek E sessionId seekTime) w QvrPro.qvrPlayPath
    (<["seek_time" := [Itoa seekTime]]> (<["session" := [sessionId]]>
     (<["ver" := ["v1"]]> (<["sid" := [QvrPro.sid (conn w)]]>
     (<["cmd" := ["seek"]]> ∅))))).
Proof.
  destruct w as [c t n k]; cbn [conn trace] in *.
  unfold QvrPro.PlaySeek, QvrPro.status_line. simple_request parses.
Qed.

Lemma pro_play_asks sessionId :
  asks (QvrPro.play E sessionId) w QvrPro.qvrPlayPath
    (<["session" := [sessionId]]> (<["ver" := ["v1"]]>
     (<["sid" := [QvrPro.sid (conn w)]]> (<["cmd" := ["play"]]> ∅)))).
Proof.
  destruct w as [c t n k]; cbn [conn trace] in *.
  unfold QvrPro.play, QvrPro.status_line. simple_request parses.
Qed.

Lemma pro_get_asks sessionId :
  asks (QvrPro.PlayGet E sessionId) w QvrPro.qvrPlayPath
    (<["session" := [sessionId]]> (<["ver" := ["v1"]]>
     (<["sid" := [QvrPro.sid (conn w)]]> (<["cmd" := ["get"]]> ∅)))).
Proof.
  destruct w as [c t n k]; cbn [conn trace] in *.
  unfold QvrPro.PlayGet, QvrPro.print_body. stream_request parses through_chunks.
Qed.

End Pro.

Section App.
Context (E : Env QvrApp.LogsResponse).
Variables (w : World QvrApp.Connection) (baseUrl : URL).
Hypothesis parses : url_Parse E (QvrApp.url (conn w)) = inl baseUrl.

Lemma app_CameraList_asks :
  asks (QvrApp.CameraList E) w (QvrApp.CameraListPath (conn w))
    (<["ver" := ["1.2.0"]]> (<["sid" := [QvrApp.sid (conn w)]]> ∅)).
Proof.
  destruct w as [c t n k]; cbn [conn trace] in *.
  unfold QvrApp.CameraList. simple_request parses.
Qed.

Lemma app_CameraCapability_asks :
  asks (QvrApp.CameraCapability E) w (QvrApp.CameraCapabilityPath (conn w))
    (<["act" := ["get_camera_capability"]]>
       (<["ver" := ["1.2.0"]]> (<["sid" := [QvrApp.sid (conn w)]]> ∅))).
Proof.
  destruct w as [c t n k]; cbn [conn trace] in *.
  unfold QvrApp.CameraCapability. simple_request parses.
Qed.

Lemma app_CameraSnapshot_asks channelId imageTs :
  asks (QvrApp.CameraSnapshot E channelId imageTs) w
    (QvrApp.CameraSnapshotPath (conn w) channelId)
    (<["ts" := [Itoa imageTs]]>
       (<["ver" := ["1.2.0"]]> (<["sid" := [QvrApp.sid (conn w)]]> ∅))).
Proof.
  destruct w as [c t n k]; cbn [conn trace] in *.
  unfold QvrApp.CameraSnapshot. simple_request parses.
Qed.

Lemma app_LiveStream_asks channelId streamId :
  asks (QvrApp.LiveStream E channelId streamId) w
    (QvrApp.StreamsPath (conn w))
    (<["stream_id" := [streamId]]>
       (<["ch_sid" := [channelId]]> (<["sid" := [QvrApp.sid (conn w)]]> ∅))).
Proof.
  destruct w as [c t n k]; cbn [conn trace] in *.
  unfold QvrApp.LiveStream, QvrApp.io_Copy. stream_request parses through_header.
Qed.

Lemma app_open_asks channelId startTime :
  asks (QvrApp.CreateSessionId E channelId startTime) w
    (QvrApp.PlayPath (conn w))
    (<["data_type" := ["0"]]> (<["stream" := ["0"]]>
     (<["recording_type" := ["0"]]> (<["query_type" := ["0"]]>
     (<["start_time" := [Itoa startTime]]> (<["ch_sid" := [channelId]]>
     (<["ver" := ["v1"]]> (<["sid" := [QvrApp.sid (conn w)]]>
     (<["cmd" := ["open"]]> ∅))))))))).
Proof.
  destruct w as [c t n k]; cbn [conn trace] in *.
  unfold QvrApp.CreateSessionId. simple_request parses.
Qed.

Lemma app_seek_asks sessionId seekTime :
  asks (QvrApp.PlaySeek E sessionId seekTime) w (QvrApp.PlayPath (conn w))
    (<["seek_time" := [Itoa seekTime]]> (<["session" := [sessionId]]>
     (<["ver" := ["v1"]]> (<["sid" := [QvrApp.sid (conn w)]]>
     (<["cmd" := ["seek"]]> ∅))))).
Proof.
  destruct w as [c t n k]; cbn [conn trace] in *.
  unfold QvrApp.PlaySeek, QvrApp.status_line. simple_request parses.
Qed.

Lemma app_play_asks sessionId :
  asks (QvrApp.Play E sessionId) w (QvrApp.PlayPath (conn w))
    (<["session" := [sessionId]]> (<["ver" := ["v1"]]>
     (<["sid" := [QvrApp.sid (conn w)]]> (<["cmd" := ["play"]]> ∅)))).
Proof.
  destruct w as [c t n k]; cbn [conn trace] in *.
  unfold QvrApp.Play, QvrApp.status_line. simple_request parses.
Qed.

Lemma app_get_asks sessionId dataType :
  asks (QvrApp.PlayGet E sessionId dataType) w (QvrApp.PlayPath (conn w))
    (<["data_type" := [Itoa dataType]]> (<["session" := [sessionId]]>
     (<["ver" := ["v1"]]> (<["sid" := [QvrApp.sid (conn w)]]>
     (<["cmd" := ["get"]]> ∅))))).
Proof.
  destruct w as [c t n k]; cbn [conn trace] in *.
  unfold QvrApp.PlayGet, QvrApp.io_Copy. stream_request parses through_header.
Qed.

End App.

End Requests.





(** ** The two clients side by side *)

Module Agreement.

(** The one request a call sends. *)
Definition sends {C A} (m : M C A) (w : World C) (u : URL) : Prop :=
  gets (trace (snd (m w))) = gets (trace w) ++ [u].

(** The two files look at the same server with the same session, the
    later one as the application [qvrpro]. *)
Definition same_session (c1 : QvrPro.Connection) (c2 : QvrApp.Connection) : Prop :=
  QvrApp.url c2 = QvrPro.url c1
  /\ QvrApp.sid c2 = QvrPro.sid c1
  /\ QvrApp.qvrApp c2 = QvrApp.QvrPro.

Ltac align Hs Ha :=
  unfold QvrApp.PlayPath, QvrApp.StreamsPath, QvrApp.CameraListPath,
    QvrApp.CameraCapabilityPath, QvrApp.CameraSnapshotPath;
  rewrite ?Hs, ?Ha.

Ltac later_sent Hp Hs Ha :=
  run; rewrite Hp; run; align Hs Ha;
  repeat (Flow.branch; run); Requests.finish_sent.

Ltac later_streamed Hp Hs Ha :=
  run; rewrite Hp; run; align Hs Ha;
  match goal with
  | |- context [match client_Get ?E ?n ?u with _ => _ end] =>
      destruct (client_Get E n u) as [[? ?] | ? | [? ?] ?]
  end; run; first [Requests.finish_sent | Requests.through_header].

Section Same.
Context (E1 : Env QvrPro.QvrProLogsResponse) (E2 : Env QvrApp.LogsResponse).
Variables (w1 : World QvrPro.Connection) (w2 : World QvrApp.Connection).
Variable baseUrl : URL.
Hypothesis same : same_session (conn w1) (conn w2).
Hypothesis parses1 : url_Parse E1 (QvrPro.url (conn w1)) = inl baseUrl.
Hypothesis parses2 : url_Parse E2 (QvrApp.url (conn w2)) = inl baseUrl.

Ltac open_worlds :=
  destruct w1 as [c1 t1 n1 k1], w2 as [c2 t2 n2 k2];
  destruct same as (Hu & Hs & Ha);
  unfold sends; cbn [conn trace] in *.

Lemma CameraList_same :
  exists u, sends (QvrPro.CameraList E1) w1 u /\ sends (QvrApp.CameraList E2) w2 u.
Proof.
  open_worlds. unfold QvrPro.CameraList, QvrApp.CameraList.
  eexists; split; [Requests.sent parses1 | later_sent parses2 Hs Ha].
Qed.

Lemma CameraCapability_same :
  exists u, sends (QvrPro.CameraCapability E1) w1 u
            /\ sends (QvrApp.CameraCapability E2) w2 u.
Proof.
  open_worlds. unfold QvrPro.CameraCapability, QvrApp.CameraCapability.
  eexists; split; [Requests.sent parses1 | later_sent parses2 Hs Ha].
Qed.

Lemma CameraSnapshot_same channelId imageTs :
  exists u, sends (QvrPro.CameraSnapshot E1 channelId imageTs) w1 u
            /\ sends (QvrApp.CameraSnapshot E2 channelId imageTs) w2 u.
Proof.
  open_worlds. unfold QvrPro.CameraSnapshot, QvrApp.CameraSnapshot.
  eexists; split; [Requests.sent parses1 | later_sent parses2 Hs Ha].
Qed.

Lemma LiveStream_same channelId streamId :
  exists u, sends (QvrPro.LiveStream E1 channelId streamId) w1 u
            /\ sends (QvrApp.LiveStream E2 channelId streamId) w2 u.
Proof.
  open_worlds.
  unfold QvrPro.LiveStream, QvrPro.print_body, QvrApp.LiveStream, QvrApp.io_Copy.
  eexists; split;
    [Requests.streamed parses1 Requests.through_chunks
    | later_streamed parses2 Hs Ha].
Qed.

Lemma open_same channelId startTime :
  exists u, sends (QvrPro.CreateSessionId E1 channelId startTime) w1 u
            /\ sends (QvrApp.CreateSessionId E2 channelId startTime) w2 u.
Proof.
  open_worlds. unfold QvrPro.CreateSessionId, QvrApp.CreateSessionId.
  eexists; split; [Requests.sent parses1 | later_sent parses2 Hs Ha].
Qed.

Lemma seek_same sessionId seekTime :
  exists u, sends (QvrPro.PlaySeek E1 sessionId seekTime) w1 u
            /\ sends (QvrApp.PlaySeek E2 sessionId seekTime) w2 u.
Proof.
  open_worlds.
  unfold QvrPro.PlaySeek, QvrApp.PlaySeek, QvrPro.status_line, QvrApp.status_line.
  eexists; split; [Requests.sent parses1 | later_sent parses2 Hs Ha].
Qed.

Lemma play_same sessionId :
  exists u, sends (QvrPro.play E1 sessionId) w1 u
            /\ sends (QvrApp.Play E2 sessionId) w2 u.
Proof.
  open_worlds.
  unfold QvrPro.play, QvrApp.Play, QvrPro.status_line, QvrApp.status_line.
  eexists; split; [Requests.sent parses1 | later_sent parses2 Hs Ha].
Qed.

End Same.

Lemma asks_sends {C A} (m : M C A) w path params u :
  Requests.asks m w path params -> sends m w u ->
  Path u = path /\ ParseQuery (RawQuery u) = (params, None).
Proof.
  intros (u' & Hg & Hpath & Hq) Hs. unfold sends in Hs.
  rewrite Hg in Hs. apply app_inv_head in Hs. injection Hs as ->. auto.
Qed.

(** The get step is where the two files part: the later one names the
    data type it wants. *)
Lemma get_differs (E1 : Env QvrPro.QvrProLogsResponse) (E2 : Env QvrApp.LogsResponse)
    w1 w2 b1 b2 sessionId dataType u :
  url_Parse E1 (QvrPro.url (conn w1)) = inl b1 ->
  url_Parse E2 (QvrApp.url (conn w2)) = inl b2 ->
  sends (QvrPro.PlayGet E1 sessionId) w1 u ->
  sends (QvrApp.PlayGet E2 sessionId dataType) w2 u -> False.
Proof.
  intros H1 H2 S1 S2.
  destruct (asks_sends _ _ _ _ _ (Requests.pro_get_asks E1 w1 b1 H1 sessionId) S1)
    as [_ Q1].
  destruct (asks_sends _ _ _ _ _ (Requests.app_get_asks E2 w2 b2 H2 sessionId dataType) S2)
    as [_ Q2].
  rewrite Q1 in Q2.
  apply (f_equal (fun r : Values * option QueryError => fst r !! "data_type")) in Q2.
  cbn [fst] in Q2. rename Q2 into Q. symmetry in Q.
  rewrite lookup_insert_eq in Q.
  rewrite !lookup_insert_ne in Q by discriminate.
  rewrite lookup_empty in Q. discriminate Q.
Qed.

End Agreement.

(** X8: a connection of the later client made for the application
    [qvrpro] sends, call for call, the request the first client sends on
    the same base URL and session: the same URL for the camera list, the
    camera capability, a snapshot, the live stream and the open, seek and
    play steps.  The get step is the exception: the later client adds
    [data_type], so its request is never the first client's. *)
Theorem later_client_as_qvrpro_sends_the_same :
  forall (E1 : Env QvrPro.QvrProLogsResponse) (E2 : Env QvrApp.LogsResponse)
         w1 w2 baseUrl channelId streamId sessionId imageTs startTime seekTime dataType,
    Agreement.same_session (conn w1) (conn w2) ->
    url_Parse E1 (QvrPro.url (conn w1)) = inl baseUrl ->
    url_Parse E2 (QvrApp.url (conn w2)) = inl baseUrl ->
    (exists u, Agreement.sends (QvrPro.CameraList E1) w1 u
               /\ Agreement.sends (QvrApp.CameraList E2) w2 u)
    /\ (exists u, Agreement.sends (QvrPro.CameraCapability E1) w1 u
                  /\ Agreement.sends (QvrApp.CameraCapability E2) w2 u)
    /\ (exists u, Agreement.sends (QvrPro.CameraSnapshot E1 channelId imageTs) w1 u
                  /\ Agreement.sends (QvrApp.CameraSnapshot E2 channelId imageTs) w2 u)
    /\ (exists u, Agreement.sends (QvrPro.LiveStream E1 channelId streamId) w1 u
                  /\ Agreement.sends (QvrApp.LiveStream E2 channelId streamId) w2 u)
    /\ (exists u, Agreement.sends (QvrPro.CreateSessionId E1 channelId startTime) w1 u
                  /\ Agreement.sends (QvrApp.CreateSessionId E2 channelId startTime) w2 u)
    /\ (exists u, Agreement.sends (QvrPro.PlaySeek E1 sessionId seekTime) w1 u
                  /\ Agreement.sends (QvrApp.PlaySeek E2 sessionId seekTime) w2 u)
    /\ (exists u, Agreement.sends (QvrPro.play E1 sessionId) w1 u
                  /\ Agreement.sends (QvrApp.Play E2 sessionId) w2 u)
    /\ ~ (exists u, Agreement.sends (QvrPro.PlayGet E1 sessionId) w1 u
                    /\ Agreement.sends (QvrApp.PlayGet E2 sessionId dataType) w2 u).
Proof.
  intros E1 E2 w1 w2 baseUrl channelId streamId sessionId imageTs startTime
    seekTime dataType Hsame H1 H2.
  repeat lazymatch goal with |- _ /\ _ => split end.
  - exact (Agreement.CameraList_same E1 E2 w1 w2 baseUrl Hsame H1 H2).
  - exact (Agreement.CameraCapability_same E1 E2 w1 w2 baseUrl Hsame H1 H2).
  - exact (Agreement.CameraSnapshot_same E1 E2 w1 w2 baseUrl Hsame H1 H2 channelId imageTs).
  - exact (Agreement.LiveStream_same E1 E2 w1 w2 baseUrl Hsame H1 H2 channelId streamId).
  - exact (Agreement.open_same E1 E2 w1 w2 baseUrl Hsame H1 H2 channelId startTime).
  - exact (Agreement.seek_same E1 E2 w1 w2 baseUrl Hsame H1 H2 sessionId seekTime).
  - exact (Agreement.play_same E1 E2 w1 w2 baseUrl Hsame H1 H2 sessionId).
  - intros (u & S1 & S2).
    exact (Agreement.get_differs E1 E2 w1 w2 baseUrl baseUrl sessionId dataType u
             H1 H2 S1 S2).
Qed.

(** The two example connections to [https://nas]: the same snapshot
    request. *)
Lemma later_client_as_qvrpro_sends_the_same_witness :
  exists u,
    Agreement.sends (QvrPro.CameraSnapshot (Example_open.pro_env EmptyString) "cam1" 7)
      Example_open.pro_world u
    /\ Agreement.sends (QvrApp.CameraSnapshot (Example_open.app_env EmptyString) "cam1" 7)
         Example_open.app_world u.
Proof.
  apply (later_client_as_qvrpro_sends_the_same
           (Example_open.pro_env EmptyString) (Example_open.app_env EmptyString)
           Example_open.pro_world Example_open.app_world Example.nas
           "cam1" "0" "SESSION123" 7 0 0 0).
  - repeat split.
  - reflexivity.
  - reflexivity.
Defined.

(** ** A request that fails *)

Module Refused.

Definition nil_dereference : string :=
  "invalid memory address or nil pointer dereference".

(** The server cannot be reached: [client.Get] gives no response and the
    error [e]. *)
Definition pro_refused (E : Env QvrPro.QvrProLogsResponse)
    (w : World QvrPro.Connection) (e : error) : Prop :=
  (exists baseUrl, url_Parse E (QvrPro.url (conn w)) = inl baseUrl)
  /\ answers E w (GetFailed e).

(** [client.Get] gives the error [e], with or without a response. *)
Definition app_request_failed (E : Env QvrApp.LogsResponse)
    (w : World QvrApp.Connection) (e : error) : Prop :=
  (exists baseUrl, url_Parse E (QvrApp.url (conn w)) = inl baseUrl)
  /\ forall rawurl, err_of (client_Get E (requests w) rawurl) = Some e.

Ltac pro_start :=
  match goal with
  | w : World _ |- pro_refused _ _ _ -> _ =>
      destruct w as [c t n k]; unfold pro_refused, answers; cbn [conn requests];
      intros [[baseUrl Hp] Hg]
  end.

Ltac app_start :=
  match goal with
  | w : World _ |- app_request_failed _ _ _ -> _ =>
      destruct w as [c t n k]; unfold app_request_failed; cbn [conn requests];
      intros [[baseUrl Hp] Hg]
  end.

Ltac refuse Hp Hg := run; rewrite Hp; run; rewrite Hg; run.

Ltac fail_with Hp Hg :=
  run; rewrite Hp; run;
  match goal with
  | |- context [client_Get ?E ?n ?s] =>
      let H := fresh "H" in
      pose proof (Hg s) as H;
      destruct (client_Get E n s) as [? | ? | ? ?]; cbn [err_of] in H;
      [discriminate H | injection H as -> | injection H as ->]
  end; run.

Ltac no_session :=
  change (Z.of_nat (String.length EmptyString) =? 0) with true;
  unfold ret; cbv beta iota.

Section Pro.
Context (E : Env QvrPro.QvrProLogsResponse).
Variables (w : World QvrPro.Connection) (e : error).

Lemma pro_CameraList_on_failure : pro_refused E w e ->
  fst (QvrPro.CameraList E w) = Ret (None, Some e).
Proof. pro_start. unfold QvrPro.CameraList. refuse Hp Hg. reflexivity. Qed.

Lemma pro_CameraSnapshot_on_failure channelId imageTs : pro_refused E w e ->
  fst (QvrPro.CameraSnapshot E channelId imageTs w) = Ret (None, Some e).
Proof. pro_start. unfold QvrPro.CameraSnapshot. refuse Hp Hg. reflexivity. Qed.

Lemma pro_open_on_failure channelId startTime : pro_refused E w e ->
  fst (QvrPro.CreateSessionId E channelId startTime w) = Ret (EmptyString, None)
  /\ exists info,
       logged (trace (snd (QvrPro.CreateSessionId E channelId startTime w)))
       = logged (trace w) ++ [info; e].
Proof.
  pro_start. unfold QvrPro.CreateSessionId. refuse Hp Hg.
  split; [reflexivity |]. eexists.
  rewrite !logged_app. cbn [logged]. rewrite <- !app_assoc. reflexivity.
Qed.

Lemma pro_Video_on_failure channelId seekTime : pro_refused E w e ->
  fst (QvrPro.Video E channelId seekTime w) = Ret (None, None).
Proof.
  pro_start. unfold QvrPro.Video, QvrPro.CreateSessionId. refuse Hp Hg.
  reflexivity.
Qed.

Lemma pro_CameraCapability_on_failure : pro_refused E w e ->
  fst (QvrPro.CameraCapability E w) = Panic nil_dereference.
Proof. pro_start. unfold QvrPro.CameraCapability. refuse Hp Hg. reflexivity. Qed.

Lemma pro_seek_on_failure sessionId seekTime : pro_refused E w e ->
  fst (QvrPro.PlaySeek E sessionId seekTime w) = Panic nil_dereference.
Proof. pro_start. unfold QvrPro.PlaySeek. refuse Hp Hg. reflexivity. Qed.

Lemma pro_play_on_failure sessionId : pro_refused E w e ->
  fst (QvrPro.play E sessionId w) = Panic nil_dereference.
Proof. pro_start. unfold QvrPro.play. refuse Hp Hg. reflexivity. Qed.

Lemma pro_get_on_failure sessionId : pro_refused E w e ->
  fst (QvrPro.PlayGet E sessionId w) = Panic nil_dereference.
Proof. pro_start. unfold QvrPro.PlayGet. refuse Hp Hg. reflexivity. Qed.

Lemma pro_LiveStream_on_failure channelId streamId : pro_refused E w e ->
  fst (QvrPro.LiveStream E channelId streamId w) = Panic nil_dereference.
Proof. pro_start. unfold QvrPro.LiveStream. refuse Hp Hg. reflexivity. Qed.

End Pro.

Section App.
Context (E : Env QvrApp.LogsResponse).
Variables (w : World QvrApp.Connection) (e : error).

Lemma app_CameraList_on_failure : app_request_failed E w e ->
  fst (QvrApp.CameraList E w) = Ret (None, Some e).
Proof. app_start. unfold QvrApp.CameraList. fail_with Hp Hg; reflexivity. Qed.

Lemma app_CameraCapability_on_failure : app_request_failed E w e ->
  fst (QvrApp.CameraCapability E w) = Ret (None, Some e).
Proof. app_start. unfold QvrApp.CameraCapability. fail_with Hp Hg; reflexivity. Qed.

Lemma app_CameraSnapshot_on_failure channelId imageTs : app_request_failed E w e ->
  fst (QvrApp.CameraSnapshot E channelId imageTs w) = Ret (None, Some e).
Proof. app_start. unfold QvrApp.CameraSnapshot. fail_with Hp Hg; reflexivity. Qed.

Lemma app_open_on_failure channelId startTime : app_request_failed E w e ->
  fst (QvrApp.CreateSessionId E channelId startTime w) = Ret (EmptyString, None).
Proof. app_start. unfold QvrApp.CreateSessionId. fail_with Hp Hg; reflexivity. Qed.

Lemma app_PlayFrame_on_failure channelId seekTime : app_request_failed E w e ->
  fst (QvrApp.PlayFrame E channelId seekTime w) = Ret None.
Proof.
  app_start. unfold QvrApp.PlayFrame, QvrApp.CreateSessionId.
  fail_with Hp Hg; reflexivity.
Qed.

Lemma app_seek_on_failure sessionId seekTime : app_request_failed E w e ->
  fst (QvrApp.PlaySeek E sessionId seekTime w) = Ret (false, Some e).
Proof. app_start. unfold QvrApp.PlaySeek. fail_with Hp Hg; reflexivity. Qed.

Lemma app_play_on_failure sessionId : app_request_failed E w e ->
  fst (QvrApp.Play E sessionId w) = Ret (false, Some e).
Proof. app_start. unfold QvrApp.Play. fail_with Hp Hg; reflexivity. Qed.

Lemma app_get_on_failure sessionId dataType : app_request_failed E w e ->
  fst (QvrApp.PlayGet E sessionId dataType w) = Ret (Some e).
Proof. app_start. unfold QvrApp.PlayGet. fail_with Hp Hg; reflexivity. Qed.

Lemma app_LiveStream_on_failure channelId streamId : app_request_failed E w e ->
  fst (QvrApp.LiveStream E channelId streamId w) = Ret (Some e).
Proof. app_start. unfold QvrApp.LiveStream. fail_with Hp Hg; reflexivity. Qed.

End App.

End Refused.

(** X9: the first client when the server cannot be reached ([client.Get]
    returns no response and an error), on a base URL that parses.
    [CameraList] and [CameraSnapshot] check the error and return it.
    [CreateSessionId] logs it and returns the empty session id with a nil
    error, so that [Video] returns nil bytes and a nil error.
    [CameraCapability], [PlaySeek], [play], [PlayGet] and [LiveStream] do
    not look at the error and read the body of the nil response: they
    panic. *)
Theorem first_client_on_failed_request :
  forall (E : Env QvrPro.QvrProLogsResponse) w e
         channelId streamId sessionId imageTs startTime seekTime,
    Refused.pro_refused E w e ->
    fst (QvrPro.CameraList E w) = Ret (None, Some e)
    /\ fst (QvrPro.CameraSnapshot E channelId imageTs w) = Ret (None, Some e)
    /\ fst (QvrPro.CreateSessionId E channelId startTime w) = Ret (EmptyString, None)
    /\ (exists info,
          logged (trace (snd (QvrPro.CreateSessionId E channelId startTime w)))
          = logged (trace w) ++ [info; e])
    /\ fst (QvrPro.Video E channelId seekTime w) = Ret (None, None)
    /\ fst (QvrPro.CameraCapability E w) = Panic Refused.nil_dereference
    /\ fst (QvrPro.PlaySeek E sessionId seekTime w) = Panic Refused.nil_dereference
    /\ fst (QvrPro.play E sessionId w) = Panic Refused.nil_dereference
    /\ fst (QvrPro.PlayGet E sessionId w) = Panic Refused.nil_dereference
    /\ fst (QvrPro.LiveStream E channelId streamId w) = Panic Refused.nil_dereference.
Proof.
  intros E w e channelId streamId sessionId imageTs startTime seekTime H.
  split; [exact (Refused.pro_CameraList_on_failure E w e H) |].
  split; [exact (Refused.pro_CameraSnapshot_on_failure E w e channelId imageTs H) |].
  split; [exact (proj1 (Refused.pro_open_on_failure E w e channelId startTime H)) |].
  split; [exact (proj2 (Refused.pro_open_on_failure E w e channelId startTime H)) |].
  split; [exact (Refused.pro_Video_on_failure E w e channelId seekTime H) |].
  split; [exact (Refused.pro_CameraCapability_on_failure E w e H) |].
  split; [exact (Refused.pro_seek_on_failure E w e sessionId seekTime H) |].
  split; [exact (Refused.pro_play_on_failure E w e sessionId H) |].
  split; [exact (Refused.pro_get_on_failure E w e sessionId H) |].
  exact (Refused.pro_LiveStream_on_failure E w e channelId streamId H).
Qed.

(** [Video] against a server that refuses the connection. *)
Lemma first_client_on_failed_request_witness :
  fst (QvrPro.Video Example_session.refusing_pro "cam1" 0 Example_open.pro_world)
  = Ret (None, None).
Proof.
  apply (first_client_on_failed_request Example_session.refusing_pro
           Example_open.pro_world "connection refused" "cam1" "0" "SESSION123" 0 0 0).
  split; [eexists; reflexivity | intros ?; reflexivity].
Defined.

(** X10: nine methods of the later client when [client.Get] returns an
    error, on a base URL that parses: each of them checks the error and
    returns.  [CameraList], [CameraCapability] and [CameraSnapshot] return
    it with nil bytes, [PlaySeek] and [Play] return it with [false],
    [PlayGet] and [LiveStream] return it.  [CreateSessionId] returns the
    empty session id and a nil error, so that [PlayFrame] returns a nil
    error although no frame was written.  [Logout], and [Login] which
    calls it, are not among them: on a nil response [Logout] panics. *)
Theorem later_client_on_failed_request :
  forall (E : Env QvrApp.LogsResponse) w e
         channelId streamId sessionId imageTs startTime seekTime dataType,
    Refused.app_request_failed E w e ->
    fst (QvrApp.CameraList E w) = Ret (None, Some e)
    /\ fst (QvrApp.CameraCapability E w) = Ret (None, Some e)
    /\ fst (QvrApp.CameraSnapshot E channelId imageTs w) = Ret (None, Some e)
    /\ fst (QvrApp.PlaySeek E sessionId seekTime w) = Ret (false, Some e)
    /\ fst (QvrApp.Play E sessionId w) = Ret (false, Some e)
    /\ fst (QvrApp.PlayGet E sessionId dataType w) = Ret (Some e)
    /\ fst (QvrApp.LiveStream E channelId streamId w) = Ret (Some e)
    /\ fst (QvrApp.CreateSessionId E channelId startTime w) = Ret (EmptyString, None)
    /\ fst (QvrApp.PlayFrame E channelId seekTime w) = Ret None.
Proof.
  intros E w e channelId streamId sessionId imageTs startTime seekTime dataType H.
  split; [exact (Refused.app_CameraList_on_failure E w e H) |].
  split; [exact (Refused.app_CameraCapability_on_failure E w e H) |].
  split; [exact (Refused.app_CameraSnapshot_on_failure E w e channelId imageTs H) |].
  split; [exact (Refused.app_seek_on_failure E w e sessionId seekTime H) |].
  split; [exact (Refused.app_play_on_failure E w e sessionId H) |].
  split; [exact (Refused.app_get_on_failure E w e sessionId dataType H) |].
  split; [exact (Refused.app_LiveStream_on_failure E w e channelId streamId H) |].
  split; [exact (Refused.app_open_on_failure E w e channelId startTime H) |].
  exact (Refused.app_PlayFrame_on_failure E w e channelId seekTime H).
Qed.

(** [PlayFrame] against a server that refuses the connection. *)
Lemma later_client_on_failed_request_witness :
  fst (QvrApp.PlayFrame Example_session.refusing_app "cam1" 0 Example_open.app_world)
  = Ret None.
Proof.
  apply (later_client_on_failed_request Example_session.refusing_app
           Example_open.app_world "connection refused" "cam1" "0" "SESSION123" 0 0 0 0).
  split; [eexists; reflexivity | intros ?; reflexivity].
Defined.

(** ** A request that is answered *)

Module Answered.

(** The base URL parses and the server answers the next request with the
    response [r]; reading its body may still fail. *)
Definition pro_answered (E : Env QvrPro.QvrProLogsResponse)
    (w : World QvrPro.Connection) (r : Response) : Prop :=
  (exists baseUrl, url_Parse E (QvrPro.url (conn w)) = inl baseUrl)
  /\ answers E w (GetOk r).

Definition app_answered (E : Env QvrApp.LogsResponse)
    (w : World QvrApp.Connection) (r : Response) : Prop :=
  (exists baseUrl, url_Parse E (QvrApp.url (conn w)) = inl baseUrl)
  /\ answers E w (GetOk r).

(** What a method that hands the body on returns: the bytes, or the
    error that stopped the reading, never both. *)
Definition bytes_or_error (b : Body) : option string * option error :=
  match read_err b with
  | None => (Some (data b), None)
  | Some err => (None, Some err)
  end.

Ltac start w :=
  destruct w as [c t n k]; unfold pro_answered, app_answered, answers;
  cbn [conn requests]; intros [[baseUrl Hp] Hg].

Ltac answer Hp Hg := run; rewrite Hp; run; rewrite Hg; run.

Section Camera.
Context (E1 : Env QvrPro.QvrProLogsResponse) (E2 : Env QvrApp.LogsResponse).
Variables (w1 : World QvrPro.Connection) (w2 : World QvrApp.Connection).
Variable r : Response.

Lemma pro_CameraList_result : pro_answered E1 w1 r ->
  fst (QvrPro.CameraList E1 w1) = Ret (bytes_or_error (body r)).
Proof.
  start w1. unfold QvrPro.CameraList, bytes_or_error. answer Hp Hg.
  destruct r as [h [d [e|]]]; reflexivity.
Qed.

Lemma pro_CameraCapability_result : pro_answered E1 w1 r ->
  fst (QvrPro.CameraCapability E1 w1) = Ret (bytes_or_error (body r)).
Proof.
  start w1. unfold QvrPro.CameraCapability, bytes_or_error. answer Hp Hg.
  destruct r as [h [d [e|]]]; reflexivity.
Qed.

Lemma pro_CameraSnapshot_result channelId imageTs : pro_answered E1 w1 r ->
  fst (QvrPro.CameraSnapshot E1 channelId imageTs w1)
  = Ret (Some (data (body r)), None).
Proof.
  start w1. unfold QvrPro.CameraSnapshot. answer Hp Hg.
  destruct r as [h [d [e|]]]; reflexivity.
Qed.

Lemma app_CameraList_result : app_answered E2 w2 r ->
  fst (QvrApp.CameraList E2 w2) = Ret (bytes_or_error (body r)).
Proof.
  start w2. unfold QvrApp.CameraList, bytes_or_error. answer Hp Hg.
  destruct r as [h [d [e|]]]; reflexivity.
Qed.

Lemma app_CameraCapability_result : app_answered E2 w2 r ->
  fst (QvrApp.CameraCapability E2 w2) = Ret (bytes_or_error (body r)).
Proof.
  start w2. unfold QvrApp.CameraCapability, bytes_or_error. answer Hp Hg.
  destruct r as [h [d [e|]]]; reflexivity.
Qed.

Lemma app_CameraSnapshot_result channelId imageTs : app_answered E2 w2 r ->
  fst (QvrApp.CameraSnapshot E2 channelId imageTs w2)
  = Ret (Some (data (body r)), None).
Proof.
  start w2. unfold QvrApp.CameraSnapshot. answer Hp Hg.
  destruct r as [h [d [e|]]]; reflexivity.
Qed.

End Camera.

End Answered.

(** X11: what the camera methods of both clients return for a request
    that was answered.  [CameraList] and [CameraCapability] return the
    bytes of the body and a nil error when the body was read to its end,
    and nil bytes with the error when the reading failed.  [CameraSnapshot]
    discards the error of the reading: it returns whatever bytes arrived,
    with a nil error, also when the reading failed. *)
Theorem camera_methods_hand_on_the_body :
  (forall (E : Env QvrPro.QvrProLogsResponse) w r channelId imageTs,
      Answered.pro_answered E w r ->
      fst (QvrPro.CameraList E w) = Ret (Answered.bytes_or_error (body r))
      /\ fst (QvrPro.CameraCapability E w) = Ret (Answered.bytes_or_error (body r))
      /\ fst (QvrPro.CameraSnapshot E channelId imageTs w)
         = Ret (Some (data (body r)), None))
  /\ (forall (E : Env QvrApp.LogsResponse) w r channelId imageTs,
      Answered.app_answered E w r ->
      fst (QvrApp.CameraList E w) = Ret (Answered.bytes_or_error (body r))
      /\ fst (QvrApp.CameraCapability E w) = Ret (Answered.bytes_or_error (body r))
      /\ fst (QvrApp.CameraSnapshot E channelId imageTs w)
         = Ret (Some (data (body r)), None)).
Proof.
  split; intros E w r channelId imageTs H.
  - split; [exact (Answered.pro_CameraList_result E w r H) |].
    split; [exact (Answered.pro_CameraCapability_result E w r H) |].
    exact (Answered.pro_CameraSnapshot_result E w r channelId imageTs H).
  - split; [exact (Answered.app_CameraList_result E w r H) |].
    split; [exact (Answered.app_CameraCapability_result E w r H) |].
    exact (Answered.app_CameraSnapshot_result E w r channelId imageTs H).
Qed.

Module Example_camera.

(** A snapshot whose transfer breaks after four bytes. *)
Definition broken : Response :=
  {| Header := []; body := {| data := "JFIF"; read_err := Some "unexpected EOF" |} |}.

Definition app_env : Env QvrApp.LogsResponse :=
  Example.env (fun _ => GetOk broken) (fun _ => 0) Example.no_xml
    Example_open.no_json_app.

End Example_camera.

(** The broken transfer: [CameraList] reports it, [CameraSnapshot] returns
    the four bytes as the image. *)
Lemma camera_methods_hand_on_the_body_witness :
  fst (QvrApp.CameraList Example_camera.app_env Example_open.app_world)
  = Ret (None, Some "unexpected EOF")
  /\ fst (QvrApp.CameraSnapshot Example_camera.app_env "cam1" 0 Example_open.app_world)
     = Ret (Some "JFIF", None).
Proof.
  assert (H : Answered.app_answered Example_camera.app_env Example_open.app_world
                Example_camera.broken)
    by (split; [eexists; reflexivity | intros ?; reflexivity]).
  destruct (proj2 camera_methods_hand_on_the_body Example_camera.app_env
              Example_open.app_world Example_camera.broken "cam1" 0 H)
    as (Hl & _ & Hs).
  split; [exact Hl | exact Hs].
Defined.

(** ** The streams of the first client go to standard output *)

Module Printing.

(** The lines printed among the events. *)
Fixpoint printed (t : list Event) : list string :=
  match t with
  | [] => []
  | EvPrint s :: t' => s :: printed t'
  | _ :: t' => printed t'
  end.

Lemma printed_app t1 t2 : printed (t1 ++ t2) = printed t1 ++ printed t2.
Proof.
  induction t1 as [|e t1 IH]; [reflexivity |].
  destruct e; cbn [app printed]; now rewrite IH.
Qed.

Lemma printed_prints l : printed (map EvPrint l) = l.
Proof. induction l as [|x l IH]; [reflexivity |]. cbn [map printed]. now rewrite IH. Qed.

(** What the loop prints when the reading stops: at the end of the
    stream the piece that came with [io.EOF], otherwise the error. *)
Definition last_line {J} (E : Env J) (b : Body) : string :=
  match read_err b with
  | None => snd (body_Read E b)
  | Some err => err
  end.

(** How the loop ends. *)
Definition loop_end {A} (b : Body) (a : A) : Outcome A :=
  match read_err b with
  | None => Ret a
  | Some _ => Exit 1
  end.

Lemma print_chunks_run l z e (w : World QvrPro.Connection) :
  QvrPro.print_chunks l z e w
  = (match e with None => Ret tt | Some _ => Exit 1 end,
     mkWorld (conn w)
       (trace w ++ map EvPrint (l ++ [match e with None => z | Some err => err end]))
       (requests w) (clock_reads w)).
Proof.
  revert w. induction l as [|x l IH]; intros [c t n k].
  - unfold QvrPro.print_chunks. destruct e; run; reflexivity.
  - unfold QvrPro.print_chunks; fold QvrPro.print_chunks. run.
    rewrite IH. cbn [conn trace requests clock_reads app map].
    rewrite <- app_assoc. destruct e; reflexivity.
Qed.

Section Streams.
Context (E : Env QvrPro.QvrProLogsResponse).
Variables (w : World QvrPro.Connection) (r : Response).
Hypothesis answered : Answered.pro_answered E w r.

Ltac stream :=
  destruct w as [c t n k]; destruct answered as [[baseUrl Hp] Hg];
  unfold answers in Hg; cbn [conn requests trace] in *;
  unfold QvrPro.print_body;
  run; rewrite Hp; run; rewrite Hg; run;
  rewrite print_chunks_run; cbn [conn trace requests clock_reads];
  unfold loop_end, last_line; destruct r as [h [d [e|]]]; cbn [body data read_err];
  (split; [reflexivity |]); cbn [snd trace];
  rewrite !printed_app, printed_prints; cbn [printed]; rewrite !app_nil_r;
  reflexivity.

Lemma PlayGet_prints sessionId :
  fst (QvrPro.PlayGet E sessionId w) = loop_end (body r) true
  /\ printed (trace (snd (QvrPro.PlayGet E sessionId w)))
     = printed (trace w) ++ fst (body_Read E (body r)) ++ [last_line E (body r)].
Proof. unfold QvrPro.PlayGet. stream. Qed.

Lemma LiveStream_prints channelId streamId :
  fst (QvrPro.LiveStream E channelId streamId w)
  = loop_end (body r) (Some not_finished, None)
  /\ printed (trace (snd (QvrPro.LiveStream E channelId streamId w)))
     = printed (trace w) ++ fst (body_Read E (body r)) ++ [last_line E (body r)].
Proof. unfold QvrPro.LiveStream. stream. Qed.

End Streams.

End Printing.


Module Example_stream.

(** A stream of ten bytes; and one that breaks after six. *)
Definition whole : Response :=
  {| Header := [("Content-Type", ["video/mp4"])];
     body := {| data := "0123456789"; read_err := None |} |}.

Definition broken : Response :=
  {| Header := [("Content-Type", ["video/mp4"])];
     body := {| data := "012345"; read_err := Some "unexpected EOF" |} |}.

Definition pro_env (r : Response) : Env QvrPro.QvrProLogsResponse :=
  Example.env (fun _ => GetOk r) (fun _ => 0) Example.no_xml Example_open.no_json_pro.

Definition app_env (r : Response) : Env QvrApp.LogsResponse :=
  Example.env (fun _ => GetOk r) (fun _ => 0) Example.no_xml Example_open.no_json_app.

(** A reader that reports the end of the stream by a read of its own,
    without bytes. *)
Definition read4_then_EOF (b : Body) : list string * string :=
  (chunks4 (data b), EmptyString).

Definition pro_env_then_EOF (r : Response) : Env QvrPro.QvrProLogsResponse :=
  {| url_Parse := Example.Parse; URL_String := Example.ToString;
     client_Get := fun _ _ => GetOk r; time_Now_Unix := fun _ => 0;
     xml_Unmarshal := Example.no_xml; json_Unmarshal := Example_open.no_json_pro;
     body_Read := read4_then_EOF; writer_Write := fun _ => None |}.

(** A writer that fails after four bytes. *)
Definition app_env_closed (r : Response) : Env QvrApp.LogsResponse :=
  {| url_Parse := Example.Parse; URL_String := Example.ToString;
     client_Get := fun _ _ => GetOk r; time_Now_Unix := fun _ => 0;
     xml_Unmarshal := Example.no_xml; json_Unmarshal := Example_open.no_json_app;
     body_Read := Example.read4;
     writer_Write := fun _ => Some (4%nat, "write: broken pipe") |}.

End Example_stream.


(** The ten bytes, from a reader that hands out the last two together
    with [io.EOF], and from one that reports the end by itself. *)
Example whole_stream_printed :
  Printing.printed
    (trace (snd (QvrPro.PlayGet (Example_stream.pro_env Example_stream.whole)
                   "SESSION123" Example_open.pro_world)))
  = ["0123"; "4567"; "89"]
  /\ Printing.printed
       (trace (snd (QvrPro.PlayGet (Example_stream.pro_env_then_EOF Example_stream.whole)
                      "SESSION123" Example_open.pro_world)))
     = ["0123"; "4567"; "89"; EmptyString].
Proof. split; vm_compute; reflexivity. Qed.

(** ** The streams of the later client go to the writer *)

Module Relay.

(** What the writer is given, among the events. *)
Fixpoint relayed (t : list Event) : list Event :=
  match t with
  | [] => []
  | EvSetHeader k v :: t' => EvSetHeader k v :: relayed t'
  | EvWrite b :: t' => EvWrite b :: relayed t'
  | _ :: t' => relayed t'
  end.

Lemma relayed_app t1 t2 : relayed (t1 ++ t2) = relayed t1 ++ relayed t2.
Proof.
  induction t1 as [|e t1 IH]; [reflexivity |].
  destruct e; cbn [app relayed]; now rewrite IH.
Qed.

(** Each header of the response, with the first of its values. *)
Definition first_values (h : list (string * list string)) : list Event :=
  map (fun kv => EvSetHeader (fst kv) (hd EmptyString (snd kv))) h.

Lemma relayed_first_values h : relayed (first_values h) = first_values h.
Proof.
  induction h as [|[k v] h IH]; [reflexivity |].
  unfold first_values in *. cbn [map relayed fst snd]. now rewrite IH.
Qed.

Definition has_value (kv : string * list string) : Prop := snd kv <> [].

Lemma copy_header_run h : forall w : World QvrApp.Connection,
  Forall has_value h ->
  QvrApp.copy_header h w
  = (Ret tt, mkWorld (conn w) (trace w ++ first_values h) (requests w) (clock_reads w)).
Proof.
  induction h as [|[key v] h IH]; intros [c t n k] Hv.
  - cbn [QvrApp.copy_header first_values map]. unfold ret.
    cbn [conn trace requests clock_reads]. now rewrite app_nil_r.
  - inversion Hv as [|? ? Hkv Hrest]; subst.
    unfold QvrApp.copy_header; fold QvrApp.copy_header.
    destruct v as [|v0 v]; [now contradiction Hkv |].
    run. rewrite IH by assumption.
    cbn [conn trace requests clock_reads first_values map fst snd hd].
    now rewrite <- app_assoc.
Qed.

Lemma copy_header_stops h1 key h2 : forall w : World QvrApp.Connection,
  Forall has_value h1 ->
  QvrApp.copy_header (h1 ++ (key, []) :: h2) w
  = (Panic "index out of range",
     mkWorld (conn w) (trace w ++ first_values h1) (requests w) (clock_reads w)).
Proof.
  induction h1 as [|[key1 v] h1 IH]; intros [c t n k] Hv.
  - cbn [app]. unfold QvrApp.copy_header; fold QvrApp.copy_header. run.
    cbn [first_values map]. now rewrite app_nil_r.
  - inversion Hv as [|? ? Hkv Hrest]; subst.
    cbn [app]. unfold QvrApp.copy_header; fold QvrApp.copy_header.
    destruct v as [|v0 v]; [now contradiction Hkv |].
    run. rewrite IH by assumption.
    cbn [conn trace requests clock_reads first_values map fst snd hd].
    now rewrite <- app_assoc.
Qed.

(** What [io.Copy] makes of a body: the bytes the writer took and the
    error the copy ends with.  The writer is not asked about a body
    without bytes. *)
Definition copied {J} (E : Env J) (b : Body) : string * option error :=
  match (if String.eqb (data b) EmptyString then None
         else writer_Write E (data b)) with
  | None => (data b, read_err b)
  | Some (n, err) => (QvrApp.taken n (data b), Some err)
  end.

(** The line that reports the copy. *)
Definition bytes_written (bytes : string) : string :=
  "[INFO] Bytes written " +:+ Itoa (Z.of_nat (String.length bytes)).

(** A stream that is relayed: the result, what the writer got, and the
    log. *)
Definition relays {A} (m : M QvrApp.Connection A) (w : World QvrApp.Connection)
    (r : Response) (bytes : string) (result : A) : Prop :=
  fst (m w) = Ret result
  /\ relayed (trace (snd (m w)))
     = relayed (trace w) ++ first_values (Header r) ++ [EvWrite bytes]
  /\ exists info,
       logged (trace (snd (m w))) = logged (trace w) ++ [info; bytes_written bytes].

(** A stream that stops at a header without a value: the headers before
    it are all the writer got. *)
Definition stops {A} (m : M QvrApp.Connection A) (w : World QvrApp.Connection)
    (h1 : list (string * list string)) : Prop :=
  fst (m w) = Panic "index out of range"
  /\ relayed (trace (snd (m w))) = relayed (trace w) ++ first_values h1.

Section Streams.
Context (E : Env QvrApp.LogsResponse).
Variables (w : World QvrApp.Connection) (r : Response).
Hypothesis answered : Answered.app_answered E w r.

Ltac request :=
  destruct w as [c t n k]; destruct answered as [[baseUrl Hp] Hg];
  unfold answers in Hg; cbn [conn requests trace] in *;
  run; rewrite Hp; run; rewrite Hg; run.

Ltac relay Hv :=
  unfold relays, copied, QvrApp.io_Copy; request;
  rewrite (copy_header_run _ _ Hv); run;
  destruct r as [h [d e]]; cbn [Header body data read_err] in *;
  destruct (if String.eqb d EmptyString then None else writer_Write E d)
    as [[? ?]|]; run; cbn [fst snd];
  (split; [reflexivity |]);
  (split;
    [ rewrite !relayed_app, relayed_first_values; cbn [relayed];
      rewrite !app_nil_r, <- ?app_assoc; reflexivity
    | eexists; rewrite !logged_app; cbn [logged];
      replace (logged (first_values h)) with (@nil string)
        by (clear; induction h as [|[? ?] ? IH]; [reflexivity | exact IH]);
      rewrite !app_nil_r, <- ?app_assoc; reflexivity ]).

Ltac stop Hh Hv :=
  unfold stops, QvrApp.io_Copy;
  destruct r as [h b]; cbn [Header] in Hh; subst h; request;
  rewrite (copy_header_stops _ _ _ _ Hv); run;
  split; [reflexivity |];
  rewrite !relayed_app, relayed_first_values; cbn [relayed];
  rewrite !app_nil_r; reflexivity.

Lemma PlayGet_relays sessionId dataType :
  Forall has_value (Header r) ->
  relays (QvrApp.PlayGet E sessionId dataType) w r
    (fst (copied E (body r))) (snd (copied E (body r))).
Proof. intros Hv. unfold QvrApp.PlayGet. relay Hv. Qed.

Lemma LiveStream_relays channelId streamId :
  Forall has_value (Header r) ->
  relays (QvrApp.LiveStream E channelId streamId) w r
    (fst (copied E (body r))) (snd (copied E (body r))).
Proof. intros Hv. unfold QvrApp.LiveStream. relay Hv. Qed.

Lemma PlayGet_stops sessionId dataType h1 key h2 :
  Header r = h1 ++ (key, []) :: h2 -> Forall has_value h1 ->
  stops (QvrApp.PlayGet E sessionId dataType) w h1.
Proof. intros Hh Hv. unfold QvrApp.PlayGet. stop Hh Hv. Qed.

Lemma LiveStream_stops channelId streamId h1 key h2 :
  Header r = h1 ++ (key, []) :: h2 -> Forall has_value h1 ->
  stops (QvrApp.LiveStream E channelId streamId) w h1.
Proof. intros Hh Hv. unfold QvrApp.LiveStream. stop Hh Hv. Qed.

End Streams.

End Relay.

(** X13: [PlayGet] and [LiveStream] of the later client, for a request
    that was answered, relay the response to the writer.  When every
    header of the response has a value, the writer is given each header
    with the first of its values, in the order the headers are ranged
    over, and then the bytes of the body as far as it takes them; the
    line [Bytes written n] is logged with the number of bytes it took; and
    the method returns the error the copy ended with.  That is the error
    of the reading, nil at the end of the stream, when the writer took
    every byte; and the error of the writer when a write failed, whatever
    the reading would have given.  A header without a value stops the
    method with an index panic after the headers before it, and nothing of
    the body is written. *)
Theorem later_client_streams_to_the_writer :
  forall (E : Env QvrApp.LogsResponse) w r sessionId dataType channelId streamId,
    Answered.app_answered E w r ->
    (Forall Relay.has_value (Header r) ->
       Relay.relays (QvrApp.PlayGet E sessionId dataType) w r
         (fst (Relay.copied E (body r))) (snd (Relay.copied E (body r)))
       /\ Relay.relays (QvrApp.LiveStream E channelId streamId) w r
            (fst (Relay.copied E (body r))) (snd (Relay.copied E (body r))))
    /\ (writer_Write E (data (body r)) = None ->
        Relay.copied E (body r) = (data (body r), read_err (body r)))
    /\ (forall n err,
          data (body r) <> EmptyString ->
          writer_Write E (data (body r)) = Some (n, err) ->
          Relay.copied E (body r) = (QvrApp.taken n (data (body r)), Some err))
    /\ (forall h1 key h2,
          Header r = h1 ++ (key, []) :: h2 -> Forall Relay.has_value h1 ->
          Relay.stops (QvrApp.PlayGet E sessionId dataType) w h1
          /\ Relay.stops (QvrApp.LiveStream E channelId streamId) w h1).
Proof.
  intros E w r sessionId dataType channelId streamId H.
  split; [| split; [| split]].
  - intros Hv. split.
    + exact (Relay.PlayGet_relays E w r H sessionId dataType Hv).
    + exact (Relay.LiveStream_relays E w r H channelId streamId Hv).
  - intros Hw. unfold Relay.copied. rewrite Hw.
    now destruct (String.eqb (data (body r)) EmptyString).
  - intros n err Hd Hw. unfold Relay.copied. rewrite Hw.
    destruct (String.eqb_spec (data (body r)) EmptyString) as [Heq | _];
      [contradiction | reflexivity].
  - intros h1 key h2 Hh Hv. split.
    + exact (Relay.PlayGet_stops E w r H sessionId dataType h1 key h2 Hh Hv).
    + exact (Relay.LiveStream_stops E w r H channelId streamId h1 key h2 Hh Hv).
Qed.

(** The whole stream of ten bytes into a writer that fails after four:
    the four bytes are relayed and the error of the writer is returned. *)
Lemma later_client_streams_to_the_writer_witness :
  Relay.relays
    (QvrApp.LiveStream (Example_stream.app_env_closed Example_stream.whole) "cam1" "0")
    Example_open.app_world Example_stream.whole "0123" (Some "write: broken pipe").
Proof.
  assert (H : Answered.app_answered (Example_stream.app_env_closed Example_stream.whole)
                Example_open.app_world Example_stream.whole)
    by (split; [eexists; reflexivity | intros ?; reflexivity]).
  assert (Hv : Forall Relay.has_value (Header Example_stream.whole))
    by (repeat constructor; intros X; discriminate X).
  exact (proj2 (proj1 (later_client_streams_to_the_writer
                         (Example_stream.app_env_closed Example_stream.whole)
                         Example_open.app_world Example_stream.whole
                         "SESSION123" 0 "cam1" "0" H) Hv)).
Defined.

(** The stream that breaks after six bytes, into a writer that takes
    all: the six bytes are relayed and the error of the reading is
    returned. *)
Example broken_stream_relayed :
  Relay.relayed
    (trace (snd (QvrApp.LiveStream (Example_stream.app_env Example_stream.broken)
                   "cam1" "0" Example_open.app_world)))
  = [EvSetHeader "Content-Type" "video/mp4"; EvWrite "012345"]
  /\ fst (QvrApp.LiveStream (Example_stream.app_env Example_stream.broken)
            "cam1" "0" Example_open.app_world) = Ret (Some "unexpected EOF").
Proof. split; vm_compute; reflexivity. Qed.

(** ** What a successful [Login] leaves behind *)

Module LoginSuccess.

Lemma empty_length (s : string) :
  (0 <? Z.of_nat (String.length s)) = false -> s = EmptyString.
Proof. destruct s; [reflexivity | intros H; cbn in H; discriminate H]. Qed.

(** The connection after a login that the server passed. *)
Definition pro_authenticated (E : Env QvrPro.QvrProLogsResponse)
    (user password : string) (w w' : World QvrPro.Connection) : Prop :=
  exists baseUrl r qdoc,
    url_Parse E (QvrPro.url (conn w)) = inl baseUrl
    /\ client_Get E (requests w)
         (URL_String E (LoginFacts.login_request baseUrl user password)) = GetOk r
    /\ read_err (body r) = None
    /\ xml_Unmarshal E (data (body r)) = (qdoc, None)
    /\ AuthPassed qdoc <> 0
    /\ conn w'
       = {| QvrPro.url := QvrPro.url (conn w);
            QvrPro.sid := AuthSid qdoc;
            QvrPro.expire :=
              to_int64 (time_Now_Unix E (pred (clock_reads w'))
                        + QvrPro.timeout (conn w));
            QvrPro.timeout := QvrPro.timeout (conn w) |}
    /\ requests w' = S (requests w).

Definition app_authenticated (E : Env QvrApp.LogsResponse)
    (user password : string) (w w' : World QvrApp.Connection) : Prop :=
  exists baseUrl r qdoc,
    url_Parse E (QvrApp.url (conn w)) = inl baseUrl
    /\ client_Get E (requests w)
         (URL_String E (LoginFacts.login_request baseUrl user password)) = GetOk r
    /\ read_err (body r) = None
    /\ xml_Unmarshal E (data (body r)) = (qdoc, None)
    /\ AuthPassed qdoc <> 0
    /\ conn w'
       = {| QvrApp.url := QvrApp.url (conn w);
            QvrApp.sid := AuthSid qdoc;
            QvrApp.expire :=
              to_int64 (time_Now_Unix E (pred (clock_reads w'))
                        + QvrApp.timeout (conn w));
            QvrApp.timeout := QvrApp.timeout (conn w);
            QvrApp.qvrApp := QvrApp.qvrApp (conn w) |}
    /\ requests w' = S (requests w).

Ltac fails :=
  repeat (LoginFailure.branch; run);
  let H := fresh in intros H; discriminate H.

Ltac served :=
  match goal with
  | |- context [match url_Parse ?E ?u with _ => _ end] =>
      destruct (url_Parse E u) as [? | ?] eqn:?; run; [| fails]
  end;
  match goal with
  | |- context [match client_Get ?E ?n ?u with _ => _ end] =>
      destruct (client_Get E n u) as [[? [? [?|]]] | ? | [? [? [?|]]] ?] eqn:?;
      run; try fails
  end;
  match goal with
  | |- context [xml_Unmarshal ?E ?b] =>
      destruct (xml_Unmarshal E b) as [[? ?] [?|]] eqn:?; run; [fails |]
  end;
  match goal with
  | |- context [if ?a =? 0 then _ else _] =>
      destruct (a =? 0) eqn:?; run; [fails |]
  end;
  match goal with
  | H : (_ =? 0) = false |- _ => apply Z.eqb_neq in H
  end;
  intros _; right; (split; [assumption |]); do 3 eexists;
  (split; [reflexivity |]); unfold LoginFacts.login_request;
  (split; [eassumption |]); (split; [reflexivity |]);
  (split; [eassumption |]); (split; [assumption |]);
  split; reflexivity.

Lemma pro_succeeded (E : Env QvrPro.QvrProLogsResponse) w user password :
  fst (QvrPro.Login E user password w) = Ret true ->
  (LoginFacts.pro_fresh E w
   /\ conn (snd (QvrPro.Login E user password w)) = conn w
   /\ requests (snd (QvrPro.Login E user password w)) = requests w)
  \/ (LoginFacts.pro_stale E w
      /\ pro_authenticated E user password w (snd (QvrPro.Login E user password w))).
Proof.
  destruct w as [c t n k].
  unfold LoginFacts.pro_fresh, LoginFacts.pro_stale, pro_authenticated.
  cbn [conn requests clock_reads].
  unfold QvrPro.Login, QvrPro.session_valid, QvrPro.Logout. run.
  destruct (0 <? Z.of_nat (String.length (QvrPro.sid c))) eqn:Hlen; run.
  - destruct (time_Now_Unix E k <? QvrPro.expire c) eqn:Ht; run.
    + intros _. left. apply Z.ltb_lt in Ht.
      repeat split; [| exact Ht]. intros Hs. rewrite Hs in Hlen. discriminate Hlen.
    + apply Z.ltb_ge in Ht.
      assert (Hst : QvrPro.sid c = EmptyString
                    \/ QvrPro.expire c <= time_Now_Unix E k) by (right; exact Ht).
      served.
  - apply empty_length in Hlen.
    assert (Hst : QvrPro.sid c = EmptyString
                  \/ QvrPro.expire c <= time_Now_Unix E k) by (left; exact Hlen).
    served.
Qed.

Lemma app_succeeded (E : Env QvrApp.LogsResponse) w user password :
  fst (QvrApp.Login E user password w) = Ret true ->
  (LoginFacts.app_fresh E w
   /\ conn (snd (QvrApp.Login E user password w)) = conn w
   /\ requests (snd (QvrApp.Login E user password w)) = requests w)
  \/ (LoginFacts.app_stale E w
      /\ app_authenticated E user password w (snd (QvrApp.Login E user password w))).
Proof.
  destruct w as [c t n k].
  unfold LoginFacts.app_fresh, LoginFacts.app_stale, app_authenticated.
  cbn [conn requests clock_reads].
  unfold QvrApp.Login, QvrApp.session_valid, QvrApp.Logout. run.
  destruct (0 <? Z.of_nat (String.length (QvrApp.sid c))) eqn:Hlen; run.
  - destruct (time_Now_Unix E k <? QvrApp.expire c) eqn:Ht; run.
    + intros _. left. apply Z.ltb_lt in Ht.
      repeat split; [| exact Ht]. intros Hs. rewrite Hs in Hlen. discriminate Hlen.
    + apply Z.ltb_ge in Ht.
      assert (Hst : QvrApp.sid c = EmptyString
                    \/ QvrApp.expire c <= time_Now_Unix E k) by (right; exact Ht).
      served.
  - apply empty_length in Hlen.
    assert (Hst : QvrApp.sid c = EmptyString
                  \/ QvrApp.expire c <= time_Now_Unix E k) by (left; exact Hlen).
    served.
Qed.

End LoginSuccess.

(** X14: what [Login] has done when it returns [true], in both clients.
    Either the session held was still good, and then the connection is as
    it was and no request was sent; or the session was stale, the base URL
    parsed, the server answered the one login request, the body was read
    and decoded, the document says [authPassed] is not 0, and then the
    connection holds the document's [authSid] as its session id and, as
    its expiry, the time the clock showed after the answer plus the
    connection's timeout (wrapped to 64 bits), its other fields being as
    they were. *)
Theorem Login_true_means_session :
  (forall (E : Env QvrPro.QvrProLogsResponse) w user password,
      fst (QvrPro.Login E user password w) = Ret true ->
      (LoginFacts.pro_fresh E w
       /\ conn (snd (QvrPro.Login E user password w)) = conn w
       /\ requests (snd (QvrPro.Login E user password w)) = requests w)
      \/ (LoginFacts.pro_stale E w
          /\ LoginSuccess.pro_authenticated E user password w
               (snd (QvrPro.Login E user password w))))
  /\ (forall (E : Env QvrApp.LogsResponse) w user password,
      fst (QvrApp.Login E user password w) = Ret true ->
      (LoginFacts.app_fresh E w
       /\ conn (snd (QvrApp.Login E user password w)) = conn w
       /\ requests (snd (QvrApp.Login E user password w)) = requests w)
      \/ (LoginFacts.app_stale E w
          /\ LoginSuccess.app_authenticated E user password w
               (snd (QvrApp.Login E user password w)))).
Proof.
  split.
  - exact LoginSuccess.pro_succeeded.
  - exact LoginSuccess.app_succeeded.
Qed.

(** The first login of the later client against the example server, which
    lets it pass. *)
Lemma Login_true_means_session_witness :
  (LoginFacts.app_fresh Example_login.app_env Example_open.app_world
   /\ conn (snd (QvrApp.Login Example_login.app_env "admin" "secret"
                   Example_open.app_world)) = conn Example_open.app_world
   /\ requests (snd (QvrApp.Login Example_login.app_env "admin" "secret"
                       Example_open.app_world)) = requests Example_open.app_world)
  \/ (LoginFacts.app_stale Example_login.app_env Example_open.app_world
      /\ LoginSuccess.app_authenticated Example_login.app_env "admin" "secret"
           Example_open.app_world
           (snd (QvrApp.Login Example_login.app_env "admin" "secret"
                   Example_open.app_world))).
Proof.
  apply (proj2 Login_true_means_session Example_login.app_env
           Example_open.app_world "admin" "secret").
  vm_compute. reflexivity.
Defined.

Example Login_sets_session_and_expiry :
  conn (snd (QvrApp.Login Example_login.app_env "admin" "secret"
               Example_open.app_world))
  = {| QvrApp.url := "https://nas"; QvrApp.sid := "SID1"; QvrApp.expire := 3600;
       QvrApp.timeout := 3600; QvrApp.qvrApp := QvrApp.QvrPro |}.
Proof. vm_compute. reflexivity. Qed.

(** ** What no call changes *)

Module Fixed.

(** The fields of a connection that are set when it is created. *)
Definition pro_same_server (c c' : QvrPro.Connection) : Prop :=
  QvrPro.url c' = QvrPro.url c /\ QvrPro.timeout c' = QvrPro.timeout c.

Definition app_same_server (c c' : QvrApp.Connection) : Prop :=
  QvrApp.url c' = QvrApp.url c /\ QvrApp.timeout c' = QvrApp.timeout c
  /\ QvrApp.qvrApp c' = QvrApp.qvrApp c.

Lemma pro_Logout_fixed (E : Env QvrPro.QvrProLogsResponse) w :
  pro_same_server (conn w) (conn (snd (QvrPro.Logout E w))).
Proof.
  destruct w as [c t n k]. unfold pro_same_server, QvrPro.Logout. run.
  repeat (LoginFailure.branch; run); split; reflexivity.
Qed.

Lemma app_Logout_fixed (E : Env QvrApp.LogsResponse) w :
  app_same_server (conn w) (conn (snd (QvrApp.Logout E w))).
Proof.
  destruct w as [c t n k]. unfold app_same_server, QvrApp.Logout. run.
  repeat (LoginFailure.branch; run); repeat split; reflexivity.
Qed.

Lemma pro_Login_fixed (E : Env QvrPro.QvrProLogsResponse) w user password :
  pro_same_server (conn w) (conn (snd (QvrPro.Login E user password w))).
Proof.
  destruct w as [c t n k].
  unfold pro_same_server, QvrPro.Login, QvrPro.session_valid, QvrPro.Logout. run.
  repeat (LoginFailure.branch; run); split; reflexivity.
Qed.

Lemma app_Login_fixed (E : Env QvrApp.LogsResponse) w user password :
  app_same_server (conn w) (conn (snd (QvrApp.Login E user password w))).
Proof.
  destruct w as [c t n k].
  unfold app_same_server, QvrApp.Login, QvrApp.session_valid, QvrApp.Logout. run.
  repeat (LoginFailure.branch; run); repeat split; reflexivity.
Qed.

End Fixed.

(** X15: [Login] and [Logout], the two methods that write to the
    connection, write only its session id and its expiry: the base URL,
    the timeout and, in the later client, the application are after the
    call what they were before it, however the call ends. *)
Theorem Login_and_Logout_keep_the_server :
  (forall (E : Env QvrPro.QvrProLogsResponse) w user password,
      Fixed.pro_same_server (conn w) (conn (snd (QvrPro.Login E user password w)))
      /\ Fixed.pro_same_server (conn w) (conn (snd (QvrPro.Logout E w))))
  /\ (forall (E : Env QvrApp.LogsResponse) w user password,
      Fixed.app_same_server (conn w) (conn (snd (QvrApp.Login E user password w)))
      /\ Fixed.app_same_server (conn w) (conn (snd (QvrApp.Logout E w)))).
Proof.
  split; intros E w user password; split.
  - exact (Fixed.pro_Login_fixed E w user password).
  - exact (Fixed.pro_Logout_fixed E w).
  - exact (Fixed.app_Login_fixed E w user password).
  - exact (Fixed.app_Logout_fixed E w).
Qed.

(** ** The error of the open step *)

Module OpenError.

Lemma pro_only_parse (E : Env QvrPro.QvrProLogsResponse) w channelId startTime s e :
  fst (QvrPro.CreateSessionId E channelId startTime w) = Ret (s, Some e) ->
  url_Parse E (QvrPro.url (conn w)) = inr e
  /\ s = EmptyString
  /\ snd (QvrPro.CreateSessionId E channelId startTime w) = w.
Proof.
  destruct w as [c t n k]. cbn [conn]. unfold QvrPro.CreateSessionId. run.
  destruct (url_Parse E (QvrPro.url c)) as [baseUrl | err]; run.
  - repeat (Flow.branch; run); intros H; discriminate H.
  - intros H. injection H as <- <-. auto.
Qed.

Lemma app_only_parse (E : Env QvrApp.LogsResponse) w channelId startTime s e :
  fst (QvrApp.CreateSessionId E channelId startTime w) = Ret (s, Some e) ->
  url_Parse E (QvrApp.url (conn w)) = inr e
  /\ s = EmptyString
  /\ snd (QvrApp.CreateSessionId E channelId startTime w) = w.
Proof.
  destruct w as [c t n k]. cbn [conn]. unfold QvrApp.CreateSessionId. run.
  destruct (url_Parse E (QvrApp.url c)) as [baseUrl | err]; run.
  - repeat (Flow.branch; run); intros H; discriminate H.
  - intros H. injection H as <- <-. auto.
Qed.

End OpenError.

(** X16: the only error [CreateSessionId] ever returns, in both clients,
    is the one [url.Parse] gave for the base URL; it comes with the empty
    session id, and nothing was logged or sent.  So a failed request, a
    body that cannot be read and a status of the error table never reach
    the caller as an error. *)
Theorem CreateSessionId_error_is_the_parse_error :
  (forall (E : Env QvrPro.QvrProLogsResponse) w channelId startTime s e,
      fst (QvrPro.CreateSessionId E channelId startTime w) = Ret (s, Some e) ->
      url_Parse E (QvrPro.url (conn w)) = inr e
      /\ s = EmptyString
      /\ snd (QvrPro.CreateSessionId E channelId startTime w) = w)
  /\ (forall (E : Env QvrApp.LogsResponse) w channelId startTime s e,
      fst (QvrApp.CreateSessionId E channelId startTime w) = Ret (s, Some e) ->
      url_Parse E (QvrApp.url (conn w)) = inr e
      /\ s = EmptyString
      /\ snd (QvrApp.CreateSessionId E channelId startTime w) = w).
Proof.
  split.
  - exact OpenError.pro_only_parse.
  - exact OpenError.app_only_parse.
Qed.

(** The connection whose base URL is a lone colon. *)
Lemma CreateSessionId_error_is_the_parse_error_witness :
  url_Parse (Example_open.app_env EmptyString)
    (QvrApp.url (conn (Example.start Example_login.malformed_app)))
  = inr ("parse " +:+ dq +:+ ":" +:+ dq +:+ ": missing protocol scheme")
  /\ EmptyString = EmptyString
  /\ snd (QvrApp.CreateSessionId (Example_open.app_env EmptyString) "cam1" 0
            (Example.start Example_login.malformed_app))
     = Example.start Example_login.malformed_app.
Proof.
  apply (proj2 CreateSessionId_error_is_the_parse_error
           (Example_open.app_env EmptyString)
           (Example.start Example_login.malformed_app) "cam1" 0).
  vm_compute. reflexivity.
Defined.

(** ** What the first client returns for a stream *)

Module Stub.

(** The only bytes a call returns are the literal, with a nil error. *)
Definition only_stub {C} (m : M C (option string * option error)) : Prop :=
  forall w b e, fst (m w) = Ret (Some b, e) -> b = not_finished /\ e = None.

Lemma only_stub_bind {C A} (m : M C A) k :
  (forall a, only_stub (k a)) -> only_stub (bind m k).
Proof.
  intros Hk w b e. unfold bind.
  destruct (m w) as [[a | msg | code] w']; cbn [fst].
  - apply Hk.
  - discriminate.
  - discriminate.
Qed.

Lemma only_stub_nil {C} e : only_stub (C := C) (ret (None, e)).
Proof. intros w b e' H. discriminate H. Qed.

Lemma only_stub_literal {C} : only_stub (C := C) (ret (Some not_finished, None)).
Proof. intros w b e H. injection H as <- <-. auto. Qed.

Lemma Video_only_stub (E : Env QvrPro.QvrProLogsResponse) channelId seekTime :
  only_stub (QvrPro.Video E channelId seekTime).
Proof.
  unfold QvrPro.Video.
  apply only_stub_bind. intros [sessionId err].
  destruct (Z.of_nat (String.length sessionId) =? 0); [apply only_stub_nil |].
  apply only_stub_bind. intros [success err1].
  destruct success; cbn [negb]; [| apply only_stub_nil].
  apply only_stub_bind. intros [success err2].
  destruct success; cbn [negb]; [| apply only_stub_nil].
  apply only_stub_bind. intros success.
  destruct success; cbn [negb]; [apply only_stub_literal | apply only_stub_nil].
Qed.

Lemma LiveStream_only_stub (E : Env QvrPro.QvrProLogsResponse) channelId streamId :
  only_stub (QvrPro.LiveStream E channelId streamId).
Proof.
  unfold QvrPro.LiveStream.
  apply only_stub_bind. intros connection.
  destruct (url_Parse E (QvrPro.url connection)); [| apply only_stub_nil].
  cbv zeta.
  do 4 (apply only_stub_bind; intros ?).
  apply only_stub_literal.
Qed.

End Stub.

(** X17: [Video] and [LiveStream] of the first client never return
    anything of what the server sent: whenever one of them returns bytes,
    the bytes are the literal [{"Not":"Finished"}] and the error is nil. *)
Theorem first_client_streams_return_the_literal :
  (forall (E : Env QvrPro.QvrProLogsResponse) w channelId seekTime b e,
      fst (QvrPro.Video E channelId seekTime w) = Ret (Some b, e) ->
      b = not_finished /\ e = None)
  /\ (forall (E : Env QvrPro.QvrProLogsResponse) w channelId streamId b e,
      fst (QvrPro.LiveStream E channelId streamId w) = Ret (Some b, e) ->
      b = not_finished /\ e = None).
Proof.
  split.
  - intros E w channelId seekTime b e. apply Stub.Video_only_stub.
  - intros E w channelId streamId b e. apply Stub.LiveStream_only_stub.
Qed.

(** The whole stream of ten bytes. *)
Lemma first_client_streams_return_the_literal_witness :
  fst (QvrPro.LiveStream (Example_stream.pro_env Example_stream.whole) "cam1" "0"
         Example_open.pro_world) = Ret (Some not_finished, None)
  /\ not_finished = not_finished /\ @None error = None.
Proof.
  split; [vm_compute; reflexivity |].
  apply (proj2 first_client_streams_return_the_literal
           (Example_stream.pro_env Example_stream.whole)
           Example_open.pro_world "cam1" "0" not_finished None).
  vm_compute. reflexivity.
Defined.

(** ** The calls that always return *)

Module Returns.

Ltac all_paths := repeat (LoginFailure.branch; run); eexists; reflexivity.

Lemma pro_Logout_returns (E : Env QvrPro.QvrProLogsResponse) w :
  completes (fst (QvrPro.Logout E w)).
Proof. destruct w as [c t n k]. unfold completes, QvrPro.Logout. run. all_paths. Qed.

Lemma pro_Login_returns (E : Env QvrPro.QvrProLogsResponse) w user password :
  completes (fst (QvrPro.Login E user password w)).
Proof.
  destruct w as [c t n k].
  unfold completes, QvrPro.Login, QvrPro.session_valid, QvrPro.Logout. run.
  all_paths.
Qed.

Lemma pro_CameraList_returns (E : Env QvrPro.QvrProLogsResponse) w :
  completes (fst (QvrPro.CameraList E w)).
Proof. destruct w as [c t n k]. unfold completes, QvrPro.CameraList. run. all_paths. Qed.

Lemma pro_CameraSnapshot_returns (E : Env QvrPro.QvrProLogsResponse) w channelId imageTs :
  completes (fst (QvrPro.CameraSnapshot E channelId imageTs w)).
Proof.
  destruct w as [c t n k]. unfold completes, QvrPro.CameraSnapshot. run. all_paths.
Qed.

Lemma app_CameraList_returns (E : Env QvrApp.LogsResponse) w :
  completes (fst (QvrApp.CameraList E w)).
Proof. destruct w as [c t n k]. unfold completes, QvrApp.CameraList. run. all_paths. Qed.

Lemma app_CameraCapability_returns (E : Env QvrApp.LogsResponse) w :
  completes (fst (QvrApp.CameraCapability E w)).
Proof.
  destruct w as [c t n k]. unfold completes, QvrApp.CameraCapability. run. all_paths.
Qed.

Lemma app_CameraSnapshot_returns (E : Env QvrApp.LogsResponse) w channelId imageTs :
  completes (fst (QvrApp.CameraSnapshot E channelId imageTs w)).
Proof.
  destruct w as [c t n k]. unfold completes, QvrApp.CameraSnapshot. run. all_paths.
Qed.

Lemma app_Logs_returns (E : Env QvrApp.LogsResponse) w logType startTime maxResults :
  completes (fst (QvrApp.Logs E logType startTime maxResults w)).
Proof.
  destruct w as [c t n k]. unfold completes, QvrApp.Logs. run.
  repeat (LoginFailure.branch; run).
  all: try (eexists; reflexivity).
  all: destruct (json_Unmarshal E _) as [? [?|]]; run; eexists; reflexivity.
Qed.

End Returns.

(** X18: the calls that return whatever the server, the clock and the
    decoders do: they neither panic nor end the process.  In the first
    client these are [Logout], [Login], [CameraList] and [CameraSnapshot];
    in the later client [CameraList], [CameraCapability], [CameraSnapshot]
    and [Logs]. *)
Theorem calls_that_always_return :
  (forall (E : Env QvrPro.QvrProLogsResponse) w user password channelId imageTs,
      completes (fst (QvrPro.Logout E w))
      /\ completes (fst (QvrPro.Login E user password w))
      /\ completes (fst (QvrPro.CameraList E w))
      /\ completes (fst (QvrPro.CameraSnapshot E channelId imageTs w)))
  /\ (forall (E : Env QvrApp.LogsResponse) w channelId imageTs
             logType startTime maxResults,
      completes (fst (QvrApp.CameraList E w))
      /\ completes (fst (QvrApp.CameraCapability E w))
      /\ completes (fst (QvrApp.CameraSnapshot E channelId imageTs w))
      /\ completes (fst (QvrApp.Logs E logType startTime maxResults w))).
Proof.
  split.
  - intros E w user password channelId imageTs.
    split; [exact (Returns.pro_Logout_returns E w) |].
    split; [exact (Returns.pro_Login_returns E w user password) |].
    split; [exact (Returns.pro_CameraList_returns E w) |].
    exact (Returns.pro_CameraSnapshot_returns E w channelId imageTs).
  - intros E w channelId imageTs logType startTime maxResults.
    split; [exact (Returns.app_CameraList_returns E w) |].
    split; [exact (Returns.app_CameraCapability_returns E w) |].
    split; [exact (Returns.app_CameraSnapshot_returns E w channelId imageTs) |].
    exact (Returns.app_Logs_returns E w logType startTime maxResults).
Qed.

(** ** What [Logout] and [Login] tell the server and the log *)

Module SessionRequests.

Lemma pro_Logout_asks (E : Env QvrPro.QvrProLogsResponse) w baseUrl :
  url_Parse E (QvrPro.url (conn w)) = inl baseUrl ->
  Requests.asks (QvrPro.Logout E) w "/cgi-bin/authLogin.cgi"
    (<["sid" := [QvrPro.sid (conn w)]]> (<["logout" := ["1"]]> ∅)).
Proof.
  destruct w as [c t n k]; cbn [conn trace]. intros Hp.
  unfold QvrPro.Logout. Requests.simple_request Hp.
Qed.

Lemma app_Logout_asks (E : Env QvrApp.LogsResponse) w baseUrl :
  url_Parse E (QvrApp.url (conn w)) = inl baseUrl ->
  Requests.asks (QvrApp.Logout E) w "/cgi-bin/authLogin.cgi"
    (<["sid" := [QvrApp.sid (conn w)]]> (<["logout" := ["1"]]> ∅)).
Proof.
  destruct w as [c t n k]; cbn [conn trace]. intros Hp.
  unfold QvrApp.Logout. Requests.simple_request Hp.
Qed.

(** The log line and the request of a login that goes to the server. *)
Definition announced {C A} {J} (E : Env J) (m : M C A) (w : World C) (u : URL) : Prop :=
  exists rest,
    trace (snd (m w)) = trace w ++ EvLog (info (URL_String E u)) :: EvGet u :: rest.

Lemma pro_Login_announced E w baseUrl user password :
  url_Parse E (QvrPro.url (conn w)) = inl baseUrl ->
  LoginFacts.pro_stale E w ->
  announced E (QvrPro.Login E user password) w
    (LoginFacts.login_request baseUrl user password).
Proof.
  destruct w as [c t n k]. unfold LoginFacts.pro_stale, LoginFacts.login_request, announced.
  cbn [conn clock_reads]. intros Hp Hst.
  unfold QvrPro.Login, QvrPro.session_valid, QvrPro.Logout. run.
  destruct (0 <? Z.of_nat (String.length (QvrPro.sid c))) eqn:Hlen; run.
  - destruct (time_Now_Unix E k <? QvrPro.expire c) eqn:Ht; run.
    + exfalso. apply Z.ltb_lt in Ht. destruct Hst as [Hs | Hs]; [| lia].
      rewrite Hs in Hlen. discriminate Hlen.
    + rewrite !Hp. run.
      repeat (LoginFacts.branch; run; rewrite ?Hp; run); LoginFacts.leaf.
  - rewrite !Hp. run.
    repeat (LoginFacts.branch; run; rewrite ?Hp; run); LoginFacts.leaf.
Qed.

Lemma app_Login_announced E w baseUrl user password :
  url_Parse E (QvrApp.url (conn w)) = inl baseUrl ->
  LoginFacts.app_stale E w ->
  announced E (QvrApp.Login E user password) w
    (LoginFacts.login_request baseUrl user password).
Proof.
  destruct w as [c t n k]. unfold LoginFacts.app_stale, LoginFacts.login_request, announced.
  cbn [conn clock_reads]. intros Hp Hst.
  unfold QvrApp.Login, QvrApp.session_valid, QvrApp.Logout. run.
  destruct (0 <? Z.of_nat (String.length (QvrApp.sid c))) eqn:Hlen; run.
  - destruct (time_Now_Unix E k <? QvrApp.expire c) eqn:Ht; run.
    + exfalso. apply Z.ltb_lt in Ht. destruct Hst as [Hs | Hs]; [| lia].
      rewrite Hs in Hlen. discriminate Hlen.
    + rewrite !Hp. run.
      repeat (LoginFacts.branch; run; rewrite ?Hp; run); LoginFacts.leaf.
  - rewrite !Hp. run.
    repeat (LoginFacts.branch; run; rewrite ?Hp; run); LoginFacts.leaf.
Qed.

End SessionRequests.



Example Login_logs_the_password :
  hd_error (logged (trace (snd (QvrApp.Login Example_login.app_env "admin" "secret"
                                  Example_open.app_world))))
  = Some "[INFO] https://nas/cgi-bin/authLogin.cgi?pwd=secret&serviceKey=1&user=admin".
Proof. vm_compute. reflexivity. Qed.
